(** * tickets-lib: canonical encoding, signatures, ticket identity,
      replay guard and quorum verification

    A shallow embedding of the trust-critical path of the library:
    - [utils/bytes.ts]   hex decoding ([hexToBytes]);
    - [cbor.ts]          [assertNoUndefined], [encodeCbor], [decodeCbor];
    - [ed25519.ts]       [normalizeSecret], [normalizePublicKey], [sign],
                         [verify], [derivePublicKey];
    - [ticketId.ts]      [getTicketId], [verifyTicketId];
    - [replayGuard.ts]   the [ReplayGuard] class ([accept], [prune]);
    - [quorum.ts]        [verifyQuorum];
    - [helpers.ts] and [resolveTicketHelpers.ts]: the two [isTicketExpired].

    and of the helpers built on it:
    - [utils/bytes.ts]   [bytesToHex], and [toHex] of [ed25519.ts];
    - [resolveTicketHelpers.ts]   [encodeAndSignTicket],
                         [decodeAndVerifyTicket];
    - [resolveTicketTransport.ts] [toEnvelope], [fromEnvelope] and the
                         private hex helpers;
    - [resolveTicketMultisig.ts]  [createMultiSigTicket],
                         [addParticipantSignature], [isThresholdMet],
                         [getSignersForRole], [keyEquals];
    - [helpers.ts]       [validateNonceSequence], [calculateSplitAmounts],
                         [isTicketTimingValid], [getTimeUntilExpiry],
                         [meetsConfidenceThreshold];
    - [validation.ts]    [validateTicketIntegrity],
                         [validateSplitConsistency], [validateCIDFormat],
                         [validateDealId], [isSafeForAutomaticExecution],
                         [requiresHumanReview];
    - [schema.ts]        the refinement of [ResolveTicketSchema].

    JavaScript exceptions are modelled by the [result] monad; the mutable
    [Map] and [Set] of the source are finite maps and sets threaded through
    the calls; the wall clock read by [Date.now()] is an explicit argument
    named [Date_now]. *)

From Stdlib Require Import ZArith NArith Lia List Ascii String Strings.Byte Bool.
From Stdlib Require Import Permutation Sorted OrderedTypeEx.
From stdpp Require Import gmap strings list fin_maps pretty sorting.

Open Scope Z_scope.

(* ===================================================================== *)
(** * Exceptions *)
(* ===================================================================== *)

(** The source throws plain [Error] objects (and [TypeError] in the byte
    utilities); the message is the only payload. *)
Inductive exn :=
| Error (message : string)
| TypeError (message : string).

Inductive result (A : Type) :=
| Ok (a : A)
| Throw (e : exn).
Arguments Ok {A} a.
Arguments Throw {A} e.

#[global] Instance result_ret : MRet result := fun A a => Ok a.
#[global] Instance result_bind : MBind result := fun A B f m =>
  match m with
  | Ok a => f a
  | Throw e => Throw e
  end.

(** The error taxonomy of the specification, as the messages thrown by the
    source. *)
Definition InvalidSignatureLength : exn :=
  Error "Invalid ed25519 signature length. Expected 64 bytes".
Definition InvalidKeyLength_publicKey : exn :=
  Error "Invalid ed25519 public key length. Expected 32 bytes".
Definition InvalidKeyLength_secret : exn :=
  Error "Invalid ed25519 secret length. Expected 32 or 64 bytes".

Definition is_InvalidKeyLength (e : exn) : Prop :=
  e = InvalidKeyLength_publicKey \/ e = InvalidKeyLength_secret.

(** [EncodingError]: the error thrown by [assertNoUndefined]. *)
Definition EncodingError (where_ : string) : exn :=
  Error ("undefined encountered at " +:+ where_).

Definition is_EncodingError (e : exn) : Prop :=
  exists where_, e = EncodingError where_.

(* ===================================================================== *)
(** * Bytes ([Uint8Array]) *)
(* ===================================================================== *)

Abbreviation bytes := (list byte).

#[global] Instance byte_eq_dec : EqDecision byte := Byte.byte_eq_dec.

Definition byte_of_N (n : N) : byte :=
  match Byte.of_N (n mod 256) with
  | Some b => b
  | None => x00
  end.

(** ** utils/bytes.ts *)

Definition hex_digit_value (c : ascii) : option N :=
  let n := N_of_ascii c in
  if ((48 <=? n) && (n <=? 57))%N then Some (n - 48)%N        (* 0-9 *)
  else if ((97 <=? n) && (n <=? 102))%N then Some (n - 87)%N  (* a-f *)
  else if ((65 <=? n) && (n <=? 70))%N then Some (n - 55)%N   (* A-F *)
  else None.

Definition is_hex_digit (c : ascii) : bool :=
  match hex_digit_value c with Some _ => true | None => false end.

Fixpoint string_forallb (f : ascii -> bool) (s : string) : bool :=
  match s with
  | EmptyString => true
  | String c s' => f c && string_forallb f s'
  end.

(** [parseInt(clean.slice(2i, 2i+2), 16)] over the whole cleaned string. *)
Fixpoint parse_hex_pairs (s : string) : bytes :=
  match s with
  | String hi (String lo s') =>
      match hex_digit_value hi, hex_digit_value lo with
      | Some h, Some l => byte_of_N (h * 16 + l) :: parse_hex_pairs s'
      | _, _ => []
      end
  | _ => []
  end.

Definition strip_0x (hex : string) : string :=
  match hex with
  | String "0" (String "x" rest) => rest
  | String "0" (String "X" rest) => rest
  | _ => hex
  end.

Definition hexToBytes (hex : string) : result bytes :=
  let clean := strip_0x hex in
  if (String.length clean =? 0)%nat then
    Throw (Error "hex string is empty")
  else if negb (String.length clean mod 2 =? 0)%nat then
    Throw (Error "hex string must have an even length")
  else if negb (string_forallb is_hex_digit clean) then
    Throw (Error "hex string contains non-hex characters")
  else Ok (parse_hex_pairs clean).

(** Node's ['hex'] rendering of a buffer ([Buffer.toString('hex')],
    [Hash.digest('hex')]): two lowercase digits per byte. *)
Definition hex_digit (n : N) : ascii :=
  if (n <? 10)%N then ascii_of_N (48 + n) else ascii_of_N (87 + n).

Definition hex_of_byte (b : byte) : string :=
  String (hex_digit (Byte.to_N b / 16)) (String (hex_digit (Byte.to_N b mod 16)) EmptyString).

Fixpoint hex_of_bytes (bs : bytes) : string :=
  match bs with
  | [] => EmptyString
  | b :: bs' => hex_of_byte b +:+ hex_of_bytes bs'
  end.

Definition is_lower_hex (c : ascii) : bool :=
  let n := N_of_ascii c in
  (((48 <=? n) && (n <=? 57)) || ((97 <=? n) && (n <=? 102)))%N.

(* ===================================================================== *)
(** * JavaScript values handled by the encoder *)
(* ===================================================================== *)

(** The JSON-like values of the data model, plus the absent marker
    [undefined]. A number is an integer or a binary64 float given by its
    bit pattern; a string is identified with its UTF-8 bytes; an object
    keeps its entries in key-insertion order. *)
#[warnings="-register-all"]
Inductive value :=
| VUndefined
| VNull
| VBool (b : bool)
| VInt (n : Z)
| VFloat (bits : N)
| VString (s : string)
| VArray (items : list value)
| VObject (entries : list (string * value)).

(** ** cbor.ts: assertNoUndefined *)

Definition path_name (path : list string) : string :=
  match path with
  | [] => "<root>"
  | _ => String.concat "." path
  end.

Fixpoint assertNoUndefined (v : value) (path : list string) {struct v} : result unit :=
  match v with
  | VUndefined => Throw (EncodingError (path_name path))
  | VNull => Ok tt
  | VArray items =>
      (fix loop (l : list value) (i : nat) {struct l} : result unit :=
         match l with
         | [] => Ok tt
         | x :: l' =>
             match assertNoUndefined x (path ++ [pretty i]) with
             | Ok _ => loop l' (S i)
             | Throw e => Throw e
             end
         end) items 0%nat
  | VObject entries =>
      (fix loop (l : list (string * value)) {struct l} : result unit :=
         match l with
         | [] => Ok tt
         | (k, x) :: l' =>
             match assertNoUndefined x (path ++ [k]) with
             | Ok _ => loop l'
             | Throw e => Throw e
             end
         end) entries
  | _ => Ok tt
  end.

(** "Contains an absent marker at some depth": at the root, as the value of
    a mapping entry, or as an element of a sequence, recursively. *)
Fixpoint has_undefined (v : value) : bool :=
  match v with
  | VUndefined => true
  | VArray items => existsb has_undefined items
  | VObject entries => existsb (fun e => has_undefined e.2) entries
  | _ => false
  end.

(** ** The number a float stands for *)

(** The value of a binary64 pattern (sign, 11 exponent bits, 52 fraction
    bits): not a number, an infinity, or a mantissa and a power of two. The
    two zeros have the same value, and so have all the patterns that are
    not a number. *)
Inductive xreal :=
| XNaN
| XNegInf
| XFin (m e : Z)
| XPosInf.

Definition float_value (bits : N) : xreal :=
  let b := Z.of_N (bits mod 2 ^ 64) in
  let negative := 2 ^ 63 <=? b in
  let e := (b / 2 ^ 52) mod 2 ^ 11 in
  let f := b mod 2 ^ 52 in
  if e =? 2047 then
    if f =? 0 then (if negative then XNegInf else XPosInf) else XNaN
  else
    let m := if e =? 0 then f else 2 ^ 52 + f in
    let e' := if e =? 0 then -1074 else e - 1075 in
    XFin (if negative then - m else m) e'.

(* ===================================================================== *)
(** * The cborg codec *)
(* ===================================================================== *)

(** [cbor.ts] delegates to the cborg library ([encode] with the canonical
    rules, [decode]), which is not part of the source tree. This module is
    its model: the CBOR data items of RFC 8949 under the canonicalisation
    rules of section 4.1 of the specification. *)
Module Cborg.

(** Big-endian rendering of [n] on [k] bytes and its inverse. *)
Fixpoint be (k : nat) (n : N) : bytes :=
  match k with
  | O => []
  | S k' => byte_of_N (n / 256 ^ N.of_nat k') :: be k' n
  end.

Definition from_be (bs : bytes) : N :=
  fold_left (fun acc b => (acc * 256 + Byte.to_N b)%N) bs 0%N.

(** Modelled from the spec: "integers use the shortest binary-length
    representation that can hold the value". Initial byte of major type
    [major] with its argument (an integer, or a length) in the shortest of
    the five forms. *)
Definition head (major : N) (arg : N) : bytes :=
  if (arg <? 24)%N then [byte_of_N (major * 32 + arg)]
  else if (arg <? 2 ^ 8)%N then byte_of_N (major * 32 + 24) :: be 1 arg
  else if (arg <? 2 ^ 16)%N then byte_of_N (major * 32 + 25) :: be 2 arg
  else if (arg <? 2 ^ 32)%N then byte_of_N (major * 32 + 26) :: be 4 arg
  else byte_of_N (major * 32 + 27) :: be 8 arg.

(** Modelled from the spec: "map keys are emitted in strict lexicographic
    (byte-wise) order, regardless of the order in which the caller
    constructed the value". Insertion sort on the key. *)
Fixpoint insert_entry {A} (e : string * A) (l : list (string * A)) : list (string * A) :=
  match l with
  | [] => [e]
  | x :: l' => if String.leb e.1 x.1 then e :: l else x :: insert_entry e l'
  end.

Definition sort_entries {A} (l : list (string * A)) : list (string * A) :=
  foldr insert_entry [] l.

(** Modelled from the spec: "strings are encoded as UTF-8 with explicit
    byte length, never null-terminated". *)
Definition encode_string (s : string) : bytes :=
  head 3 (N.of_nat (length (list_byte_of_string s))) ++ list_byte_of_string s.

(** Modelled from the spec: "floating-point values are encoded in a single
    fixed width and bit pattern for a given numeric value (no alternate NaN
    payloads, no redundant sign representations for zero)". The pattern of
    a number on 64 bits: the quiet NaN [7ff8000000000000] for every pattern
    that is not a number, the positive zero for both zeros, and the pattern
    itself otherwise. *)
Definition float_pattern (bits : N) : N :=
  let b := (bits mod 2 ^ 64)%N in
  let e := ((b / 2 ^ 52) mod 2 ^ 11)%N in
  let f := (b mod 2 ^ 52)%N in
  if ((e =? 2047) && negb (f =? 0))%N then 0x7ff8000000000000%N
  else if (b =? 2 ^ 63)%N then 0%N
  else b.

(** Modelled from the spec: cborg's [encode], an external library that is
    not part of the source tree. The rules are those of section 4.1 (keys in
    lexicographic byte order, integers in their shortest form, strings as
    UTF-8 with an explicit length, floats in one fixed width of 64 bits and
    one pattern for a number) on the CBOR data items of RFC 8949. *)
Fixpoint encode (v : value) : bytes :=
  match v with
  | VUndefined => [byte_of_N 0xf7]
  | VNull => [byte_of_N 0xf6]
  | VBool false => [byte_of_N 0xf4]
  | VBool true => [byte_of_N 0xf5]
  | VInt n =>
      if (0 <=? n)%Z then head 0 (Z.to_N n) else head 1 (Z.to_N (-1 - n))
  | VFloat bits => byte_of_N 0xfb :: be 8 (float_pattern bits)
  | VString s => encode_string s
  | VArray items =>
      head 4 (N.of_nat (length items)) ++ concat (map encode items)
  | VObject entries =>
      head 5 (N.of_nat (length entries)) ++
      concat (map (fun e => encode_string e.1 ++ e.2)
                  (sort_entries (map (fun e => (e.1, encode e.2)) entries)))
  end.

Definition take_bytes (n : nat) (bs : bytes) : option (bytes * bytes) :=
  if (n <=? length bs)%nat then Some (firstn n bs, skipn n bs) else None.

(** The argument that follows an initial byte with additional information
    [ai]. *)
Definition decode_arg (ai : N) (bs : bytes) : option (N * bytes) :=
  if (ai <? 24)%N then Some (ai, bs)
  else
    let width :=
      if (ai =? 24)%N then Some 1%nat
      else if (ai =? 25)%N then Some 2%nat
      else if (ai =? 26)%N then Some 4%nat
      else if (ai =? 27)%N then Some 8%nat
      else None in
    match width with
    | Some w =>
        match take_bytes w bs with
        | Some (b, rest) => Some (from_be b, rest)
        | None => None
        end
    | None => None
    end.

Fixpoint decode_seq {A} (dec : bytes -> option (A * bytes)) (n : nat) (bs : bytes)
  : option (list A * bytes) :=
  match n with
  | O => Some ([], bs)
  | S n' =>
      match dec bs with
      | Some (x, rest) =>
          match decode_seq dec n' rest with
          | Some (xs, rest') => Some (x :: xs, rest')
          | None => None
          end
      | None => None
      end
  end.

Definition decode_entry (dec : bytes -> option (value * bytes)) (bs : bytes)
  : option ((string * value) * bytes) :=
  match dec bs with
  | Some (VString k, rest) =>
      match dec rest with
      | Some (x, rest') => Some ((k, x), rest')
      | None => None
      end
  | _ => None
  end.

(** Modelled from the spec: cborg's [decode], the inverse of [encode]; it
    reads one data item and fails on malformed or truncated input. [fuel]
    bounds the nesting depth. Byte strings, tags and narrow floats, which
    [encode] never emits, are outside the data model and are refused. *)
Fixpoint decode_item (fuel : nat) (bs : bytes) {struct fuel} : option (value * bytes) :=
  match fuel with
  | O => None
  | S fuel' =>
      match bs with
      | [] => None
      | ib :: rest =>
          let major := (Byte.to_N ib / 32)%N in
          let ai := (Byte.to_N ib mod 32)%N in
          if (major =? 0)%N then
            match decode_arg ai rest with
            | Some (n, r) => Some (VInt (Z.of_N n), r)
            | None => None
            end
          else if (major =? 1)%N then
            match decode_arg ai rest with
            | Some (n, r) => Some (VInt (-1 - Z.of_N n), r)
            | None => None
            end
          else if (major =? 3)%N then
            match decode_arg ai rest with
            | Some (n, r) =>
                match take_bytes (N.to_nat n) r with
                | Some (s, r') => Some (VString (string_of_list_byte s), r')
                | None => None
                end
            | None => None
            end
          else if (major =? 4)%N then
            match decode_arg ai rest with
            | Some (n, r) =>
                match decode_seq (decode_item fuel') (N.to_nat n) r with
                | Some (items, r') => Some (VArray items, r')
                | None => None
                end
            | None => None
            end
          else if (major =? 5)%N then
            match decode_arg ai rest with
            | Some (n, r) =>
                match decode_seq (decode_entry (decode_item fuel')) (N.to_nat n) r with
                | Some (entries, r') => Some (VObject entries, r')
                | None => None
                end
            | None => None
            end
          else if (major =? 7)%N then
            if (ai =? 20)%N then Some (VBool false, rest)
            else if (ai =? 21)%N then Some (VBool true, rest)
            else if (ai =? 22)%N then Some (VNull, rest)
            else if (ai =? 23)%N then Some (VUndefined, rest)
            else if (ai =? 27)%N then
              match take_bytes 8 rest with
              | Some (b, r) => Some (VFloat (from_be b), r)
              | None => None
              end
            else None
          else None
      end
  end.

(** Modelled from the spec: "decoding malformed or truncated bytes fails".
    [decode(bytes)] reads a single item, which has to take all the bytes:
    bytes left after the item make the input malformed. A nesting depth
    cannot exceed the number of bytes. *)
Definition decode (bs : bytes) : option value :=
  match decode_item (S (length bs)) bs with
  | Some (v, []) => Some v
  | _ => None
  end.

End Cborg.

(** ** cbor.ts: encodeCbor, decodeCbor *)

Definition encodeCbor (v : value) : result bytes :=
  match assertNoUndefined v [] with
  | Ok _ => Ok (Cborg.encode v)
  | Throw e => Throw e
  end.

Definition DecodingError : exn := Error "CBOR decode error".

Definition decodeCbor (bs : bytes) : result value :=
  match Cborg.decode bs with
  | Some v => Ok v
  | None => Throw DecodingError
  end.

(** ** Structural validity and equality of values *)

(** A value the encoder accepts: no [undefined]; integers in the safe
    range of a JavaScript number; float bit patterns on 64 bits; lengths
    that fit the length field. *)
Fixpoint structurally_valid (v : value) : bool :=
  match v with
  | VUndefined => false
  | VNull => true
  | VBool _ => true
  | VInt n => (- (2 ^ 53 - 1) <=? n) && (n <=? 2 ^ 53 - 1)
  | VFloat bits => (bits <? 2 ^ 64)%N
  | VString s => (N.of_nat (length (list_byte_of_string s)) <? 2 ^ 64)%N
  | VArray items =>
      (N.of_nat (length items) <? 2 ^ 64)%N && forallb structurally_valid items
  | VObject entries =>
      (N.of_nat (length entries) <? 2 ^ 64)%N &&
      forallb (fun e => (N.of_nat (length (list_byte_of_string e.1)) <? 2 ^ 64)%N
                        && structurally_valid e.2) entries
  end.

(** The value with the entries of every object in canonical key order
    and every float in the one pattern of its number. *)
Fixpoint canonical (v : value) : value :=
  match v with
  | VFloat bits => VFloat (Cborg.float_pattern bits)
  | VArray items => VArray (map canonical items)
  | VObject entries =>
      VObject (Cborg.sort_entries (map (fun e => (e.1, canonical e.2)) entries))
  | _ => v
  end.

(** Equality of values of the data model: a float is the number it stands
    for (one zero, one value that is not a number), an array is compared
    element by element, an object entry by entry whatever the insertion
    order. *)
#[warnings="-register-all"]
Inductive deep_equal : value -> value -> Prop :=
| de_undefined : deep_equal VUndefined VUndefined
| de_null : deep_equal VNull VNull
| de_bool b : deep_equal (VBool b) (VBool b)
| de_int n : deep_equal (VInt n) (VInt n)
| de_float bits1 bits2 :
    float_value bits1 = float_value bits2 ->
    deep_equal (VFloat bits1) (VFloat bits2)
| de_string s : deep_equal (VString s) (VString s)
| de_array l1 l2 :
    Forall2 deep_equal l1 l2 -> deep_equal (VArray l1) (VArray l2)
| de_object e1 e2 e2' :
    Permutation e2 e2' ->
    Forall2 (fun a b => a.1 = b.1 /\ deep_equal a.2 b.2) e1 e2' ->
    deep_equal (VObject e1) (VObject e2).

(** Nesting depth of a value. *)
Fixpoint depth (v : value) : nat :=
  match v with
  | VArray items => S (list_max (map depth items))
  | VObject entries => S (list_max (map (fun e => depth e.2) entries))
  | _ => O
  end.

(* ===================================================================== *)
(** * schema.ts: the ResolveTicket type *)
(* ===================================================================== *)

Inductive ResolveAction := RELEASE | REFUND | SPLIT.

Definition RESOLVE_TICKET_VERSION : string := "escrow.v1.ResolveTicket".

(** A JavaScript number. *)
Inductive number :=
| Int (n : Z)
| Float (bits : N).

(** The fields of [z.infer<typeof ResolveTicketSchema>]; the [schema] field
    is the literal [RESOLVE_TICKET_VERSION]. *)
Record ResolveTicket := mkResolveTicket {
  deal_id : string;
  action : ResolveAction;
  split_bps : Z;
  rationale_cid : string;
  confidence : number;
  nonce : Z;
  expires_at : Z
}.

Definition action_name (a : ResolveAction) : string :=
  match a with
  | RELEASE => "RELEASE"
  | REFUND => "REFUND"
  | SPLIT => "SPLIT"
  end.

Definition number_value (x : number) : value :=
  match x with
  | Int n => VInt n
  | Float bits => VFloat bits
  end.

(** The own properties of a ticket object, in the order of the schema. *)
Definition ticket_entries (t : ResolveTicket) : list (string * value) :=
  [ ("schema", VString RESOLVE_TICKET_VERSION);
    ("deal_id", VString (deal_id t));
    ("action", VString (action_name (action t)));
    ("split_bps", VInt (split_bps t));
    ("rationale_cid", VString (rationale_cid t));
    ("confidence", number_value (confidence t));
    ("nonce", VInt (nonce t));
    ("expires_at", VInt (expires_at t)) ].

Definition ticket_object (t : ResolveTicket) : value :=
  VObject (ticket_entries t).

(** An object holding the properties of [t], inserted in any order. *)
Definition is_ticket_object (o : value) (t : ResolveTicket) : Prop :=
  exists entries, o = VObject entries /\ Permutation entries (ticket_entries t).

(* ===================================================================== *)
(** * External primitives *)
(* ===================================================================== *)

(** [@noble/curves/ed25519]: [sign(message, seed)],
    [verify(signature, message, publicKey)] and [getPublicKey(seed)], as
    called by the source on inputs of the right lengths. *)
Class Noble := {
  ed25519_sign : bytes -> bytes -> bytes;
  ed25519_verify : bytes -> bytes -> bytes -> bool;
  ed25519_getPublicKey : bytes -> bytes
}.

(** Node's [createHash('sha256').update(b).digest()]. *)
Class NodeCrypto := {
  sha256 : bytes -> bytes
}.

(* ===================================================================== *)
(** * ed25519.ts *)
(* ===================================================================== *)

(** [Uint8Array | string]: key material and signatures come as bytes or as
    a hex string. The [message] is a [Uint8Array] by its static type, so the
    [instanceof] checks on it and the last branch of [toBytes] never fire. *)
Inductive bytes_or_hex :=
| FromBytes (b : bytes)
| FromHex (hex : string).

Definition toBytes (input : bytes_or_hex) : result bytes :=
  match input with
  | FromHex hex => hexToBytes hex
  | FromBytes b => Ok b
  end.

Definition normalizeSecret (secret : bytes_or_hex) : result bytes :=
  raw ← toBytes secret;
  if (length raw =? 32)%nat then Ok raw
  else if (length raw =? 64)%nat then Ok (firstn 32 raw)
  else Throw InvalidKeyLength_secret.

Definition normalizePublicKey (publicKey : bytes_or_hex) : result bytes :=
  pk ← toBytes publicKey;
  if negb (length pk =? 32)%nat then Throw InvalidKeyLength_publicKey
  else Ok pk.

Definition sign `{Noble} (message : bytes) (secret : bytes_or_hex) : result bytes :=
  seed ← normalizeSecret secret;
  Ok (ed25519_sign message seed).

Definition verify `{Noble} (message : bytes) (signature publicKey : bytes_or_hex)
  : result bool :=
  sig ← toBytes signature;
  if negb (length sig =? 64)%nat then Throw InvalidSignatureLength
  else
    pk ← normalizePublicKey publicKey;
    Ok (ed25519_verify sig message pk).

Definition derivePublicKey `{Noble} (secret : bytes_or_hex) : result bytes :=
  seed ← normalizeSecret secret;
  Ok (ed25519_getPublicKey seed).

(* ===================================================================== *)
(** * ticketId.ts *)
(* ===================================================================== *)

Definition getTicketId `{NodeCrypto} (ticket : value) : result string :=
  cborBytes ← encodeCbor ticket;
  let hash := hex_of_bytes (sha256 cborBytes) in
  Ok ("ticket:v1:" +:+ hash).

Definition verifyTicketId `{NodeCrypto} (ticket : value) (id : string) : result bool :=
  computed ← getTicketId ticket;
  Ok (String.eqb computed id).

(* ===================================================================== *)
(** * replayGuard.ts *)
(* ===================================================================== *)

(** The private field [seen : Map<TicketId, number>]. [prune] deletes, while
    iterating, the entries whose expiry is below [now]: a filter. *)
Record ReplayGuard := mkReplayGuard {
  seen : gmap string Z
}.

Definition new_ReplayGuard : ReplayGuard := mkReplayGuard ∅.

Definition prune (g : ReplayGuard) (now : Z) : ReplayGuard :=
  if (1000 <? size (seen g))%nat then
    mkReplayGuard (filter (fun kv => ¬ (kv.2 < now)) (seen g))
  else g.

(** [accept(ticket)]: the current time is read from the wall clock,
    [Date_now] being the value returned by [Date.now()] (milliseconds). *)
Definition accept `{NodeCrypto} (g : ReplayGuard) (Date_now : Z) (ticket : ResolveTicket)
  : result (bool * ReplayGuard) :=
  let now := Date_now / 1000 in
  if expires_at ticket <? now then Ok (false, g)
  else
    id ← getTicketId (ticket_object ticket);
    if decide (is_Some (seen g !! id)) then Ok (false, g)
    else
      let g1 := mkReplayGuard (<[id := expires_at ticket]> (seen g)) in
      Ok (true, prune g1 now).

(** [accept] without the clean-up step 4: the unpruned table against which
    the pruning guard is compared. *)
Definition accept_unpruned `{NodeCrypto} (g : ReplayGuard) (Date_now : Z)
  (ticket : ResolveTicket) : result (bool * ReplayGuard) :=
  let now := Date_now / 1000 in
  if expires_at ticket <? now then Ok (false, g)
  else
    id ← getTicketId (ticket_object ticket);
    if decide (is_Some (seen g !! id)) then Ok (false, g)
    else Ok (true, mkReplayGuard (<[id := expires_at ticket]> (seen g))).

(** A sequence of calls on one instance: each call comes with the clock
    reading it observes; the decisions are collected in call order. *)
Fixpoint run_with
  (step : ReplayGuard -> Z -> ResolveTicket -> result (bool * ReplayGuard))
  (g : ReplayGuard) (calls : list (Z * ResolveTicket))
  : result (list bool * ReplayGuard) :=
  match calls with
  | [] => Ok ([], g)
  | (clock, ticket) :: calls' =>
      r ← step g clock ticket;
      rs ← run_with step r.2 calls';
      Ok (r.1 :: rs.1, rs.2)
  end.

Definition run `{NodeCrypto} := run_with accept.
Definition run_unpruned `{NodeCrypto} := run_with accept_unpruned.

(** The current time observed by each call, in seconds. *)
Definition observed_times (calls : list (Z * ResolveTicket)) : list Z :=
  map (fun call => call.1 / 1000) calls.

(** The Ticket Identity of a well-typed ticket. *)
Definition ticket_id `{NodeCrypto} (t : ResolveTicket) : string :=
  "ticket:v1:" +:+ hex_of_bytes (sha256 (Cborg.encode (ticket_object t))).

(** The identities of the accepted calls, in call order. *)
Definition accepted_ids `{NodeCrypto} (calls : list (Z * ResolveTicket))
  (decisions : list bool) : list string :=
  map (fun cd => ticket_id cd.1.2) (filter (fun cd => cd.2 = true) (zip calls decisions)).

(** No identity collision that matters among the tickets submitted: two
    tickets with the same identity carry the same expiry (the expiry is part
    of the bytes that are hashed). *)
Definition identities_determine_expiry `{NodeCrypto} (tickets : list ResolveTicket) : Prop :=
  forall t1 t2, t1 ∈ tickets -> t2 ∈ tickets ->
    ticket_id t1 = ticket_id t2 -> expires_at t1 = expires_at t2.

(** SHA-256 does not collide on the canonical bytes of the tickets. *)
Definition sha256_collision_free `{NodeCrypto} (tickets : list ResolveTicket) : Prop :=
  forall t1 t2, t1 ∈ tickets -> t2 ∈ tickets ->
    sha256 (Cborg.encode (ticket_object t1)) = sha256 (Cborg.encode (ticket_object t2)) ->
    Cborg.encode (ticket_object t1) = Cborg.encode (ticket_object t2).

(* ===================================================================== *)
(** * quorum.ts *)
(* ===================================================================== *)

(** [k.every((byte, i) => f(byte, i))] *)
Fixpoint every_indexed (f : byte -> nat -> bool) (k : bytes) (i : nat) : bool :=
  match k with
  | [] => true
  | b :: k' => f b i && every_indexed f k' (S i)
  end.

Definition key_matches (pubKey k : bytes) : bool :=
  (length k =? length pubKey)%nat &&
  every_indexed (fun b i => bool_decide (pubKey !! i = Some b)) k 0.

(** The body of the [for ... of signatures] loop, threading [validCount]
    and [usedPubKeys]. *)
Fixpoint quorum_loop `{Noble} (ticketBytes : bytes) (authorizedPubKeys : list bytes)
  (signatures : list (bytes * bytes)) (validCount : Z) (usedPubKeys : gset string)
  : result Z :=
  match signatures with
  | [] => Ok validCount
  | (pubKey, sig) :: rest =>
      let isAuthorized := existsb (key_matches pubKey) authorizedPubKeys in
      if negb isAuthorized then
        quorum_loop ticketBytes authorizedPubKeys rest validCount usedPubKeys
      else
        let keyString := hex_of_bytes pubKey in
        if decide (keyString ∈ usedPubKeys) then
          quorum_loop ticketBytes authorizedPubKeys rest validCount usedPubKeys
        else
          ok ← verify ticketBytes (FromBytes sig) (FromBytes pubKey);
          if ok : bool then
            quorum_loop ticketBytes authorizedPubKeys rest
              (validCount + 1) ({[keyString]} ∪ usedPubKeys)
          else
            quorum_loop ticketBytes authorizedPubKeys rest validCount usedPubKeys
  end.

(** [threshold] is an integer here; [validCount >= threshold] on a
    fractional threshold compares the same way with its ceiling. *)
Definition verifyQuorum `{Noble} (ticket : ResolveTicket)
  (signatures : list (bytes * bytes)) (authorizedPubKeys : list bytes)
  (threshold : Z) : result bool :=
  ticketBytes ← encodeCbor (ticket_object ticket);
  validCount ← quorum_loop ticketBytes authorizedPubKeys signatures 0 ∅;
  Ok (threshold <=? validCount).

(** The count of the specification: the pairs, taken in order, whose key is
    byte-equal to an authorized key, has not yet contributed a counted
    signature, and whose signature verifies against the ticket bytes. *)
Fixpoint quorum_count `{Noble} (ticketBytes : bytes) (authorizedPubKeys : list bytes)
  (contributed : list bytes) (signatures : list (bytes * bytes)) : nat :=
  match signatures with
  | [] => 0%nat
  | (pubKey, sig) :: rest =>
      if bool_decide (pubKey ∈ authorizedPubKeys)
         && bool_decide (pubKey ∉ contributed)
         && ed25519_verify sig ticketBytes pubKey
      then S (quorum_count ticketBytes authorizedPubKeys (pubKey :: contributed) rest)
      else quorum_count ticketBytes authorizedPubKeys contributed rest
  end.

(** Every submission under an authorized key has a 64-byte signature and a
    32-byte key. *)
Definition quorum_well_formed (authorizedPubKeys : list bytes)
  (signatures : list (bytes * bytes)) : Prop :=
  Forall (fun p => p.1 ∈ authorizedPubKeys ->
                   length p.2 = 64%nat /\ length p.1 = 32%nat) signatures.

(* ===================================================================== *)
(** * helpers.ts and resolveTicketHelpers.ts: isTicketExpired *)
(* ===================================================================== *)

Module Helpers.

(** [currentTime ?? Math.floor(Date.now() / 1000)] *)
Definition isTicketExpired (Date_now : Z) (ticket : ResolveTicket)
  (currentTime : option Z) : bool :=
  let now := match currentTime with
             | Some t => t
             | None => Date_now / 1000
             end in
  now >? expires_at ticket.

End Helpers.

Module ResolveTicketHelpers.

(** [nowSeconds: number = Math.floor(Date.now() / 1000)] *)
Definition isTicketExpired (Date_now : Z) (ticket : ResolveTicket)
  (nowSeconds : option Z) : bool :=
  let nowSeconds := match nowSeconds with
                    | Some t => t
                    | None => Date_now / 1000
                    end in
  expires_at ticket <=? nowSeconds.

End ResolveTicketHelpers.

(* ===================================================================== *)
(** * utils/bytes.ts: bytesToHex *)
(* ===================================================================== *)

(** [opts?: { prefix?: boolean; uppercase?: boolean }] *)
Record BytesToHexOpts := mkBytesToHexOpts {
  opt_prefix : option bool;
  opt_uppercase : option bool
}.

(** [b.toString(16)] on a byte: one digit below 16, two digits otherwise. *)
Definition byte_toString16 (b : byte) : string :=
  let n := Byte.to_N b in
  if (n <? 16)%N then String (hex_digit n) EmptyString
  else String (hex_digit (n / 16)) (String (hex_digit (n mod 16)) EmptyString).

(** [s.padStart(targetLength, padChar)] for a one-character pad string. *)
Definition padStart (targetLength : nat) (padChar : ascii) (s : string) : string :=
  string_of_list_ascii (repeat padChar (targetLength - String.length s)) +:+ s.

(** [toUpperCase] on the ASCII letters, the only letters of a hex
    rendering. *)
Definition ascii_toUpperCase (c : ascii) : ascii :=
  let n := N_of_ascii c in
  if ((97 <=? n) && (n <=? 122))%N then ascii_of_N (n - 32) else c.

Fixpoint toUpperCase (s : string) : string :=
  match s with
  | EmptyString => EmptyString
  | String c s' => String (ascii_toUpperCase c) (toUpperCase s')
  end.

Definition bytesToHex (bs : bytes) (opts : option BytesToHexOpts) : string :=
  let hex := String.concat EmptyString (map (fun b => padStart 2 "0" (byte_toString16 b)) bs) in
  let uppercase := default false (opts ≫= opt_uppercase) in
  let prefix := default false (opts ≫= opt_prefix) in
  let rendered := if uppercase then toUpperCase hex else hex in
  if prefix then "0x" +:+ rendered else rendered.

(** [ed25519.ts]: [export const toHex = bytesToHex]. *)
Definition toHex := bytesToHex.

(* ===================================================================== *)
(** * JavaScript built-ins used by the transport helpers *)
(* ===================================================================== *)

(** [parseInt(s, 16)]: leading white space is skipped, then an optional
    sign, then an optional [0x] or [0X]; the value is that of the longest
    run of hex digits that follows, [None] (NaN) when there is none. The
    strings are over the code units below 256, whose white space is TAB, LF,
    VT, FF, CR, SP and NBSP. *)
Definition is_white_space (c : ascii) : bool :=
  let n := N_of_ascii c in
  (((9 <=? n) && (n <=? 13)) || (n =? 32) || (n =? 160))%N.

Fixpoint trim_start (s : string) : string :=
  match s with
  | EmptyString => EmptyString
  | String c s' => if is_white_space c then trim_start s' else s
  end.

Fixpoint hex_digits_value (s : string) (acc : option Z) : option Z :=
  match s with
  | EmptyString => acc
  | String c s' =>
      match hex_digit_value c with
      | Some d => hex_digits_value s' (Some (16 * default 0 acc + Z.of_N d))
      | None => acc
      end
  end.

Definition parseInt16 (s : string) : option Z :=
  let s1 := trim_start s in
  let signed :=
    match s1 with
    | String c r =>
        if Ascii.eqb c "-" then (-1, r)
        else if Ascii.eqb c "+" then (1, r)
        else (1, s1)
    | EmptyString => (1, s1)
    end in
  let s2 := strip_0x signed.2 in
  match hex_digits_value s2 None with
  | Some v => Some (signed.1 * v)
  | None => None
  end.

(** Storing a number into a [Uint8Array]: NaN becomes 0, an integer is
    reduced modulo 256. *)
Definition ToUint8 (v : option Z) : byte :=
  match v with
  | None => x00
  | Some z => byte_of_N (Z.to_N (z mod 256))
  end.

(* ===================================================================== *)
(** * resolveTicketTransport.ts: the private hex helpers *)
(* ===================================================================== *)

Module Transport.

Definition bytesToHex (bs : bytes) : string :=
  fold_left (fun out b => out +:+ padStart 2 "0" (byte_toString16 b)) bs EmptyString.

(** [clean.slice(i * 2, i * 2 + 2)] for [i] below [clean.length / 2]. *)
Fixpoint slices (clean : string) : list string :=
  match clean with
  | String a (String b rest) => String a (String b EmptyString) :: slices rest
  | _ => []
  end.

Definition hexToBytes (hex : string) : result bytes :=
  let clean :=
    match hex with
    | String "0" (String "x" rest) => rest
    | _ => hex
    end in
  if negb (String.length clean mod 2 =? 0)%nat then
    Throw (Error "hex string must have an even length")
  else Ok (map (fun byte => ToUint8 (parseInt16 byte)) (slices clean)).

End Transport.

(* ===================================================================== *)
(** * resolveTicketHelpers.ts: sign and verify in one step *)
(* ===================================================================== *)

(** zod's [schema.parse], an external library: validation of a decoded
    value against [ResolveTicketSchema], which returns the typed ticket or
    throws. *)
Class Zod := {
  schema_parse : value -> result ResolveTicket
}.

#[global] Instance ResolveAction_eq_dec : EqDecision ResolveAction.
Proof. unfold EqDecision, Decision. decide equality. Defined.

(** [interface SignedTicket { ticket; bytes; signature }] *)
Record SignedTicket := mkSignedTicket {
  signed_ticket : ResolveTicket;
  signed_bytes : bytes;
  signed_signature : bytes
}.

Definition encodeAndSignTicket `{Noble} (ticket : ResolveTicket) (secretKey : bytes_or_hex)
  : result SignedTicket :=
  bs ← encodeCbor (ticket_object ticket);
  signature ← sign bs secretKey;
  Ok (mkSignedTicket ticket bs signature).

(** [interface DecodeVerifyOptions], every field optional. *)
Record DecodeVerifyOptions := mkDecodeVerifyOptions {
  expectedDealId : option string;
  expectedAction : option ResolveAction;
  nowSeconds : option Z;
  maxSkewSeconds : option Z
}.

Definition no_options : DecodeVerifyOptions := mkDecodeVerifyOptions None None None None.

(** [interface DecodeVerifyResult { ok; ticket?; reason? }] *)
Record DecodeVerifyResult := mkDecodeVerifyResult {
  dv_ok : bool;
  dv_ticket : option ResolveTicket;
  dv_reason : option string
}.

Definition rejected (reason : string) : DecodeVerifyResult :=
  mkDecodeVerifyResult false None (Some reason).

Definition accepted (ticket : ResolveTicket) : DecodeVerifyResult :=
  mkDecodeVerifyResult true (Some ticket) None.

(** [opts.expectedDealId && ticket.deal_id !== opts.expectedDealId]: the
    empty string is falsy, so it is no expectation. *)
Definition mismatched_deal_id (opts : DecodeVerifyOptions) (ticket : ResolveTicket) : bool :=
  match expectedDealId opts with
  | Some expected =>
      negb (String.eqb expected EmptyString) && negb (String.eqb (deal_id ticket) expected)
  | None => false
  end.

Definition mismatched_action (opts : DecodeVerifyOptions) (ticket : ResolveTicket) : bool :=
  match expectedAction opts with
  | Some expected => negb (bool_decide (action ticket = expected))
  | None => false
  end.

(** [verify] is called outside the [try] blocks: what it throws is not
    caught. The failures of [decodeCbor] and of [schema.parse] are. *)
Definition decodeAndVerifyTicket `{Noble} `{Zod} (Date_now : Z) (bs : bytes)
  (signature pubkey : bytes_or_hex) (opts : DecodeVerifyOptions)
  : result DecodeVerifyResult :=
  let now := default (Date_now / 1000) (nowSeconds opts) in
  let maxSkew := default 0 (maxSkewSeconds opts) in
  sigOk ← verify bs signature pubkey;
  if negb sigOk then Ok (rejected "invalid_signature")
  else
    match decodeCbor bs with
    | Throw _ => Ok (rejected "invalid_cbor")
    | Ok raw =>
        match schema_parse raw with
        | Throw _ => Ok (rejected "schema_validation_failed")
        | Ok ticket =>
            if mismatched_deal_id opts ticket then Ok (rejected "mismatched_deal_id")
            else if mismatched_action opts ticket then Ok (rejected "mismatched_action")
            else if expires_at ticket + maxSkew <? now then Ok (rejected "ticket_expired")
            else Ok (accepted ticket)
        end
    end.

(* ===================================================================== *)
(** * resolveTicketTransport.ts: envelopes *)
(* ===================================================================== *)

Record ResolveTicketEnvelope := mkResolveTicketEnvelope {
  env_schema : string;
  ticket_cbor_hex : string;
  signature_hex : string;
  pubkey_hex : string
}.

(** [signed.signature] is a [Uint8Array] by its type, so the [instanceof]
    test takes its first branch. *)
Definition toEnvelope (signed : SignedTicket) (pubkeyHex : string) : ResolveTicketEnvelope :=
  {| env_schema := "escrow.v1.ResolveTicketEnvelope";
     ticket_cbor_hex := Transport.bytesToHex (signed_bytes signed);
     signature_hex := Transport.bytesToHex (signed_signature signed);
     pubkey_hex := pubkeyHex |}.

Definition fromEnvelope `{Noble} `{Zod} (Date_now : Z) (env : ResolveTicketEnvelope)
  (opts : DecodeVerifyOptions) : result DecodeVerifyResult :=
  if negb (String.eqb (env_schema env) "escrow.v1.ResolveTicketEnvelope") then
    Ok (rejected "invalid_envelope_schema")
  else
    bs ← Transport.hexToBytes (ticket_cbor_hex env);
    sigBytes ← Transport.hexToBytes (signature_hex env);
    pubkeyBytes ← Transport.hexToBytes (pubkey_hex env);
    decodeAndVerifyTicket Date_now bs (FromBytes sigBytes) (FromBytes pubkeyBytes) opts.

(* ===================================================================== *)
(** * resolveTicketMultisig.ts *)
(* ===================================================================== *)

Inductive ParticipantRole := BUYER | SELLER | MODERATOR | ORACLE.

#[global] Instance ParticipantRole_eq_dec : EqDecision ParticipantRole.
Proof. unfold EqDecision, Decision. decide equality. Defined.

Record ParticipantSignature := mkParticipantSignature {
  role : ParticipantRole;
  pubkey : bytes_or_hex;
  signature : bytes_or_hex
}.

Record MultiSigTicket := mkMultiSigTicket {
  multi_ticket : ResolveTicket;
  signatures : list ParticipantSignature
}.

Definition createMultiSigTicket (ticket : ResolveTicket) : MultiSigTicket :=
  mkMultiSigTicket ticket [].

(** Two strings are compared as strings, two byte arrays byte by byte, and
    a string is never equal to a byte array. *)
Definition keyEquals (a b : bytes_or_hex) : bool :=
  match a, b with
  | FromHex a, FromHex b => String.eqb a b
  | FromBytes a, FromBytes b =>
      if negb (length a =? length b)%nat then false
      else every_indexed (fun x i => bool_decide (b !! i = Some x)) a 0
  | _, _ => false
  end.

Definition same_participant (sig s : ParticipantSignature) : bool :=
  bool_decide (role s = role sig) && keyEquals (pubkey s) (pubkey sig).

Definition addParticipantSignature `{Noble} (multi : MultiSigTicket)
  (sig : ParticipantSignature) : result MultiSigTicket :=
  bs ← encodeCbor (ticket_object (multi_ticket multi));
  ok ← verify bs (signature sig) (pubkey sig);
  if negb ok then Throw (Error "invalid_signature_for_ticket")
  else
    let nextSignatures :=
      List.filter (fun s => negb (same_participant sig s)) (signatures multi) in
    Ok (mkMultiSigTicket (multi_ticket multi) (nextSignatures ++ [sig])).

Definition isThresholdMet (multi : MultiSigTicket) (requiredRoles : list ParticipantRole)
  : bool :=
  forallb (fun r => existsb (fun s => bool_decide (role s = r)) (signatures multi))
          requiredRoles.

Definition getSignersForRole (multi : MultiSigTicket) (r : ParticipantRole)
  : list bytes_or_hex :=
  map pubkey (List.filter (fun s => bool_decide (role s = r)) (signatures multi)).

(* ===================================================================== *)
(** * JavaScript numbers: comparison *)
(* ===================================================================== *)

(** The real number a [number] stands for: an integer, or the value of
    its binary64 pattern. *)
Definition number_real (x : number) : xreal :=
  match x with
  | Int n => XFin n 0
  | Float bits => float_value bits
  end.

(** [m1 * 2^e1 < m2 * 2^e2], on a common exponent. *)
Definition dyadic_lt (m1 e1 m2 e2 : Z) : bool :=
  let e := Z.min e1 e2 in
  m1 * 2 ^ (e1 - e) <? m2 * 2 ^ (e2 - e).

Definition xreal_lt (a b : xreal) : bool :=
  match a, b with
  | XFin m1 e1, XFin m2 e2 => dyadic_lt m1 e1 m2 e2
  | XNegInf, XFin _ _ => true
  | XNegInf, XPosInf => true
  | XFin _ _, XPosInf => true
  | _, _ => false
  end.

Definition is_NaN (a : xreal) : bool :=
  match a with XNaN => true | _ => false end.

(** [a < b], [a > b] and [a >= b] on numbers; every comparison with NaN
    is false. *)
Definition number_lt (a b : number) : bool := xreal_lt (number_real a) (number_real b).
Definition number_gt (a b : number) : bool := number_lt b a.
Definition number_ge (a b : number) : bool :=
  negb (is_NaN (number_real a)) && negb (is_NaN (number_real b)) && negb (number_lt a b).

(** Rendering of a number in a template string. *)
Class JsNumberFormat := {
  number_toString : number -> string
}.

(* ===================================================================== *)
(** * JavaScript dates *)
(* ===================================================================== *)

(** The text of [new Date(ms).toISOString()] for a time value in range. *)
Class JsDate := {
  iso_string : Z -> string
}.

(** What a call does that may throw a [RangeError] or a [ReferenceError]
    instead of returning. *)
Inductive outcome (A : Type) :=
| Returned (a : A)
| ThrowsRangeError
| ThrowsReferenceError (name : string).
Arguments Returned {A} a.
Arguments ThrowsRangeError {A}.
Arguments ThrowsReferenceError {A} name.

#[global] Instance outcome_ret : MRet outcome := fun A a => Returned a.
#[global] Instance outcome_bind : MBind outcome := fun A B f m =>
  match m with
  | Returned a => f a
  | ThrowsRangeError => ThrowsRangeError
  | ThrowsReferenceError name => ThrowsReferenceError name
  end.

(** A time value beyond 8.64e15 ms is an invalid date, on which
    [toISOString] throws a [RangeError]. *)
Definition Date_toISOString `{JsDate} (ms : Z) : outcome string :=
  if Z.abs ms <=? 8640000000000000 then Returned (iso_string ms)
  else ThrowsRangeError.

(* ===================================================================== *)
(** * helpers.ts *)
(* ===================================================================== *)

(** [{ valid: boolean; error?: string }] *)
Record ValidityCheck := mkValidityCheck {
  valid : bool;
  error : option string
}.

Definition validateNonceSequence (ticket : ResolveTicket) (lastNonce : Z) : ValidityCheck :=
  if nonce ticket <=? lastNonce then
    mkValidityCheck false
      (Some ("Invalid nonce: " +:+ pretty (nonce ticket)
             +:+ " must be greater than last nonce " +:+ pretty lastNonce))
  else
    let MAX_NONCE_GAP := 100 in
    let gap := nonce ticket - lastNonce in
    if gap >? MAX_NONCE_GAP then
      mkValidityCheck false
        (Some ("Nonce gap too large: " +:+ pretty gap
               +:+ " exceeds maximum allowed gap of " +:+ pretty MAX_NONCE_GAP))
    else mkValidityCheck true None.

(** [{ sellerAmount; buyerAmount }], on integer amounts whose product with
    the basis points is a safe integer. *)
Definition calculateSplitAmounts (totalAmount splitBps : Z) : result (Z * Z) :=
  if (splitBps <? 0) || (splitBps >? 10000) then
    Throw (Error ("Invalid split_bps: " +:+ pretty splitBps
                  +:+ ". Must be between 0 and 10000"))
  else
    let sellerAmount := (totalAmount * splitBps) / 10000 in
    let buyerAmount := totalAmount - sellerAmount in
    Ok (sellerAmount, buyerAmount).

(** [{ valid: boolean; reason?: string }] *)
Record TimingCheck := mkTimingCheck {
  timing_valid : bool;
  reason : option string
}.

Definition isTicketTimingValid `{JsDate} (Date_now : Z) (ticket : ResolveTicket)
  (currentTime : option Z) : outcome TimingCheck :=
  let now := default (Date_now / 1000) currentTime in
  if expires_at ticket <=? now then
    iso ← Date_toISOString (expires_at ticket * 1000);
    Returned (mkTimingCheck false (Some ("Ticket expired at " +:+ iso)))
  else
    let MAX_LIFETIME_SECONDS := 24 * 60 * 60 in
    let lifetime := expires_at ticket - now in
    if lifetime >? MAX_LIFETIME_SECONDS then
      Returned (mkTimingCheck false
        (Some ("Ticket lifetime " +:+ pretty lifetime +:+ "s exceeds maximum of "
               +:+ pretty MAX_LIFETIME_SECONDS +:+ "s (24 hours)")))
    else
      let MIN_LIFETIME_SECONDS := 60 in
      if lifetime <? MIN_LIFETIME_SECONDS then
        Returned (mkTimingCheck false
          (Some ("Ticket lifetime " +:+ pretty lifetime +:+ "s is less than minimum of "
                 +:+ pretty MIN_LIFETIME_SECONDS +:+ "s")))
      else Returned (mkTimingCheck true None).

Definition getTimeUntilExpiry (Date_now : Z) (ticket : ResolveTicket)
  (currentTime : option Z) : Z :=
  let now := default (Date_now / 1000) currentTime in
  expires_at ticket - now.

Definition meetsConfidenceThreshold `{JsNumberFormat} (ticket : ResolveTicket)
  (threshold : number) : result bool :=
  if number_lt threshold (Int 0) || number_gt threshold (Int 1) then
    Throw (Error ("Invalid threshold: " +:+ number_toString threshold
                  +:+ ". Must be between 0 and 1"))
  else Ok (number_ge (confidence ticket) threshold).

(* ===================================================================== *)
(** * constants.ts *)
(* ===================================================================== *)

Definition MAX_TICKET_LIFETIME_SECONDS : Z := 24 * 60 * 60.
Definition MIN_TICKET_LIFETIME_SECONDS : Z := 60.
Definition MAX_SPLIT_BPS : Z := 10000.
Definition MIN_SPLIT_BPS : Z := 1.
Definition MAX_SPLIT_BPS_FOR_SPLIT : Z := 9999.
(** 0.7 *)
Definition RECOMMENDED_MIN_CONFIDENCE : number := Float 0x3FE6666666666666.
Definition MIN_CID_LENGTH : nat := 46.
Definition MAX_CID_LENGTH : nat := 100.
Definition CID_V0_PREFIX : string := "Qm".
Definition CID_V1_PREFIX : string := "b".
Definition MIN_DEAL_ID_LENGTH : nat := 1.
Definition MAX_DEAL_ID_LENGTH : nat := 128.

Module ERROR_MESSAGES.
Definition TICKET_EXPIRED : string := "Ticket has expired and cannot be processed".
Definition INVALID_SPLIT_BPS : string :=
  "Split basis points must be between 1 and 9999 for SPLIT action".
Definition SPLIT_BPS_MUST_BE_ZERO : string :=
  "Split basis points must be 0 for RELEASE or REFUND actions".
Definition INVALID_CID_FORMAT : string := "Invalid CID format".
Definition INVALID_DEAL_ID : string := "Deal ID must be a non-empty string".
End ERROR_MESSAGES.

(* ===================================================================== *)
(** * schema.ts: the refinement of the schema *)
(* ===================================================================== *)

(** An issue added by [ctx.addIssue]: its path and its message. *)
Definition Issue : Type := list string * string.

(** The [superRefine] callback of [ResolveTicketSchema]. *)
Definition superRefine (val : ResolveTicket) : list Issue :=
  match action val with
  | SPLIT =>
      if (split_bps val <=? 0) || (split_bps val >=? 10000) then
        [(["split_bps"], "For SPLIT, split_bps must be between 1 and 9999")]
      else []
  | _ =>
      if negb (split_bps val =? 0) then
        [(["split_bps"], "For RELEASE or REFUND, split_bps must be 0")]
      else []
  end.

(* ===================================================================== *)
(** * validation.ts *)
(* ===================================================================== *)

(** [interface ValidationResult { valid; errors; warnings }] *)
Record ValidationResult := mkValidationResult {
  vr_valid : bool;
  errors : list string;
  warnings : list string
}.

(** [validation.ts] reads [MIN_SPLIT_BPS] but does not import it: its
    import list names [MIN_SPLIT_BPS_FOR_SPLIT] instead, which [constants.ts]
    does not export and which is read nowhere. The identifier is unbound
    where it is read, and reading it throws a [ReferenceError]. *)
Definition validation_MIN_SPLIT_BPS : outcome Z := ThrowsReferenceError "MIN_SPLIT_BPS".

Definition validateSplitConsistency (ticket : ResolveTicket) : outcome ValidityCheck :=
  match action ticket with
  | SPLIT =>
      MIN_SPLIT_BPS ← validation_MIN_SPLIT_BPS;
      if (split_bps ticket <? MIN_SPLIT_BPS) || (split_bps ticket >? MAX_SPLIT_BPS_FOR_SPLIT)
      then Returned (mkValidityCheck false (Some ERROR_MESSAGES.INVALID_SPLIT_BPS))
      else Returned (mkValidityCheck true None)
  | _ =>
      if negb (split_bps ticket =? 0)
      then Returned (mkValidityCheck false (Some ERROR_MESSAGES.SPLIT_BPS_MUST_BE_ZERO))
      else Returned (mkValidityCheck true None)
  end.

Definition in_range (lo hi : N) (c : ascii) : bool :=
  ((lo <=? N_of_ascii c) && (N_of_ascii c <=? hi))%N.

(** [[1-9A-HJ-NP-Za-km-z]] *)
Definition is_base58 (c : ascii) : bool :=
  in_range 49 57 c || in_range 65 72 c || in_range 74 78 c || in_range 80 90 c
  || in_range 97 107 c || in_range 109 122 c.

(** [[a-z2-7]] *)
Definition is_base32 (c : ascii) : bool :=
  in_range 97 122 c || in_range 50 55 c.

(** [[\x20-\x7E]] *)
Definition is_printable (c : ascii) : bool := in_range 32 126 c.

(** [s.length] of a text field of a ticket. Such a field is held as its
    UTF-8 bytes, and [length] counts UTF-16 code units: one for every
    character, two for a character beyond the basic plane. So every byte
    counts for one, except a continuation byte ([80] to [bf]), which counts
    for none, and the first byte of a sequence of four ([f0] and above),
    which counts for two. *)
Fixpoint js_length (s : string) : nat :=
  match s with
  | EmptyString => 0
  | String c s' =>
      let n := N_of_ascii c in
      ((if (128 <=? n)%N && (n <? 192)%N then 0
        else if (240 <=? n)%N then 2
        else 1) + js_length s')%nat
  end.

(** [!cid] holds of the empty string only. The characters of the two
    patterns are ASCII: a text that matches has one byte per character. *)
Definition validateCIDFormat (cid : string) : bool :=
  if (String.length cid =? 0)%nat then false
  else if (js_length cid <? MIN_CID_LENGTH)%nat
          || (MAX_CID_LENGTH <? js_length cid)%nat then false
  else if String.prefix CID_V0_PREFIX cid then
    (* /^[1-9A-HJ-NP-Za-km-z]{46}$/ *)
    (js_length cid =? 46)%nat
    && ((String.length cid =? 46)%nat && string_forallb is_base58 cid)
  else if String.prefix CID_V1_PREFIX cid then
    (* /^b[a-z2-7]+$/ *)
    match cid with
    | String c rest =>
        Ascii.eqb c "b" && negb (String.length rest =? 0)%nat
        && string_forallb is_base32 rest
    | EmptyString => false
    end
  else false.

(** [!dealId] holds of the empty string only; no byte of a character that
    is not printable ASCII lies between [20] and [7e]. *)
Definition validateDealId (dealId : string) : ValidityCheck :=
  if (String.length dealId =? 0)%nat then
    mkValidityCheck false (Some ERROR_MESSAGES.INVALID_DEAL_ID)
  else if (js_length dealId <? MIN_DEAL_ID_LENGTH)%nat then
    mkValidityCheck false
      (Some ("Deal ID too short: minimum length is " +:+ pretty MIN_DEAL_ID_LENGTH))
  else if (MAX_DEAL_ID_LENGTH <? js_length dealId)%nat then
    mkValidityCheck false
      (Some ("Deal ID too long: maximum length is " +:+ pretty MAX_DEAL_ID_LENGTH))
  else if negb (negb (String.length dealId =? 0)%nat && string_forallb is_printable dealId)
  then mkValidityCheck false (Some "Deal ID contains invalid characters")
  else mkValidityCheck true None.

(** [options: { currentTime?: number; minConfidence?: number }] *)
Record IntegrityOptions := mkIntegrityOptions {
  currentTime : option Z;
  minConfidence : option number
}.

(** The sequence of [errors.push] and [warnings.push]. *)
Definition validateTicketIntegrity `{JsNumberFormat} (Date_now : Z) (ticket : ResolveTicket)
  (options : IntegrityOptions) : outcome ValidationResult :=
  let currentTime := default (Date_now / 1000) (currentTime options) in
  let minConfidence := default RECOMMENDED_MIN_CONFIDENCE (minConfidence options) in
  splitResult ← validateSplitConsistency ticket;
  let errors :=
    (if negb (valid splitResult) then [default EmptyString (error splitResult)] else [])
    ++ (if expires_at ticket <=? currentTime then [ERROR_MESSAGES.TICKET_EXPIRED] else [])
    ++ (if negb (validateCIDFormat (rationale_cid ticket))
        then [ERROR_MESSAGES.INVALID_CID_FORMAT +:+ ": " +:+ rationale_cid ticket] else [])
    ++ (if (js_length (deal_id ticket) <? MIN_DEAL_ID_LENGTH)%nat
           || (MAX_DEAL_ID_LENGTH <? js_length (deal_id ticket))%nat
        then ["Deal ID length must be between " +:+ pretty MIN_DEAL_ID_LENGTH
              +:+ " and " +:+ pretty MAX_DEAL_ID_LENGTH] else []) in
  let confidenceWarnings :=
    if number_lt (confidence ticket) minConfidence
    then ["Confidence " +:+ number_toString (confidence ticket)
          +:+ " is below recommended minimum of " +:+ number_toString minConfidence
          +:+ ". Consider human review."] else [] in
  splitWarnings ←
    match action ticket with
    | SPLIT =>
        MIN_SPLIT_BPS ← validation_MIN_SPLIT_BPS;
        Returned
          ((if split_bps ticket =? MIN_SPLIT_BPS
            then ["Split is 0.01% to seller - almost a full refund. Verify intent."]
            else [])
           ++ (if split_bps ticket =? MAX_SPLIT_BPS_FOR_SPLIT
               then ["Split is 99.99% to seller - almost a full release. Verify intent."]
               else []))
    | _ => Returned []
    end;
  let warnings := confidenceWarnings ++ splitWarnings in
  Returned (mkValidationResult (length errors =? 0)%nat errors warnings).

(** 0.8, the default of [isSafeForAutomaticExecution]. *)
Definition SAFE_EXECUTION_MIN_CONFIDENCE : number := Float 0x3FE999999999999A.

Definition isSafeForAutomaticExecution `{JsNumberFormat} (Date_now : Z)
  (ticket : ResolveTicket) (options : IntegrityOptions) : outcome bool :=
  let minConfidence := default SAFE_EXECUTION_MIN_CONFIDENCE (minConfidence options) in
  result ← validateTicketIntegrity Date_now ticket options;
  if negb (vr_valid result) then Returned false
  else if number_lt (confidence ticket) minConfidence then Returned false
  else
    match action ticket with
    | SPLIT =>
        if (split_bps ticket <? 100) || (split_bps ticket >? 9900)
        then Returned false else Returned true
    | _ => Returned true
    end.

(** [options: { minConfidence?: number }] *)
Definition requiresHumanReview `{JsNumberFormat} (Date_now : Z) (ticket : ResolveTicket)
  (minConfidenceOption : option number) : outcome bool :=
  let minConfidence := default RECOMMENDED_MIN_CONFIDENCE minConfidenceOption in
  if number_lt (confidence ticket) minConfidence then Returned true
  else if (match action ticket with
           | SPLIT => (split_bps ticket <? 100) || (split_bps ticket >? 9900)
           | _ => false
           end) then Returned true
  else
    result ←
      validateTicketIntegrity Date_now ticket (mkIntegrityOptions None (Some minConfidence));
    if (0 <? length (warnings result))%nat then Returned true else Returned false.

(* ===================================================================== *)
(** * Concrete inputs *)
(* ===================================================================== *)

(** Toy instances of the external primitives, on which the definitions can
    be evaluated: the digest is the message itself, a public key is its
    seed, and a signature is the first 64 bytes of seed, message and
    padding. *)
Definition toy_signature (message seed : bytes) : bytes :=
  firstn 64 (seed ++ message ++ repeat x00 64).

Definition toy_noble : Noble := {|
  ed25519_sign := toy_signature;
  ed25519_verify := fun sig message pk => bool_decide (sig = toy_signature message pk);
  ed25519_getPublicKey := fun seed => seed
|}.

Definition toy_crypto : NodeCrypto := {| sha256 := fun b => b |}.

(** The ticket of the worked example; 0.9 is 0x3FECCCCCCCCCCCCD. *)
Definition example_ticket : ResolveTicket := {|
  deal_id := "D-1";
  action := RELEASE;
  split_bps := 0;
  rationale_cid := "bafy...";
  confidence := Float 0x3FECCCCCCCCCCCCD;
  nonce := 1;
  expires_at := 2000000000
|}.

(** A second ticket for the same deal, with the next nonce. *)
Definition example_ticket_2 : ResolveTicket := {|
  deal_id := "D-1";
  action := RELEASE;
  split_bps := 0;
  rationale_cid := "bafy...";
  confidence := Float 0x3FECCCCCCCCCCCCD;
  nonce := 2;
  expires_at := 2000000000
|}.

Definition example_calls : list (Z * ResolveTicket) :=
  [ (1000, example_ticket); (2000, example_ticket); (3000, example_ticket_2) ].

Definition seed_00_1f : bytes :=
  map (fun i => byte_of_N (N.of_nat i)) (seq 0 32).

(** Three signers and the canonical bytes of the example ticket. *)
Definition signer_1 : bytes := seed_00_1f.
Definition signer_2 : bytes := repeat x01 32.
Definition signer_3 : bytes := repeat x02 32.
Definition outsider : bytes := repeat xff 32.

Definition example_bytes : bytes := Cborg.encode (ticket_object example_ticket).

Definition example_signatures : list (bytes * bytes) :=
  [ (signer_1, toy_signature example_bytes signer_1);
    (outsider, toy_signature example_bytes outsider);
    (signer_1, toy_signature example_bytes signer_1);
    (signer_2, toy_signature example_bytes signer_2) ].

(** A nested value whose keys are not in canonical order, with a negative
    zero. *)
Definition example_value : value :=
  VObject [ ("z", VInt 2);
            ("list", VArray [VNull; VBool true; VInt (-25); VFloat 0x3FECCCCCCCCCCCCD;
                             VFloat 0x8000000000000000;
                             VString "bafy..."; VObject [("b", VInt 300); ("a", VInt 1)]]);
            ("a", VInt 1) ].

(** The example ticket built with its properties in the reverse order. *)
Definition example_ticket_reversed : value :=
  VObject (rev (ticket_entries example_ticket)).

(* ===================================================================== *)
(** * Auxiliary definitions *)
(* ===================================================================== *)

(** A rendering with two digits per byte, for a given alphabet of digits. *)
Fixpoint render_hex (digit : N -> ascii) (bs : bytes) : string :=
  match bs with
  | [] => EmptyString
  | b :: bs' =>
      String (digit (Byte.to_N b / 16)%N) (String (digit (Byte.to_N b mod 16)%N) (render_hex digit bs'))
  end.


(** The decisions of [decodeAndVerifyTicket] once the signature is valid. *)
Definition semantic_checks (now : Z) (opts : DecodeVerifyOptions) (ticket : ResolveTicket)
  : DecodeVerifyResult :=
  if mismatched_deal_id opts ticket then rejected "mismatched_deal_id"
  else if mismatched_action opts ticket then rejected "mismatched_action"
  else if expires_at ticket + default 0 (maxSkewSeconds opts) <? now
       then rejected "ticket_expired"
  else accepted ticket.

(** Every collected signature verifies over the canonical bytes of the
    wrapped ticket. *)
Definition all_verified `{Noble} (multi : MultiSigTicket) : Prop :=
  Forall (fun s => verify (Cborg.encode (ticket_object (multi_ticket multi)))
                          (signature s) (pubkey s) = Ok true)
         (signatures multi).

(** No two collected signatures are for the same role and key. *)
Definition distinct_participants (l : list ParticipantSignature) : Prop :=
  ForallOrdPairs (fun s1 s2 => same_participant s1 s2 = false) l.

(* ===================================================================== *)
(** * Concrete inputs for the helpers *)
(* ===================================================================== *)

(** A toy schema validation: the seven fields are read by name from an
    object, whatever the order of its keys. *)
Definition toy_field (k : string) (entries : list (string * value)) : option value :=
  snd <$> List.find (fun e => String.eqb (fst e) k) entries.

Definition toy_action (v : option value) : option ResolveAction :=
  match v with
  | Some (VString "RELEASE") => Some RELEASE
  | Some (VString "REFUND") => Some REFUND
  | Some (VString "SPLIT") => Some SPLIT
  | _ => None
  end.

Definition toy_number (v : option value) : option number :=
  match v with
  | Some (VInt n) => Some (Int n)
  | Some (VFloat bits) => Some (Float bits)
  | _ => None
  end.

Definition toy_parse (v : value) : result ResolveTicket :=
  match v with
  | VObject entries =>
      match toy_field "deal_id" entries, toy_action (toy_field "action" entries),
            toy_field "split_bps" entries, toy_field "rationale_cid" entries,
            toy_number (toy_field "confidence" entries),
            toy_field "nonce" entries, toy_field "expires_at" entries with
      | Some (VString d), Some a, Some (VInt s), Some (VString c), Some conf,
        Some (VInt n), Some (VInt e) => Ok (mkResolveTicket d a s c conf n e)
      | _, _, _, _, _, _, _ => Throw (Error "ZodError")
      end
  | _ => Throw (Error "ZodError")
  end.

Definition toy_zod : Zod := {| schema_parse := toy_parse |}.

(** A rendering of numbers that only tells integers from floats, and of
    dates that only gives the time value. *)
Definition toy_number_format : JsNumberFormat :=
  {| number_toString := fun x => match x with Int n => pretty n | Float _ => "float" end |}.

Definition toy_date : JsDate := {| iso_string := fun ms => pretty ms |}.

(** The example ticket signed by the first signer. *)
Definition example_signed : SignedTicket :=
  mkSignedTicket example_ticket example_bytes (toy_signature example_bytes signer_1).

(** The first two signers sign the example ticket as buyer and seller. *)
Definition buyer_signature : ParticipantSignature :=
  mkParticipantSignature BUYER (FromBytes signer_1)
    (FromBytes (toy_signature example_bytes signer_1)).

Definition seller_signature : ParticipantSignature :=
  mkParticipantSignature SELLER (FromBytes signer_2)
    (FromBytes (toy_signature example_bytes signer_2)).

(** The buyer again, the key written in hex. *)
Definition buyer_signature_hex : ParticipantSignature :=
  mkParticipantSignature BUYER (FromHex (toHex signer_1 None))
    (FromBytes (toy_signature example_bytes signer_1)).

Definition example_multi : MultiSigTicket :=
  mkMultiSigTicket example_ticket [buyer_signature; seller_signature].

(** A ticket that passes the integrity checks: a CIDv1 of 59 characters. *)
Definition example_cid : string :=
  "bafybeigdyrzt5sfp7udm7hu76uh7y26nf3efuylqabf3oclgtqy55fbzdi".

Definition example_release : ResolveTicket := {|
  deal_id := "D-1";
  action := RELEASE;
  split_bps := 0;
  rationale_cid := example_cid;
  confidence := Float 0x3FECCCCCCCCCCCCD;
  nonce := 1;
  expires_at := 2000000000
|}.

(** A split of 50% on the same deal. *)
Definition example_split : ResolveTicket := {|
  deal_id := "D-1";
  action := SPLIT;
  split_bps := 5000;
  rationale_cid := example_cid;
  confidence := Float 0x3FECCCCCCCCCCCCD;
  nonce := 1;
  expires_at := 2000000000
|}.
(* ===================================================================== *)
(** * The two expiry predicates *)
(* ===================================================================== *)

(** C10. The library exports two expiry predicates that disagree exactly at
    the boundary: with [now] the current time (passed in, or read from the
    clock when omitted), [Helpers.isTicketExpired] holds iff
    [now > expires_at] and [ResolveTicketHelpers.isTicketExpired] holds iff
    [expires_at <= now]; they differ iff [expires_at = now], where the
    former says "not expired" and the latter "expired". *)
Theorem isTicketExpired_disagree_at_boundary :
  forall (Date_now : Z) (t : ResolveTicket) (currentTime : option Z),
    let now := default (Date_now / 1000) currentTime in
    (Helpers.isTicketExpired Date_now t currentTime = true <-> now > expires_at t) /\
    (ResolveTicketHelpers.isTicketExpired Date_now t currentTime = true
       <-> expires_at t <= now) /\
    (Helpers.isTicketExpired Date_now t currentTime
       <> ResolveTicketHelpers.isTicketExpired Date_now t currentTime
       <-> expires_at t = now) /\
    (expires_at t = now <->
       Helpers.isTicketExpired Date_now t currentTime = false /\
       ResolveTicketHelpers.isTicketExpired Date_now t currentTime = true).
Proof.
  intros Date_now t currentTime now.
  unfold Helpers.isTicketExpired, ResolveTicketHelpers.isTicketExpired.
  assert (Hnow : match currentTime with Some t0 => t0 | None => Date_now / 1000 end = now)
    by (subst now; destruct currentTime; reflexivity).
  rewrite Hnow. clear Hnow.
  rewrite Z.gtb_ltb.
  destruct (Z.ltb_spec (expires_at t) now), (Z.leb_spec (expires_at t) now);
    repeat split; intros; try lia; try congruence; try tauto.
Qed.

(* ===================================================================== *)
(** * Ticket identity of a well-typed ticket *)
(* ===================================================================== *)

Lemma bind_Ok {A B} (f : A -> result B) (a : A) : (Ok a ≫= f) = f a.
Proof. reflexivity. Qed.

Lemma assertNoUndefined_ticket (t : ResolveTicket) (path : list string) :
  assertNoUndefined (ticket_object t) path = Ok tt.
Proof. destruct t as [? ? ? ? c ? ?]; destruct c; reflexivity. Qed.

Lemma encodeCbor_ticket (t : ResolveTicket) :
  encodeCbor (ticket_object t) = Ok (Cborg.encode (ticket_object t)).
Proof. unfold encodeCbor. now rewrite assertNoUndefined_ticket. Qed.

Lemma getTicketId_ticket `{NodeCrypto} (t : ResolveTicket) :
  getTicketId (ticket_object t) = Ok (ticket_id t).
Proof. unfold getTicketId. now rewrite encodeCbor_ticket. Qed.

(* ===================================================================== *)
(** * Replay guard: one call *)
(* ===================================================================== *)

Lemma accept_expired `{NodeCrypto} (g : ReplayGuard) (Date_now : Z) (t : ResolveTicket) :
  expires_at t < Date_now / 1000 -> accept g Date_now t = Ok (false, g).
Proof.
  intros Hexp. unfold accept.
  destruct (Z.ltb_spec (expires_at t) (Date_now / 1000)); [reflexivity | lia].
Qed.

Lemma accept_replay `{NodeCrypto} (g : ReplayGuard) (Date_now : Z) (t : ResolveTicket) :
  is_Some (seen g !! ticket_id t) -> accept g Date_now t = Ok (false, g).
Proof.
  intros Hseen. unfold accept.
  destruct (expires_at t <? Date_now / 1000); [reflexivity |].
  rewrite getTicketId_ticket, bind_Ok.
  destruct (decide (is_Some (seen g !! ticket_id t))); [reflexivity | contradiction].
Qed.

Lemma accept_fresh `{NodeCrypto} (g : ReplayGuard) (Date_now : Z) (t : ResolveTicket) :
  Date_now / 1000 <= expires_at t ->
  seen g !! ticket_id t = None ->
  accept g Date_now t =
    Ok (true, prune (mkReplayGuard (<[ticket_id t := expires_at t]> (seen g)))
                    (Date_now / 1000)).
Proof.
  intros Hlive Hfresh. unfold accept.
  destruct (Z.ltb_spec (expires_at t) (Date_now / 1000)); [lia |].
  rewrite getTicketId_ticket, bind_Ok.
  destruct (decide (is_Some (seen g !! ticket_id t))) as [[x Hx] | _]; [congruence |].
  reflexivity.
Qed.

Lemma prune_lookup (g : ReplayGuard) (now : Z) (id : string) (expiry : Z) :
  seen (prune g now) !! id = Some expiry ->
  seen g !! id = Some expiry.
Proof.
  unfold prune. destruct (1000 <? size (seen g))%nat; [| tauto].
  simpl. intros Hl. apply map_lookup_filter_Some in Hl. tauto.
Qed.

Lemma prune_keeps_live (g : ReplayGuard) (now : Z) (id : string) (expiry : Z) :
  seen g !! id = Some expiry -> now <= expiry ->
  seen (prune g now) !! id = Some expiry.
Proof.
  intros Hl Hlive. unfold prune. destruct (1000 <? size (seen g))%nat; [| assumption].
  simpl. apply map_lookup_filter_Some. split; [assumption | simpl; lia].
Qed.

Lemma prune_drops_only_expired (g : ReplayGuard) (now : Z) (id : string) (expiry : Z) :
  seen g !! id = Some expiry -> seen (prune g now) !! id = None -> expiry < now.
Proof.
  intros Hl Hnone.
  destruct (Z.lt_ge_cases expiry now) as [Hlt | Hge]; [assumption |].
  rewrite (prune_keeps_live g now id expiry Hl Hge) in Hnone. discriminate.
Qed.

(** C4. With [now = floor(Date.now() / 1000)]: a ticket with
    [expires_at < now] is rejected and the state is unchanged; a ticket whose
    identity is already recorded is rejected and the state, hence the
    recorded expiry, is unchanged; a fresh ticket that has not expired is
    accepted and [id -> expires_at] is recorded. *)
Theorem accept_decision `{NodeCrypto} :
  forall (g : ReplayGuard) (Date_now : Z) (t : ResolveTicket),
    let now := Date_now / 1000 in
    (expires_at t < now ->
       accept g Date_now t = Ok (false, g)) /\
    (forall expiry, seen g !! ticket_id t = Some expiry ->
       exists g', accept g Date_now t = Ok (false, g') /\ g' = g /\
                  seen g' !! ticket_id t = Some expiry) /\
    (now <= expires_at t -> seen g !! ticket_id t = None ->
       exists g', accept g Date_now t = Ok (true, g') /\
                  seen g' !! ticket_id t = Some (expires_at t)).
Proof.
  intros g Date_now t now. split; [| split].
  - apply accept_expired.
  - intros expiry Hseen. exists g. split; [| split; [reflexivity | assumption]].
    apply accept_replay. rewrite Hseen. eauto.
  - intros Hlive Hfresh. eexists. split.
    + apply accept_fresh; assumption.
    + apply prune_keeps_live; [| assumption].
      simpl. apply lookup_insert_eq.
Qed.

Lemma accept_decision_witness :
  let H := toy_crypto in
  let t := example_ticket in
  let g1 := mkReplayGuard {[ticket_id t := expires_at t]} in
  accept new_ReplayGuard 3000000000000 t = Ok (false, new_ReplayGuard) /\
  (exists g', accept g1 1000 t = Ok (false, g') /\ g' = g1 /\
              seen g' !! ticket_id t = Some (expires_at t)) /\
  exists g', accept new_ReplayGuard 1000 t = Ok (true, g') /\
             seen g' !! ticket_id t = Some (expires_at t).
Proof.
  intros H t g1. split; [| split].
  - apply (accept_decision new_ReplayGuard 3000000000000 t). vm_compute. reflexivity.
  - apply (proj1 (proj2 (accept_decision g1 1000 t)) (expires_at t)).
    apply lookup_singleton_eq.
  - apply (accept_decision new_ReplayGuard 1000 t).
    + vm_compute. discriminate.
    + apply lookup_empty.
Defined.

(* ===================================================================== *)
(** * Replay guard: the clock *)
(* ===================================================================== *)

(** C5 (as stated, refuted). [accept] takes the ticket only and reads the
    clock itself: on the same guard and the same ticket, two clock readings
    give two different results, so the result is not a function of the
    guard state and the arguments passed. *)
Lemma accept_reads_wall_clock :
  ~ (forall (H : NodeCrypto) (g : ReplayGuard) (t : ResolveTicket) (clock1 clock2 : Z),
       accept g clock1 t = accept g clock2 t).
Proof.
  intros Hfun.
  specialize (Hfun toy_crypto new_ReplayGuard example_ticket 1000 3000000000000).
  rewrite (accept_expired (H:=toy_crypto) new_ReplayGuard 3000000000000 example_ticket)
    in Hfun by (vm_compute; reflexivity).
  rewrite (accept_fresh (H:=toy_crypto) new_ReplayGuard 1000 example_ticket) in Hfun;
    [discriminate | vm_compute; discriminate | apply lookup_empty].
Qed.

(** C5 (amended). [accept(ticket)] computes
    [now = floor(Date.now() / 1000)] from the wall clock; its result is a
    function of the guard state, the ticket and that reading in whole
    seconds. *)
Theorem accept_deterministic_in_observed_time `{NodeCrypto} :
  forall (g : ReplayGuard) (t : ResolveTicket) (clock1 clock2 : Z),
    clock1 / 1000 = clock2 / 1000 ->
    accept g clock1 t = accept g clock2 t.
Proof.
  intros g t clock1 clock2 Hnow. unfold accept. rewrite Hnow. reflexivity.
Qed.

Lemma accept_deterministic_in_observed_time_witness :
  1000 / 1000 = 1999 / 1000 /\
  accept (H:=toy_crypto) new_ReplayGuard 1000 example_ticket =
  accept (H:=toy_crypto) new_ReplayGuard 1999 example_ticket.
Proof.
  split; [reflexivity |].
  apply (accept_deterministic_in_observed_time (H:=toy_crypto)
           new_ReplayGuard example_ticket 1000 1999).
  reflexivity.
Defined.

(* ===================================================================== *)
(** * Replay guard: sequences of calls *)
(* ===================================================================== *)

Section ReplaySequences.
Context `{NodeCrypto}.

Lemma accept_unpruned_expired (g : ReplayGuard) (Date_now : Z) (t : ResolveTicket) :
  expires_at t < Date_now / 1000 -> accept_unpruned g Date_now t = Ok (false, g).
Proof.
  intros Hexp. unfold accept_unpruned.
  destruct (Z.ltb_spec (expires_at t) (Date_now / 1000)); [reflexivity | lia].
Qed.

Lemma accept_unpruned_replay (g : ReplayGuard) (Date_now : Z) (t : ResolveTicket) :
  is_Some (seen g !! ticket_id t) -> accept_unpruned g Date_now t = Ok (false, g).
Proof.
  intros Hseen. unfold accept_unpruned.
  destruct (expires_at t <? Date_now / 1000); [reflexivity |].
  rewrite getTicketId_ticket, bind_Ok.
  destruct (decide (is_Some (seen g !! ticket_id t))); [reflexivity | contradiction].
Qed.

Lemma accept_unpruned_fresh (g : ReplayGuard) (Date_now : Z) (t : ResolveTicket) :
  Date_now / 1000 <= expires_at t ->
  seen g !! ticket_id t = None ->
  accept_unpruned g Date_now t =
    Ok (true, mkReplayGuard (<[ticket_id t := expires_at t]> (seen g))).
Proof.
  intros Hlive Hfresh. unfold accept_unpruned.
  destruct (Z.ltb_spec (expires_at t) (Date_now / 1000)); [lia |].
  rewrite getTicketId_ticket, bind_Ok.
  destruct (decide (is_Some (seen g !! ticket_id t))) as [[x Hx] | _]; [congruence |].
  reflexivity.
Qed.

(** The three cases of one call. *)
Inductive call_case (g : ReplayGuard) (Date_now : Z) (t : ResolveTicket) : Prop :=
| case_expired : expires_at t < Date_now / 1000 -> call_case g Date_now t
| case_replay : Date_now / 1000 <= expires_at t ->
    is_Some (seen g !! ticket_id t) -> call_case g Date_now t
| case_fresh : Date_now / 1000 <= expires_at t ->
    seen g !! ticket_id t = None -> call_case g Date_now t.

Lemma call_cases (g : ReplayGuard) (Date_now : Z) (t : ResolveTicket) :
  call_case g Date_now t.
Proof.
  destruct (Z.lt_ge_cases (expires_at t) (Date_now / 1000)) as [Hlt | Hge].
  - now apply case_expired.
  - destruct (seen g !! ticket_id t) eqn:Hl.
    + apply case_replay; [assumption | rewrite Hl; eauto].
    + now apply case_fresh.
Qed.

Lemma run_with_cons step (g : ReplayGuard) (clock : Z) (t : ResolveTicket)
  (calls : list (Z * ResolveTicket)) (d : bool) (g1 : ReplayGuard)
  (ds : list bool) (g2 : ReplayGuard) :
  step g clock t = Ok (d, g1) ->
  run_with step g1 calls = Ok (ds, g2) ->
  run_with step g ((clock, t) :: calls) = Ok (d :: ds, g2).
Proof. intros Hs Hr. simpl. rewrite Hs, bind_Ok. simpl. now rewrite Hr. Qed.

(** ** At most once on the unpruned table *)

Lemma accepted_ids_cons_true (c : Z) (t : ResolveTicket) calls ds :
  accepted_ids ((c, t) :: calls) (true :: ds) = ticket_id t :: accepted_ids calls ds.
Proof.
  unfold accepted_ids. cbn [zip zip_with].
  rewrite filter_cons_True by reflexivity. reflexivity.
Qed.

Lemma accepted_ids_cons_false (c : Z) (t : ResolveTicket) calls ds :
  accepted_ids ((c, t) :: calls) (false :: ds) = accepted_ids calls ds.
Proof.
  unfold accepted_ids. cbn [zip zip_with].
  rewrite filter_cons_False by (simpl; discriminate). reflexivity.
Qed.

Lemma run_unpruned_at_most_once (calls : list (Z * ResolveTicket)) :
  forall u : ReplayGuard,
  exists ds u',
    run_unpruned u calls = Ok (ds, u') /\
    length ds = length calls /\
    NoDup (accepted_ids calls ds) /\
    (forall id, id ∈ accepted_ids calls ds -> seen u !! id = None).
Proof.
  induction calls as [| [c t] calls IH]; intros u.
  - exists [], u. repeat split; [constructor | intros id Hin; inversion Hin].
  - destruct (call_cases u c t) as [Hexp | Hlive Hseen | Hlive Hfresh].
    + destruct (IH u) as (ds & u' & Hrun & Hlen & Hnd & Hnew).
      exists (false :: ds), u'. rewrite accepted_ids_cons_false.
      repeat split; try assumption; [| simpl; lia].
      apply run_with_cons with (g1 := u); [now apply accept_unpruned_expired | assumption].
    + destruct (IH u) as (ds & u' & Hrun & Hlen & Hnd & Hnew).
      exists (false :: ds), u'. rewrite accepted_ids_cons_false.
      repeat split; try assumption; [| simpl; lia].
      apply run_with_cons with (g1 := u); [now apply accept_unpruned_replay | assumption].
    + destruct (IH (mkReplayGuard (<[ticket_id t := expires_at t]> (seen u))))
        as (ds & u' & Hrun & Hlen & Hnd & Hnew).
      exists (true :: ds), u'. rewrite accepted_ids_cons_true.
      repeat split.
      * apply run_with_cons with
          (g1 := mkReplayGuard (<[ticket_id t := expires_at t]> (seen u)));
          [now apply accept_unpruned_fresh | assumption].
      * simpl; lia.
      * constructor; [| assumption].
        intros Hin. apply Hnew in Hin. simpl in Hin.
        rewrite lookup_insert_eq in Hin. discriminate.
      * intros id Hin. apply elem_of_cons in Hin as [-> | Hin]; [assumption |].
        apply Hnew in Hin. simpl in Hin.
        destruct (decide (ticket_id t = id)) as [Heq | Hne].
        -- rewrite Heq, lookup_insert_eq in Hin. discriminate.
        -- now rewrite lookup_insert_ne in Hin.
Qed.

(** ** The pruned table decides like the unpruned one *)

(** [p] is the pruned table, [u] the unpruned one: [p] is a part of [u],
    what is missing from [p] has expired for every call to come, and every
    entry of [u] records the expiry of a submitted ticket. *)
Definition prune_sim (tickets : list ResolveTicket) (calls : list (Z * ResolveTicket))
  (p u : ReplayGuard) : Prop :=
  (forall id e, seen p !! id = Some e -> seen u !! id = Some e) /\
  (forall id e, seen u !! id = Some e -> seen p !! id = None ->
     Forall (fun now => e < now) (observed_times calls)) /\
  (forall id e, seen u !! id = Some e ->
     exists t, t ∈ tickets /\ ticket_id t = id /\ expires_at t = e).

Lemma prune_sim_tail tickets (call : Z * ResolveTicket) calls p u :
  prune_sim tickets (call :: calls) p u -> prune_sim tickets calls p u.
Proof.
  intros (Ha & Hb & Hc). repeat split; try assumption.
  intros id e Hu Hp. specialize (Hb id e Hu Hp). now inversion Hb.
Qed.

Lemma prune_sim_accept tickets (c : Z) (t : ResolveTicket) calls p u :
  prune_sim tickets ((c, t) :: calls) p u ->
  StronglySorted Z.le (observed_times ((c, t) :: calls)) ->
  t ∈ tickets ->
  prune_sim tickets calls
    (prune (mkReplayGuard (<[ticket_id t := expires_at t]> (seen p))) (c / 1000))
    (mkReplayGuard (<[ticket_id t := expires_at t]> (seen u))).
Proof.
  intros (Ha & Hb & Hc) Hsorted Ht.
  apply StronglySorted_inv in Hsorted as [_ Hlater]. simpl in Hlater.
  repeat split.
  - intros id e Hp. apply prune_lookup in Hp. simpl in *.
    destruct (decide (ticket_id t = id)) as [<- | Hne].
    + rewrite lookup_insert_eq in *. assumption.
    + rewrite lookup_insert_ne in * by assumption. now apply Ha.
  - intros id e Hu Hp. simpl in Hu.
    destruct (seen (mkReplayGuard (<[ticket_id t := expires_at t]> (seen p))) !! id)
      as [e' |] eqn:Hins.
    + assert (e' = e) as ->.
      { simpl in Hins. destruct (decide (ticket_id t = id)) as [<- | Hne].
        - rewrite lookup_insert_eq in *. congruence.
        - rewrite lookup_insert_ne in * by assumption.
          apply Ha in Hins. congruence. }
      pose proof (prune_drops_only_expired _ _ _ _ Hins Hp) as Hexp.
      eapply Forall_impl; [exact Hlater |]. simpl. intros now Hnow. lia.
    + simpl in Hins. destruct (decide (ticket_id t = id)) as [<- | Hne].
      * rewrite lookup_insert_eq in Hins. discriminate.
      * rewrite lookup_insert_ne in * by assumption.
        specialize (Hb id e Hu Hins). now inversion Hb.
  - intros id e Hu. simpl in Hu.
    destruct (decide (ticket_id t = id)) as [<- | Hne].
    + rewrite lookup_insert_eq in Hu. exists t. repeat split; congruence.
    + rewrite lookup_insert_ne in Hu by assumption. now apply Hc.
Qed.

Lemma run_pruned_simulates (tickets : list ResolveTicket)
  (Hinj : identities_determine_expiry tickets) (calls : list (Z * ResolveTicket)) :
  forall (p u : ReplayGuard) (ds : list bool) (u' : ReplayGuard),
    prune_sim tickets calls p u ->
    StronglySorted Z.le (observed_times calls) ->
    Forall (fun call => call.2 ∈ tickets) calls ->
    run_unpruned u calls = Ok (ds, u') ->
    exists p', run p calls = Ok (ds, p').
Proof.
  induction calls as [| [c t] calls IH]; intros p u ds u' Hsim Hsorted Hin Hrun.
  - simpl in Hrun. injection Hrun as <- <-. exists p. reflexivity.
  - pose proof (prune_sim_tail _ _ _ _ _ Hsim) as Hsim'.
    pose proof (proj1 (StronglySorted_inv Hsorted)) as Hsorted'.
    apply Forall_cons in Hin as [Ht Hin].
    unfold run_unpruned in Hrun.
    destruct (call_cases u c t) as [Hexp | Hlive Hseen | Hlive Hfresh].
    + simpl in Hrun. rewrite accept_unpruned_expired, bind_Ok in Hrun by assumption.
      simpl in Hrun.
      destruct (run_with accept_unpruned u calls) as [[ds0 u0] |] eqn:Hr; [| discriminate].
      rewrite bind_Ok in Hrun. injection Hrun as <- <-.
      destruct (IH p u ds0 u0 Hsim' Hsorted' Hin Hr) as [p' Hp'].
      exists p'. apply run_with_cons with (g1 := p);
        [now apply accept_expired | assumption].
    + simpl in Hrun. rewrite accept_unpruned_replay, bind_Ok in Hrun by assumption.
      simpl in Hrun.
      destruct (run_with accept_unpruned u calls) as [[ds0 u0] |] eqn:Hr; [| discriminate].
      rewrite bind_Ok in Hrun. injection Hrun as <- <-.
      destruct (IH p u ds0 u0 Hsim' Hsorted' Hin Hr) as [p' Hp'].
      exists p'. apply run_with_cons with (g1 := p); [| assumption].
      apply accept_replay.
      destruct Hseen as [e Hu].
      destruct (seen p !! ticket_id t) as [e' |] eqn:Hp; [eauto | exfalso].
      destruct Hsim as (_ & Hb & Hc).
      specialize (Hb _ _ Hu Hp). apply Forall_inv in Hb. simpl in Hb.
      destruct (Hc _ _ Hu) as (t0 & Ht0 & Hid & He).
      pose proof (Hinj t0 t Ht0 Ht Hid). lia.
    + simpl in Hrun. rewrite accept_unpruned_fresh, bind_Ok in Hrun by assumption.
      simpl in Hrun.
      destruct (run_with accept_unpruned _ calls) as [[ds0 u0] |] eqn:Hr; [| discriminate].
      rewrite bind_Ok in Hrun. injection Hrun as <- <-.
      assert (Hpfresh : seen p !! ticket_id t = None).
      { destruct (seen p !! ticket_id t) as [e |] eqn:Hp; [| reflexivity].
        destruct Hsim as (Ha & _). apply Ha in Hp. congruence. }
      destruct (IH _ _ ds0 u0 (prune_sim_accept _ _ _ _ _ _ Hsim Hsorted Ht)
                  Hsorted' Hin Hr) as [p' Hp'].
      exists p'. eapply run_with_cons; [now apply accept_fresh | exact Hp'].
Qed.

Lemma prune_sim_new tickets calls : prune_sim tickets calls new_ReplayGuard new_ReplayGuard.
Proof.
  repeat split; simpl; intros id e Hl; rewrite lookup_empty in Hl; discriminate.
Qed.

Lemma prune_below_threshold (g : ReplayGuard) (now : Z) :
  (size (seen g) <= 1000)%nat -> prune g now = g.
Proof.
  intros Hsize. unfold prune.
  destruct (Nat.ltb_spec 1000 (size (seen g))); [lia | reflexivity].
Qed.

End ReplaySequences.

(** C2. On one guard instance, for every sequence of [accept] calls whose
    observed current times never decrease (and whose tickets have no
    identity collision), the guard returns exactly the decisions of the
    unpruned table, and at most one call per Ticket Identity returns true;
    pruning does nothing until the table holds more than 1000 entries. *)
Theorem replay_guard_at_most_once `{NodeCrypto} :
  forall calls : list (Z * ResolveTicket),
    StronglySorted Z.le (observed_times calls) ->
    identities_determine_expiry (map snd calls) ->
    exists (decisions : list bool) (g u : ReplayGuard),
      run new_ReplayGuard calls = Ok (decisions, g) /\
      run_unpruned new_ReplayGuard calls = Ok (decisions, u) /\
      length decisions = length calls /\
      NoDup (accepted_ids calls decisions) /\
      (forall (g0 : ReplayGuard) (now : Z),
         (size (seen g0) <= 1000)%nat -> prune g0 now = g0).
Proof.
  intros calls Hsorted Hinj.
  destruct (run_unpruned_at_most_once calls new_ReplayGuard)
    as (ds & u & Hrun & Hlen & Hnd & _).
  destruct (run_pruned_simulates (map snd calls) Hinj calls
              new_ReplayGuard new_ReplayGuard ds u) as [g Hg].
  - apply prune_sim_new.
  - assumption.
  - apply Forall_forall. intros call Hin.
    apply list_elem_of_fmap. exists call. split; [reflexivity | assumption].
  - assumption.
  - exists ds, g, u. repeat split; try assumption.
    apply prune_below_threshold.
Qed.

Lemma replay_guard_at_most_once_witness :
  observed_times example_calls = [1; 2; 3] /\
  exists (decisions : list bool) (g u : ReplayGuard),
    run (H:=toy_crypto) new_ReplayGuard example_calls = Ok (decisions, g) /\
    run_unpruned (H:=toy_crypto) new_ReplayGuard example_calls = Ok (decisions, u) /\
    length decisions = length example_calls /\
    NoDup (accepted_ids (H:=toy_crypto) example_calls decisions) /\
    (forall (g0 : ReplayGuard) (now : Z),
       (size (seen g0) <= 1000)%nat -> prune g0 now = g0).
Proof.
  split; [reflexivity |].
  apply (replay_guard_at_most_once (H:=toy_crypto) example_calls).
  - unfold observed_times, example_calls. simpl.
    repeat constructor; vm_compute; discriminate.
  - intros t1 t2 H1 H2 _. simpl in H1, H2.
    repeat (apply elem_of_cons in H1 as [-> | H1]);
      repeat (apply elem_of_cons in H2 as [-> | H2]);
      try reflexivity; try (inversion H1); try (inversion H2).
Defined.

(* ===================================================================== *)
(** * Signature engine *)
(* ===================================================================== *)

Section SignatureEngine.
Context `{Noble}.

Lemma verify_bad_signature_length (m : bytes) (signature publicKey : bytes_or_hex)
  (sig : bytes) :
  toBytes signature = Ok sig -> length sig <> 64%nat ->
  verify m signature publicKey = Throw InvalidSignatureLength.
Proof.
  intros Hsig Hlen. unfold verify. rewrite Hsig, bind_Ok.
  destruct (Nat.eqb_spec (length sig) 64); [contradiction | reflexivity].
Qed.

Lemma verify_bad_key_length (m : bytes) (signature publicKey : bytes_or_hex)
  (sig pk : bytes) :
  toBytes signature = Ok sig -> length sig = 64%nat ->
  toBytes publicKey = Ok pk -> length pk <> 32%nat ->
  verify m signature publicKey = Throw InvalidKeyLength_publicKey.
Proof.
  intros Hsig Hlen Hpk Hpklen. unfold verify, normalizePublicKey.
  rewrite Hsig, bind_Ok, Hlen. simpl. rewrite Hpk, bind_Ok.
  destruct (Nat.eqb_spec (length pk) 32); [contradiction | reflexivity].
Qed.

Lemma verify_well_formed (m : bytes) (signature publicKey : bytes_or_hex)
  (sig pk : bytes) :
  toBytes signature = Ok sig -> length sig = 64%nat ->
  toBytes publicKey = Ok pk -> length pk = 32%nat ->
  verify m signature publicKey = Ok (ed25519_verify sig m pk).
Proof.
  intros Hsig Hlen Hpk Hpklen. unfold verify, normalizePublicKey.
  rewrite Hsig, bind_Ok, Hlen. simpl. rewrite Hpk, bind_Ok, Hpklen. reflexivity.
Qed.

Lemma normalizeSecret_32 (secret : bytes_or_hex) (raw : bytes) :
  toBytes secret = Ok raw -> length raw = 32%nat -> normalizeSecret secret = Ok raw.
Proof.
  intros Hraw Hlen. unfold normalizeSecret. rewrite Hraw, bind_Ok, Hlen. reflexivity.
Qed.

Lemma normalizeSecret_64 (secret : bytes_or_hex) (raw : bytes) :
  toBytes secret = Ok raw -> length raw = 64%nat ->
  normalizeSecret secret = Ok (firstn 32 raw).
Proof.
  intros Hraw Hlen. unfold normalizeSecret. rewrite Hraw, bind_Ok, Hlen. reflexivity.
Qed.

Lemma normalizeSecret_other (secret : bytes_or_hex) (raw : bytes) :
  toBytes secret = Ok raw -> length raw <> 32%nat -> length raw <> 64%nat ->
  normalizeSecret secret = Throw InvalidKeyLength_secret.
Proof.
  intros Hraw H32 H64. unfold normalizeSecret. rewrite Hraw, bind_Ok.
  destruct (Nat.eqb_spec (length raw) 32); [contradiction |].
  destruct (Nat.eqb_spec (length raw) 64); [contradiction | reflexivity].
Qed.

End SignatureEngine.



(** C9. [sign] and [derivePublicKey] take a secret of exactly 32 bytes, used
    as the seed, or of exactly 64 bytes, of which the first 32 are the seed,
    and fail with [InvalidKeyLength] on any other length; hence a 64-byte
    secret signs and derives like its first 32 bytes. *)
Theorem secret_normalization `{Noble} :
  forall (m : bytes) (secret : bytes_or_hex) (raw : bytes),
    toBytes secret = Ok raw ->
    (length raw = 32%nat ->
       sign m secret = Ok (ed25519_sign m raw) /\
       derivePublicKey secret = Ok (ed25519_getPublicKey raw)) /\
    (length raw = 64%nat ->
       sign m secret = Ok (ed25519_sign m (firstn 32 raw)) /\
       derivePublicKey secret = Ok (ed25519_getPublicKey (firstn 32 raw)) /\
       sign m secret = sign m (FromBytes (firstn 32 raw)) /\
       derivePublicKey secret = derivePublicKey (FromBytes (firstn 32 raw))) /\
    (length raw <> 32%nat -> length raw <> 64%nat ->
       sign m secret = Throw InvalidKeyLength_secret /\
       derivePublicKey secret = Throw InvalidKeyLength_secret /\
       is_InvalidKeyLength InvalidKeyLength_secret).
Proof.
  intros m secret raw Hraw. split; [| split].
  - intros Hlen. unfold sign, derivePublicKey.
    rewrite (normalizeSecret_32 secret raw Hraw Hlen). split; reflexivity.
  - intros Hlen. unfold sign, derivePublicKey.
    rewrite (normalizeSecret_64 secret raw Hraw Hlen).
    rewrite (normalizeSecret_32 (FromBytes (firstn 32 raw)) (firstn 32 raw) eq_refl)
      by (rewrite length_take; lia).
    repeat split; reflexivity.
  - intros H32 H64. unfold sign, derivePublicKey.
    rewrite (normalizeSecret_other secret raw Hraw H32 H64).
    repeat split. now right.
Qed.

Lemma secret_normalization_witness :
  let m := list_byte_of_string "hello world" in
  let expanded := seed_00_1f ++ repeat xff 32 in
  sign (H:=toy_noble) m (FromBytes seed_00_1f)
    = Ok (ed25519_sign (Noble:=toy_noble) m seed_00_1f) /\
  sign (H:=toy_noble) m (FromBytes expanded)
    = sign (H:=toy_noble) m (FromBytes (firstn 32 expanded)) /\
  derivePublicKey (H:=toy_noble) (FromBytes expanded)
    = derivePublicKey (H:=toy_noble) (FromBytes (firstn 32 expanded)) /\
  sign (H:=toy_noble) m (FromBytes (firstn 31 seed_00_1f)) = Throw InvalidKeyLength_secret.
Proof.
  intros m expanded.
  pose proof (secret_normalization (H:=toy_noble) m (FromBytes seed_00_1f)
                seed_00_1f eq_refl) as (H32 & _ & _).
  pose proof (secret_normalization (H:=toy_noble) m (FromBytes expanded)
                expanded eq_refl) as (_ & H64 & _).
  pose proof (secret_normalization (H:=toy_noble) m (FromBytes (firstn 31 seed_00_1f))
                (firstn 31 seed_00_1f) eq_refl) as (_ & _ & Hbad).
  destruct (H32 ltac:(vm_compute; reflexivity)) as (Hs32 & _).
  destruct (H64 ltac:(vm_compute; reflexivity)) as (_ & _ & Hs64 & Hd64).
  destruct (Hbad ltac:(vm_compute; lia) ltac:(vm_compute; lia)) as (Hsbad & _).
  split; [exact Hs32 | split; [exact Hs64 | split; [exact Hd64 | exact Hsbad]]].
Defined.

(* ===================================================================== *)
(** * Structural induction on values *)
(* ===================================================================== *)

Section ValueInduction.
Variable P : value -> Prop.
Hypothesis Hundefined : P VUndefined.
Hypothesis Hnull : P VNull.
Hypothesis Hbool : forall b, P (VBool b).
Hypothesis Hint : forall n, P (VInt n).
Hypothesis Hfloat : forall bits, P (VFloat bits).
Hypothesis Hstring : forall s, P (VString s).
Hypothesis Harray : forall items, Forall P items -> P (VArray items).
Hypothesis Hobject : forall entries, Forall (fun e => P e.2) entries -> P (VObject entries).

Fixpoint value_induction (v : value) : P v :=
  match v with
  | VUndefined => Hundefined
  | VNull => Hnull
  | VBool b => Hbool b
  | VInt n => Hint n
  | VFloat bits => Hfloat bits
  | VString s => Hstring s
  | VArray items =>
      Harray items
        ((fix go (l : list value) : Forall P l :=
            match l with
            | [] => List.Forall_nil P
            | x :: l' => List.Forall_cons P x l' (value_induction x) (go l')
            end) items)
  | VObject entries =>
      Hobject entries
        ((fix go (l : list (string * value)) : Forall (fun e => P e.2) l :=
            match l with
            | [] => List.Forall_nil _
            | e :: l' => List.Forall_cons (fun e => P e.2) e l' (value_induction e.2) (go l')
            end) entries)
  end.

End ValueInduction.

(* ===================================================================== *)
(** * Absence rejection *)
(* ===================================================================== *)

(** What [assertNoUndefined] returns, in terms of [has_undefined]. *)
Definition absence_checked (v : value) (r : result unit) : Prop :=
  if has_undefined v then exists where_, r = Throw (EncodingError where_)
  else r = Ok tt.

Lemma assertNoUndefined_spec (v : value) :
  forall path, absence_checked v (assertNoUndefined v path).
Proof.
  induction v as [ | | b | n | bits | s | items IH | entries IH ] using value_induction;
    intros path; unfold absence_checked; simpl; eauto.
  - generalize 0%nat as i.
    induction IH as [| x l Hx _ IHl]; intros i; simpl; [reflexivity |].
    specialize (Hx (path ++ [pretty i])). unfold absence_checked in Hx.
    destruct (has_undefined x); simpl.
    + destruct Hx as [w ->]. eauto.
    + rewrite Hx. apply IHl.
  - induction IH as [| [k x] l Hx _ IHl]; simpl; [reflexivity |].
    specialize (Hx (path ++ [k])). unfold absence_checked in Hx. simpl in Hx.
    destruct (has_undefined x); simpl.
    + destruct Hx as [w ->]. eauto.
    + rewrite Hx. apply IHl.
Qed.

(** C7. [encodeCbor] fails with [EncodingError] exactly when the value
    holds [undefined] at some depth (at the root, as the value of an object
    entry or as an array element, recursively); a value without it is
    encoded. *)
Theorem encodeCbor_rejects_exactly_undefined :
  forall v : value,
    ((exists e, encodeCbor v = Throw e /\ is_EncodingError e) <-> has_undefined v = true) /\
    (encodeCbor v = Ok (Cborg.encode v) <-> has_undefined v = false).
Proof.
  intros v. unfold encodeCbor.
  pose proof (assertNoUndefined_spec v []) as Hspec. unfold absence_checked in Hspec.
  destruct (has_undefined v).
  - destruct Hspec as [w ->]. split; split; try discriminate; try reflexivity.
    intros _. exists (EncodingError w). split; [reflexivity | now exists w].
  - rewrite Hspec. split; split; try reflexivity; try discriminate.
    intros (e & He & _). discriminate.
Qed.

(** The three places of the claim, on concrete values. *)
Example undefined_at_root : exists e, encodeCbor VUndefined = Throw e /\ is_EncodingError e.
Proof. eexists. split; [reflexivity | now exists "<root>"]. Qed.

Example undefined_in_object :
  encodeCbor (VObject [("a", VInt 1); ("b", VObject [("c", VUndefined)])])
  = Throw (EncodingError "b.c").
Proof. reflexivity. Qed.

Example undefined_in_array :
  encodeCbor (VObject [("a", VArray [VNull; VArray [VInt 1; VUndefined]])])
  = Throw (EncodingError "a.1.1").
Proof. reflexivity. Qed.

(* ===================================================================== *)
(** * Hex rendering *)
(* ===================================================================== *)

Lemma byte_to_N_inj (a b : byte) : Byte.to_N a = Byte.to_N b -> a = b.
Proof.
  intros Heq. pose proof (Byte.of_to_N a) as Ha. pose proof (Byte.of_to_N b) as Hb.
  rewrite Heq in Ha. congruence.
Qed.

Lemma byte_to_N_lt (b : byte) : (Byte.to_N b < 256)%N.
Proof. pose proof (Byte.to_N_bounded b). lia. Qed.

Lemma hex_digit_code (n : N) :
  (n < 16)%N -> N_of_ascii (hex_digit n) = if (n <? 10)%N then (48 + n)%N else (87 + n)%N.
Proof.
  intros Hn. unfold hex_digit.
  destruct (N.ltb_spec n 10); apply N_ascii_embedding; lia.
Qed.

Lemma hex_digit_inj (n m : N) :
  (n < 16)%N -> (m < 16)%N -> hex_digit n = hex_digit m -> n = m.
Proof.
  intros Hn Hm Heq. apply (f_equal N_of_ascii) in Heq.
  rewrite !hex_digit_code in Heq by assumption.
  destruct (N.ltb_spec n 10), (N.ltb_spec m 10); lia.
Qed.

Lemma hex_digit_lower (n : N) : (n < 16)%N -> is_lower_hex (hex_digit n) = true.
Proof.
  intros Hn. unfold is_lower_hex. rewrite hex_digit_code by assumption.
  destruct (N.ltb_spec n 10).
  - apply orb_true_iff. left. apply andb_true_iff. split; apply N.leb_le; lia.
  - apply orb_true_iff. right. apply andb_true_iff. split; apply N.leb_le; lia.
Qed.

Lemma byte_nibbles (b : byte) :
  (Byte.to_N b / 16 < 16)%N /\ (Byte.to_N b mod 16 < 16)%N.
Proof.
  pose proof (byte_to_N_lt b). split.
  - apply N.Div0.div_lt_upper_bound. lia.
  - apply N.mod_lt. lia.
Qed.

Lemma hex_of_byte_inj (a b : byte) : hex_of_byte a = hex_of_byte b -> a = b.
Proof.
  unfold hex_of_byte. intros Heq. injection Heq as Hhi Hlo.
  destruct (byte_nibbles a) as [Ha1 Ha2], (byte_nibbles b) as [Hb1 Hb2].
  apply hex_digit_inj in Hhi; [| assumption ..].
  apply hex_digit_inj in Hlo; [| assumption ..].
  apply byte_to_N_inj.
  rewrite (N.div_mod (Byte.to_N a) 16), (N.div_mod (Byte.to_N b) 16) by lia.
  congruence.
Qed.

Lemma hex_of_bytes_cons (b : byte) (bs : bytes) :
  hex_of_bytes (b :: bs) =
  String (hex_digit (Byte.to_N b / 16))
         (String (hex_digit (Byte.to_N b mod 16)) (hex_of_bytes bs)).
Proof. reflexivity. Qed.

Lemma hex_of_bytes_inj (a b : bytes) : hex_of_bytes a = hex_of_bytes b -> a = b.
Proof.
  revert b. induction a as [| x a IH]; intros [| y b] Heq;
    rewrite ?hex_of_bytes_cons in Heq; try discriminate; [reflexivity |].
  injection Heq as Hhi Hlo Hrest.
  f_equal; [| now apply IH].
  apply hex_of_byte_inj. unfold hex_of_byte. congruence.
Qed.

Lemma hex_of_bytes_lower (bs : bytes) :
  string_forallb is_lower_hex (hex_of_bytes bs) = true.
Proof.
  induction bs as [| b bs IH]; [reflexivity |].
  rewrite hex_of_bytes_cons. simpl.
  destruct (byte_nibbles b) as [H1 H2].
  now rewrite !hex_digit_lower, IH.
Qed.

(* ===================================================================== *)
(** * Quorum verification *)
(* ===================================================================== *)

Lemma every_indexed_spec (pubKey k : bytes) :
  forall i : nat,
    every_indexed (fun b j => bool_decide (pubKey !! j = Some b)) k i = true
    <-> firstn (length k) (skipn i pubKey) = k.
Proof.
  induction k as [| b k IH]; intros i; simpl.
  - split; reflexivity.
  - rewrite andb_true_iff, bool_decide_eq_true, IH. split.
    + intros [Hb Hk]. rewrite (drop_S _ _ _ Hb). simpl. now rewrite Hk.
    + intros Hk.
      assert (Hb : pubKey !! i = Some b).
      { rewrite <- (Nat.add_0_r i), <- lookup_drop.
        destruct (drop i pubKey); simpl in *; congruence. }
      split; [assumption |].
      rewrite (drop_S _ _ _ Hb) in Hk. simpl in Hk. congruence.
Qed.

Lemma key_matches_eq (pubKey k : bytes) : key_matches pubKey k = true <-> k = pubKey.
Proof.
  unfold key_matches. rewrite andb_true_iff, Nat.eqb_eq, every_indexed_spec, drop_0.
  split.
  - intros [Hlen Hk]. rewrite Hlen, firstn_all in Hk. congruence.
  - intros ->. split; [reflexivity | apply firstn_all].
Qed.

Lemma isAuthorized_spec (pubKey : bytes) (authorizedPubKeys : list bytes) :
  existsb (key_matches pubKey) authorizedPubKeys = true <-> pubKey ∈ authorizedPubKeys.
Proof.
  rewrite existsb_exists. split.
  - intros (k & Hin & Hk). apply key_matches_eq in Hk. subst k.
    now apply list_elem_of_In.
  - intros Hin. exists pubKey. split; [now apply list_elem_of_In | now apply key_matches_eq].
Qed.

Section Quorum.
Context `{Noble}.
Variable ticketBytes : bytes.
Variable authorizedPubKeys : list bytes.

(** The loop of [verifyQuorum] computes the count of the specification,
    the set of hex strings standing for the keys that have contributed. *)
Lemma quorum_loop_count (signatures : list (bytes * bytes)) :
  forall (validCount : Z) (usedPubKeys : gset string) (contributed : list bytes),
    (forall k, hex_of_bytes k ∈ usedPubKeys <-> k ∈ contributed) ->
    quorum_well_formed authorizedPubKeys signatures ->
    quorum_loop ticketBytes authorizedPubKeys signatures validCount usedPubKeys
    = Ok (validCount
          + Z.of_nat (quorum_count ticketBytes authorizedPubKeys contributed signatures)).
Proof.
  induction signatures as [| [pubKey sig] rest IH];
    intros validCount usedPubKeys contributed Hused Hwf.
  - simpl. f_equal. lia.
  - apply Forall_cons in Hwf as [Hhead Hwf]. simpl in Hhead.
    cbn [quorum_loop quorum_count].
    destruct (existsb (key_matches pubKey) authorizedPubKeys) eqn:Hauth; simpl.
    + apply isAuthorized_spec in Hauth.
      rewrite (bool_decide_eq_true_2 _ Hauth). simpl.
      destruct (Hhead Hauth) as [Hsiglen Hkeylen].
      destruct (decide (hex_of_bytes pubKey ∈ usedPubKeys)) as [Hin | Hnin].
      * apply Hused in Hin.
        rewrite bool_decide_eq_false_2 by tauto. simpl.
        now apply IH.
      * assert (Hfresh : pubKey ∉ contributed) by (intros Hc; now apply Hnin, Hused).
        rewrite (bool_decide_eq_true_2 _ Hfresh). simpl.
        rewrite (verify_well_formed ticketBytes (FromBytes sig) (FromBytes pubKey)
                   sig pubKey eq_refl Hsiglen eq_refl Hkeylen), bind_Ok.
        destruct (ed25519_verify sig ticketBytes pubKey).
        -- rewrite (IH _ _ (pubKey :: contributed)); [f_equal; lia | | assumption].
           intros k. rewrite elem_of_union, elem_of_singleton, elem_of_cons, Hused.
           split; (intros [Hk | Hk]; [left | right; assumption]).
           ++ now apply hex_of_bytes_inj.
           ++ now subst.
        -- now apply IH.
    + assert (Hnauth : pubKey ∉ authorizedPubKeys).
      { intros Hin. apply isAuthorized_spec in Hin. congruence. }
      rewrite (bool_decide_eq_false_2 _ Hnauth). simpl. now apply IH.
Qed.

(** The count is the number of distinct authorized keys, not yet among the
    contributors, under which some submitted signature verifies. *)
Lemma quorum_count_distinct_signers (signatures : list (bytes * bytes)) :
  forall contributed : list bytes,
  exists keys : list bytes,
    NoDup keys /\
    length keys = quorum_count ticketBytes authorizedPubKeys contributed signatures /\
    (forall pk, pk ∈ keys <->
       (pk ∉ contributed) /\ (pk ∈ authorizedPubKeys) /\
       exists sig, (pk, sig) ∈ signatures /\ ed25519_verify sig ticketBytes pk = true).
Proof.
  induction signatures as [| [pubKey sig] rest IH]; intros contributed.
  - exists []. split; [constructor | split; [reflexivity |]].
    intros pk. split; [intros Hin; inversion Hin |].
    intros (_ & _ & s & Hin & _). inversion Hin.
  - cbn [quorum_count].
    destruct (bool_decide (pubKey ∈ authorizedPubKeys) && bool_decide (pubKey ∉ contributed)
              && ed25519_verify sig ticketBytes pubKey) eqn:Hcounted.
    + apply andb_true_iff in Hcounted as [Hcounted Hvalid].
      apply andb_true_iff in Hcounted as [Hauth Hfresh].
      apply bool_decide_eq_true in Hauth, Hfresh.
      destruct (IH (pubKey :: contributed)) as (keys & Hnd & Hlen & Hkeys).
      exists (pubKey :: keys). split; [| split].
      * constructor; [| assumption].
        intros Hin. apply Hkeys in Hin as (Hnot & _). apply Hnot. now left.
      * simpl. now rewrite Hlen.
      * intros pk. rewrite elem_of_cons, Hkeys. split.
        -- intros [-> | (Hnot & Ha & s & Hin & Hs)].
           ++ repeat split; try assumption. exists sig. split; [now left | assumption].
           ++ repeat split; try assumption.
              ** intros Hc. apply Hnot. now right.
              ** exists s. split; [now right | assumption].
        -- intros (Hnot & Ha & s & Hin & Hs).
           destruct (decide (pk = pubKey)) as [-> | Hne]; [now left | right].
           repeat split; try assumption.
           ++ intros Hc. apply elem_of_cons in Hc as [Hc | Hc]; contradiction.
           ++ exists s. split; [| assumption].
              apply elem_of_cons in Hin as [Heq | Hin]; [congruence | assumption].
    + destruct (IH contributed) as (keys & Hnd & Hlen & Hkeys).
      exists keys. split; [assumption | split; [assumption |]].
      intros pk. rewrite Hkeys. split.
      * intros (Hnot & Ha & s & Hin & Hs). repeat split; try assumption.
        exists s. split; [now right | assumption].
      * intros (Hnot & Ha & s & Hin & Hs). repeat split; try assumption.
        apply elem_of_cons in Hin as [Heq | Hin]; [| now exists s].
        injection Heq as -> ->.
        rewrite (bool_decide_eq_true_2 _ Ha), (bool_decide_eq_true_2 _ Hnot), Hs
          in Hcounted.
        discriminate.
Qed.

End Quorum.

(** C1 (as stated, refuted). [verifyQuorum] does not return for every list
    of pairs: a signature of the wrong length under an authorized key makes
    [verify] throw, even with threshold 0. *)
Lemma verifyQuorum_throws_on_malformed_signature :
  ~ (forall (H : Noble) (ticket : ResolveTicket) (signatures : list (bytes * bytes))
            (authorizedPubKeys : list bytes) (threshold : Z),
       verifyQuorum ticket signatures authorizedPubKeys threshold
       = Ok (bool_decide
               (threshold <= Z.of_nat (quorum_count (Cborg.encode (ticket_object ticket))
                                          authorizedPubKeys [] signatures)))).
Proof.
  intros Hclaim.
  specialize (Hclaim toy_noble example_ticket [(signer_1, repeat x00 63)] [signer_1] 0).
  vm_compute in Hclaim. discriminate.
Qed.

(** C1 (amended). When every submission under an authorized key has a
    64-byte signature and a 32-byte key, [verifyQuorum] returns true iff the
    number of pairs whose key is byte-equal to an authorized key, has not
    yet contributed a counted signature, and whose signature verifies
    against [encode(ticket)], is at least the threshold. That number is the
    number of distinct authorized keys with a verifying signature, so a key
    counts at most once and unauthorized keys are ignored; a threshold of 0
    or less gives true, also on the empty list. *)
Theorem verifyQuorum_threshold `{Noble} :
  forall (ticket : ResolveTicket) (signatures : list (bytes * bytes))
         (authorizedPubKeys : list bytes) (threshold : Z),
    quorum_well_formed authorizedPubKeys signatures ->
    let ticketBytes := Cborg.encode (ticket_object ticket) in
    let count := quorum_count ticketBytes authorizedPubKeys [] signatures in
    verifyQuorum ticket signatures authorizedPubKeys threshold
      = Ok (bool_decide (threshold <= Z.of_nat count)) /\
    (exists keys : list bytes,
       NoDup keys /\ length keys = count /\
       forall pk, pk ∈ keys <->
         (pk ∈ authorizedPubKeys) /\
         exists sig, (pk, sig) ∈ signatures /\ ed25519_verify sig ticketBytes pk = true) /\
    (threshold <= 0 ->
       verifyQuorum ticket signatures authorizedPubKeys threshold = Ok true) /\
    verifyQuorum ticket [] authorizedPubKeys 0 = Ok true.
Proof.
  intros ticket signatures authorizedPubKeys threshold Hwf ticketBytes count.
  assert (Hrun : forall thr,
             verifyQuorum ticket signatures authorizedPubKeys thr
             = Ok (bool_decide (thr <= Z.of_nat count))).
  { intros thr. unfold verifyQuorum. rewrite encodeCbor_ticket, bind_Ok.
    rewrite (quorum_loop_count _ _ signatures 0 ∅ []), bind_Ok; [| | assumption].
    - f_equal. rewrite Z.add_0_l. fold ticketBytes. fold count.
      destruct (Z.leb_spec thr (Z.of_nat count)); symmetry;
        [apply bool_decide_eq_true_2 | apply bool_decide_eq_false_2]; lia.
    - intros k. split; intros Hin; [now apply not_elem_of_empty in Hin | inversion Hin]. }
  split; [apply Hrun | split; [| split]].
  - destruct (quorum_count_distinct_signers ticketBytes authorizedPubKeys signatures [])
      as (keys & Hnd & Hlen & Hkeys).
    exists keys. split; [assumption | split; [assumption |]].
    intros pk. rewrite Hkeys. split.
    + intros (_ & Ha & Hs). now split.
    + intros (Ha & Hs). split; [| now split]. intros Hin. inversion Hin.
  - intros Hthr. rewrite Hrun. f_equal. apply bool_decide_eq_true_2. lia.
  - unfold verifyQuorum. rewrite encodeCbor_ticket. reflexivity.
Qed.

Lemma verifyQuorum_threshold_witness :
  quorum_well_formed [signer_1; signer_2; signer_3] example_signatures /\
  verifyQuorum (H:=toy_noble) example_ticket example_signatures
    [signer_1; signer_2; signer_3] 2 = Ok true /\
  verifyQuorum (H:=toy_noble) example_ticket example_signatures
    [signer_1; signer_2; signer_3] 3 = Ok false.
Proof.
  assert (Hwf : quorum_well_formed [signer_1; signer_2; signer_3] example_signatures).
  { unfold quorum_well_formed, example_signatures.
    repeat (apply List.Forall_cons; [intros _; split; vm_compute; reflexivity |]).
    apply List.Forall_nil. }
  pose proof (verifyQuorum_threshold (H:=toy_noble) example_ticket example_signatures
                [signer_1; signer_2; signer_3] 2 Hwf) as (H2 & _).
  pose proof (verifyQuorum_threshold (H:=toy_noble) example_ticket example_signatures
                [signer_1; signer_2; signer_3] 3 Hwf) as (H3 & _).
  split; [exact Hwf | split].
  - rewrite H2. vm_compute. reflexivity.
  - rewrite H3. vm_compute. reflexivity.
Defined.

(** The scenarios of the specification, with three authorized keys and
    threshold 2. *)
Example quorum_two_distinct_signers :
  verifyQuorum (H:=toy_noble) example_ticket
    [ (signer_1, toy_signature example_bytes signer_1);
      (signer_2, toy_signature example_bytes signer_2) ]
    [signer_1; signer_2; signer_3] 2 = Ok true.
Proof. vm_compute. reflexivity. Qed.

Example quorum_same_signer_twice :
  verifyQuorum (H:=toy_noble) example_ticket
    [ (signer_1, toy_signature example_bytes signer_1);
      (signer_1, toy_signature example_bytes signer_1) ]
    [signer_1; signer_2; signer_3] 2 = Ok false.
Proof. vm_compute. reflexivity. Qed.

Example quorum_unauthorized_signer :
  verifyQuorum (H:=toy_noble) example_ticket
    [ (signer_1, toy_signature example_bytes signer_1);
      (outsider, toy_signature example_bytes outsider) ]
    [signer_1; signer_2; signer_3] 2 = Ok false.
Proof. vm_compute. reflexivity. Qed.

(* ===================================================================== *)
(** * The codec: heads and arguments *)
(* ===================================================================== *)

Lemma to_N_byte_of_N (n : N) : Byte.to_N (byte_of_N n) = (n mod 256)%N.
Proof.
  unfold byte_of_N. destruct (Byte.of_N (n mod 256)) as [b |] eqn:Hb.
  - now apply Byte.to_of_N.
  - apply Byte.of_N_None_iff in Hb.
    pose proof (N.mod_lt n 256 ltac:(lia)). lia.
Qed.

Lemma to_N_byte_of_N_small (n : N) : (n < 256)%N -> Byte.to_N (byte_of_N n) = n.
Proof. intros Hn. rewrite to_N_byte_of_N. now apply N.mod_small. Qed.

Lemma length_be (k : nat) (n : N) : length (Cborg.be k n) = k.
Proof. induction k as [| k IH]; simpl; [reflexivity | now rewrite IH]. Qed.

Lemma from_be_app_acc (k : nat) (n acc : N) (tail : bytes) :
  fold_left (fun a b => (a * 256 + Byte.to_N b)%N) (Cborg.be k n ++ tail) acc
  = fold_left (fun a b => (a * 256 + Byte.to_N b)%N) tail
      (acc * 256 ^ N.of_nat k + n mod 256 ^ N.of_nat k)%N.
Proof.
  revert acc. induction k as [| k IH]; intros acc.
  - simpl. f_equal. rewrite N.mod_1_r. lia.
  - cbn [Cborg.be app fold_left]. rewrite IH. f_equal.
    rewrite to_N_byte_of_N.
    replace (N.of_nat (S k)) with (N.of_nat k + 1)%N by lia.
    rewrite N.pow_add_r, N.pow_1_r.
    rewrite (N.Div0.mod_mul_r n (256 ^ N.of_nat k) 256). lia.
Qed.

Lemma from_be_be (k : nat) (n : N) :
  (n < 256 ^ N.of_nat k)%N -> Cborg.from_be (Cborg.be k n) = n.
Proof.
  intros Hn. unfold Cborg.from_be.
  rewrite <- (app_nil_r (Cborg.be k n)), from_be_app_acc. simpl.
  now apply N.mod_small.
Qed.

Lemma take_bytes_app (a rest : bytes) :
  Cborg.take_bytes (length a) (a ++ rest) = Some (a, rest).
Proof.
  unfold Cborg.take_bytes.
  destruct (Nat.leb_spec (length a) (length (a ++ rest))) as [_ | Hlt].
  - now rewrite take_app_length, drop_app_length.
  - rewrite length_app in Hlt. lia.
Qed.

Lemma decode_arg_be (ai : N) (w : nat) (arg : N) (rest : bytes) :
  (24 <= ai)%N ->
  (if (ai =? 24)%N then Some 1%nat
   else if (ai =? 25)%N then Some 2%nat
   else if (ai =? 26)%N then Some 4%nat
   else if (ai =? 27)%N then Some 8%nat
   else None) = Some w ->
  (arg < 256 ^ N.of_nat w)%N ->
  Cborg.decode_arg ai (Cborg.be w arg ++ rest) = Some (arg, rest).
Proof.
  intros Hai Hw Harg. unfold Cborg.decode_arg.
  destruct (N.ltb_spec ai 24); [lia |].
  rewrite Hw.
  rewrite <- (length_be w arg) at 1. rewrite take_bytes_app.
  now rewrite from_be_be.
Qed.

(** Reading back a head: the initial byte gives the major type, and the
    argument is recovered whatever its width. *)
Lemma decode_head (major arg : N) (rest : bytes) :
  (major < 8)%N -> (arg < 2 ^ 64)%N ->
  exists (ib : byte) (tail : bytes),
    Cborg.head major arg ++ rest = ib :: tail /\
    (Byte.to_N ib / 32)%N = major /\
    Cborg.decode_arg (Byte.to_N ib mod 32) tail = Some (arg, rest).
Proof.
  intros Hmajor Harg. unfold Cborg.head.
  assert (Hib : forall ai, (ai < 32)%N ->
            (Byte.to_N (byte_of_N (major * 32 + ai)) / 32 = major)%N /\
            (Byte.to_N (byte_of_N (major * 32 + ai)) mod 32 = ai)%N).
  { intros ai Hai. rewrite to_N_byte_of_N_small by lia.
    replace (major * 32 + ai)%N with (ai + major * 32)%N by lia. split.
    - rewrite N.div_add by lia. rewrite N.div_small by lia. lia.
    - rewrite N.Div0.mod_add. now apply N.mod_small. }
  destruct (N.ltb_spec arg 24).
  - destruct (Hib arg ltac:(lia)) as [Hm Ha].
    eexists _, _. split; [reflexivity | split; [exact Hm |]].
    rewrite Ha. unfold Cborg.decode_arg.
    destruct (N.ltb_spec arg 24); [reflexivity | lia].
  - destruct (N.ltb_spec arg (2 ^ 8)); [| destruct (N.ltb_spec arg (2 ^ 16));
      [| destruct (N.ltb_spec arg (2 ^ 32))]].
    + destruct (Hib 24%N ltac:(lia)) as [Hm Ha].
      eexists _, _. split; [reflexivity | split; [exact Hm |]].
      rewrite Ha. apply decode_arg_be with (w := 1%nat); [lia | reflexivity |].
      simpl. lia.
    + destruct (Hib 25%N ltac:(lia)) as [Hm Ha].
      eexists _, _. split; [reflexivity | split; [exact Hm |]].
      rewrite Ha. apply decode_arg_be with (w := 2%nat); [lia | reflexivity |].
      simpl. lia.
    + destruct (Hib 26%N ltac:(lia)) as [Hm Ha].
      eexists _, _. split; [reflexivity | split; [exact Hm |]].
      rewrite Ha. apply decode_arg_be with (w := 4%nat); [lia | reflexivity |].
      simpl. lia.
    + destruct (Hib 27%N ltac:(lia)) as [Hm Ha].
      eexists _, _. split; [reflexivity | split; [exact Hm |]].
      rewrite Ha. apply decode_arg_be with (w := 8%nat); [lia | reflexivity |].
      simpl. lia.
Qed.

(* ===================================================================== *)
(** * The codec: canonical key order *)
(* ===================================================================== *)

Section SortEntries.
Context {A : Type}.
Implicit Types (e : string * A) (l : list (string * A)).

(** Strict byte-wise lexicographic order on the keys of two entries. *)
Definition key_lt e1 e2 : Prop := String.compare e1.1 e2.1 = Lt.

Lemma key_lt_trans e1 e2 e3 : key_lt e1 e2 -> key_lt e2 e3 -> key_lt e1 e3.
Proof.
  unfold key_lt. intros H12 H23.
  apply String_as_OT.cmp_lt in H12, H23. apply String_as_OT.cmp_lt.
  eapply String_as_OT.lt_trans; eassumption.
Qed.

Lemma key_lt_asym e1 e2 : key_lt e1 e2 -> key_lt e2 e1 -> False.
Proof.
  unfold key_lt. intros H12 H21.
  rewrite String.compare_antisym, H12 in H21. discriminate.
Qed.

#[local] Instance key_lt_antisym : AntiSymm (=) key_lt.
Proof. intros e1 e2 H12 H21. destruct (key_lt_asym e1 e2 H12 H21). Qed.

Lemma leb_false_lt (a b : string) : String.leb a b = false -> String.compare b a = Lt.
Proof.
  unfold String.leb. rewrite (String.compare_antisym a b).
  destruct (String.compare b a); simpl; congruence.
Qed.

Lemma leb_true_lt (a b : string) :
  String.leb a b = true -> a <> b -> String.compare a b = Lt.
Proof.
  unfold String.leb. intros Hle Hne.
  destruct (String.compare a b) eqn:Hc; [| reflexivity | discriminate].
  now apply String.compare_eq_iff in Hc.
Qed.

Lemma insert_entry_perm e l : Permutation (Cborg.insert_entry e l) (e :: l).
Proof.
  induction l as [| x l IH]; simpl; [reflexivity |].
  destruct (String.leb e.1 x.1); [reflexivity |].
  rewrite IH. apply perm_swap.
Qed.

Lemma sort_entries_perm l : Permutation (Cborg.sort_entries l) l.
Proof.
  induction l as [| e l IH]; simpl; [reflexivity |].
  rewrite insert_entry_perm. now rewrite IH.
Qed.

Lemma insert_entry_sorted e l :
  StronglySorted key_lt l ->
  Forall (fun x => x.1 <> e.1) l ->
  StronglySorted key_lt (Cborg.insert_entry e l).
Proof.
  induction l as [| x l IH]; intros Hsorted Hne; simpl.
  - repeat constructor.
  - apply StronglySorted_inv in Hsorted as [Hsorted Hx].
    apply Forall_cons in Hne as [Hxe Hne].
    destruct (String.leb e.1 x.1) eqn:Hle.
    + assert (Hex : key_lt e x) by (apply leb_true_lt; [assumption | congruence]).
      constructor; [now constructor |].
      constructor; [assumption |].
      eapply Forall_impl; [exact Hx |]. intros y Hy. now apply key_lt_trans with x.
    + constructor; [now apply IH |].
      rewrite insert_entry_perm. constructor; [| assumption].
      now apply leb_false_lt.
Qed.

Lemma sort_entries_sorted l :
  NoDup (map fst l) -> StronglySorted key_lt (Cborg.sort_entries l).
Proof.
  induction l as [| e l IH]; intros Hnd; simpl; [constructor |].
  apply NoDup_cons in Hnd as [Hfresh Hnd].
  apply insert_entry_sorted; [now apply IH |].
  rewrite sort_entries_perm. apply Forall_forall. intros x Hx Heq.
  apply Hfresh. rewrite <- Heq. apply list_elem_of_fmap. now exists x.
Qed.

(** With distinct keys the insertion order is irrelevant. *)
Lemma sort_entries_unique l l' :
  Permutation l l' -> NoDup (map fst l) ->
  Cborg.sort_entries l = Cborg.sort_entries l'.
Proof.
  intros Hperm Hnd.
  apply (StronglySorted_unique key_lt).
  - now apply sort_entries_sorted.
  - apply sort_entries_sorted. now rewrite <- Hperm.
  - now rewrite !sort_entries_perm.
Qed.

End SortEntries.

Lemma insert_entry_map {A B} (f : A -> B) (e : string * A) (l : list (string * A)) :
  Cborg.insert_entry (e.1, f e.2) (map (fun x => (x.1, f x.2)) l)
  = map (fun x => (x.1, f x.2)) (Cborg.insert_entry e l).
Proof.
  induction l as [| x l IH]; simpl; [reflexivity |].
  destruct (String.leb e.1 x.1); simpl; [reflexivity | now rewrite IH].
Qed.

(** Sorting looks at the keys only. *)
Lemma sort_entries_map {A B} (f : A -> B) (l : list (string * A)) :
  Cborg.sort_entries (map (fun x => (x.1, f x.2)) l)
  = map (fun x => (x.1, f x.2)) (Cborg.sort_entries l).
Proof.
  induction l as [| e l IH]; simpl; [reflexivity |].
  rewrite IH. apply insert_entry_map.
Qed.

(* ===================================================================== *)
(** * The codec: decoding what was encoded *)
(* ===================================================================== *)

Lemma decode_item_step (fuel : nat) (ib : byte) (tail : bytes) :
  Cborg.decode_item (S fuel) (ib :: tail) =
  let major := (Byte.to_N ib / 32)%N in
  let ai := (Byte.to_N ib mod 32)%N in
  if (major =? 0)%N then
    match Cborg.decode_arg ai tail with
    | Some (n, r) => Some (VInt (Z.of_N n), r)
    | None => None
    end
  else if (major =? 1)%N then
    match Cborg.decode_arg ai tail with
    | Some (n, r) => Some (VInt (-1 - Z.of_N n), r)
    | None => None
    end
  else if (major =? 3)%N then
    match Cborg.decode_arg ai tail with
    | Some (n, r) =>
        match Cborg.take_bytes (N.to_nat n) r with
        | Some (s, r') => Some (VString (string_of_list_byte s), r')
        | None => None
        end
    | None => None
    end
  else if (major =? 4)%N then
    match Cborg.decode_arg ai tail with
    | Some (n, r) =>
        match Cborg.decode_seq (Cborg.decode_item fuel) (N.to_nat n) r with
        | Some (items, r') => Some (VArray items, r')
        | None => None
        end
    | None => None
    end
  else if (major =? 5)%N then
    match Cborg.decode_arg ai tail with
    | Some (n, r) =>
        match Cborg.decode_seq (Cborg.decode_entry (Cborg.decode_item fuel))
                (N.to_nat n) r with
        | Some (entries, r') => Some (VObject entries, r')
        | None => None
        end
    | None => None
    end
  else if (major =? 7)%N then
    if (ai =? 20)%N then Some (VBool false, tail)
    else if (ai =? 21)%N then Some (VBool true, tail)
    else if (ai =? 22)%N then Some (VNull, tail)
    else if (ai =? 23)%N then Some (VUndefined, tail)
    else if (ai =? 27)%N then
      match Cborg.take_bytes 8 tail with
      | Some (b, r) => Some (VFloat (Cborg.from_be b), r)
      | None => None
      end
    else None
  else None.
Proof. reflexivity. Qed.

Ltac decode_head_step major arg rest :=
  let ib := fresh "ib" in
  let tail := fresh "tail" in
  let Heq := fresh "Heq" in
  let Hm := fresh "Hm" in
  let Ha := fresh "Ha" in
  destruct (decode_head major arg rest) as (ib & tail & Heq & Hm & Ha);
  [lia | assumption |];
  rewrite Heq, decode_item_step; cbv zeta; rewrite Hm, Ha; cbn [N.eqb Pos.eqb].

Lemma decode_item_uint (fuel : nat) (arg : N) (rest : bytes) :
  (arg < 2 ^ 64)%N ->
  Cborg.decode_item (S fuel) (Cborg.head 0 arg ++ rest) = Some (VInt (Z.of_N arg), rest).
Proof. intros Harg. decode_head_step 0%N arg rest. reflexivity. Qed.

Lemma decode_item_negint (fuel : nat) (arg : N) (rest : bytes) :
  (arg < 2 ^ 64)%N ->
  Cborg.decode_item (S fuel) (Cborg.head 1 arg ++ rest)
  = Some (VInt (-1 - Z.of_N arg), rest).
Proof. intros Harg. decode_head_step 1%N arg rest. reflexivity. Qed.

Lemma decode_item_string (fuel : nat) (s : string) (rest : bytes) :
  (N.of_nat (length (list_byte_of_string s)) < 2 ^ 64)%N ->
  Cborg.decode_item (S fuel) (Cborg.encode_string s ++ rest) = Some (VString s, rest).
Proof.
  intros Harg. unfold Cborg.encode_string. rewrite <- app_assoc.
  decode_head_step 3%N (N.of_nat (length (list_byte_of_string s)))
                   (list_byte_of_string s ++ rest).
  rewrite Nat2N.id, take_bytes_app, string_of_list_byte_of_string. reflexivity.
Qed.

Lemma decode_item_array (fuel : nat) (arg : N) (rest : bytes) :
  (arg < 2 ^ 64)%N ->
  Cborg.decode_item (S fuel) (Cborg.head 4 arg ++ rest)
  = match Cborg.decode_seq (Cborg.decode_item fuel) (N.to_nat arg) rest with
    | Some (items, r') => Some (VArray items, r')
    | None => None
    end.
Proof. intros Harg. decode_head_step 4%N arg rest. reflexivity. Qed.

Lemma decode_item_object (fuel : nat) (arg : N) (rest : bytes) :
  (arg < 2 ^ 64)%N ->
  Cborg.decode_item (S fuel) (Cborg.head 5 arg ++ rest)
  = match Cborg.decode_seq (Cborg.decode_entry (Cborg.decode_item fuel))
            (N.to_nat arg) rest with
    | Some (entries, r') => Some (VObject entries, r')
    | None => None
    end.
Proof. intros Harg. decode_head_step 5%N arg rest. reflexivity. Qed.

Lemma decode_item_float (fuel : nat) (bits : N) (rest : bytes) :
  (bits < 2 ^ 64)%N ->
  Cborg.decode_item (S fuel) ((byte_of_N 0xfb :: Cborg.be 8 bits) ++ rest)
  = Some (VFloat bits, rest).
Proof.
  intros Hbits. rewrite <- app_comm_cons, decode_item_step. cbv zeta.
  replace (Byte.to_N (byte_of_N 251)) with 251%N by reflexivity.
  replace (251 / 32)%N with 7%N by reflexivity.
  replace (251 mod 32)%N with 27%N by reflexivity.
  cbn [N.eqb Pos.eqb].
  rewrite <- (length_be 8 bits) at 1. rewrite take_bytes_app, from_be_be; [reflexivity |].
  exact Hbits.
Qed.

(** The pattern of a float fits 64 bits and stands for the same number. *)
Lemma float_pattern_lt (bits : N) : (Cborg.float_pattern bits < 2 ^ 64)%N.
Proof.
  unfold Cborg.float_pattern. cbv zeta.
  pose proof (N.mod_lt bits (2 ^ 64) ltac:(discriminate)) as Hb.
  destruct (_ && _); [reflexivity |].
  destruct (_ =? _)%N; [reflexivity | exact Hb].
Qed.

Lemma float_value_mod (bits : N) : float_value (bits mod 2 ^ 64) = float_value bits.
Proof. unfold float_value. now rewrite N.Div0.mod_mod. Qed.

Lemma float_value_pattern (bits : N) :
  float_value (Cborg.float_pattern bits) = float_value bits.
Proof.
  rewrite <- (float_value_mod bits). unfold Cborg.float_pattern. cbv zeta.
  set (b := (bits mod 2 ^ 64)%N).
  destruct (((b / 2 ^ 52) mod 2 ^ 11 =? 2047)%N && negb (b mod 2 ^ 52 =? 0)%N) eqn:Hnan.
  - apply andb_true_iff in Hnan as [He Hf].
    apply N.eqb_eq in He. apply negb_true_iff, N.eqb_neq in Hf.
    unfold float_value. subst b. rewrite N.Div0.mod_mod.
    set (b := (bits mod 2 ^ 64)%N) in *.
    assert (HeZ : (Z.of_N b / 2 ^ 52) mod 2 ^ 11 = 2047).
    { change (2 ^ 52) with (Z.of_N (2 ^ 52)). change (2 ^ 11) with (Z.of_N (2 ^ 11)).
      rewrite <- N2Z.inj_div, <- N2Z.inj_mod, He. reflexivity. }
    assert (HfZ : Z.of_N b mod 2 ^ 52 <> 0).
    { change (2 ^ 52) with (Z.of_N (2 ^ 52)). rewrite <- N2Z.inj_mod. lia. }
    cbv zeta. rewrite HeZ. cbn [Z.eqb Pos.eqb].
    destruct (Z.eqb_spec (Z.of_N b mod 2 ^ 52) 0); [contradiction | reflexivity].
  - destruct (N.eqb_spec b (2 ^ 63)) as [-> | _]; reflexivity.
Qed.

(** The fields of a binary64 pattern. *)
Lemma float_fields (z : Z) :
  0 <= z < 2 ^ 64 ->
  0 <= (z / 2 ^ 52) mod 2 ^ 11 < 2048 /\ 0 <= z mod 2 ^ 52 < 2 ^ 52 /\
  z = (if 2 ^ 63 <=? z then 2 ^ 63 else 0) + (z / 2 ^ 52) mod 2 ^ 11 * 2 ^ 52 + z mod 2 ^ 52.
Proof.
  intros Hz.
  change (2 ^ 64) with 18446744073709551616 in Hz.
  change (2 ^ 63) with 9223372036854775808.
  change (2 ^ 52) with 4503599627370496.
  change (2 ^ 11) with 2048.
  pose proof (Z.div_mod z 4503599627370496 ltac:(lia)) as Hq.
  pose proof (Z.mod_pos_bound z 4503599627370496 ltac:(lia)) as Hf.
  set (q := z / 4503599627370496) in *. set (f := z mod 4503599627370496) in *.
  pose proof (Z.div_mod q 2048 ltac:(lia)) as Hs.
  pose proof (Z.mod_pos_bound q 2048 ltac:(lia)) as He.
  set (s := q / 2048) in *. set (e := q mod 2048) in *.
  assert (0 <= s < 2) by lia.
  destruct (Z.leb_spec 9223372036854775808 z); lia.
Qed.

Lemma xreal_eq_dec (a b : xreal) : {a = b} + {a <> b}.
Proof. decide equality; apply Z.eq_dec. Qed.

(** Two patterns of the same number, if it is a number other than zero,
    are the same pattern. *)
Lemma float_value_inj (bits1 bits2 : N) :
  (bits1 < 2 ^ 64)%N -> (bits2 < 2 ^ 64)%N ->
  float_value bits1 = float_value bits2 ->
  float_value bits1 <> XNaN -> float_value bits1 <> XFin 0 (-1074) ->
  bits1 = bits2.
Proof.
  intros H1 H2. unfold float_value. rewrite !N.mod_small by assumption. cbv zeta.
  assert (Hz1 : 0 <= Z.of_N bits1 < 2 ^ 64) by (change (2 ^ 64) with (Z.of_N (2 ^ 64)); lia).
  assert (Hz2 : 0 <= Z.of_N bits2 < 2 ^ 64) by (change (2 ^ 64) with (Z.of_N (2 ^ 64)); lia).
  destruct (float_fields _ Hz1) as (He1 & Hf1 & Hd1).
  destruct (float_fields _ Hz2) as (He2 & Hf2 & Hd2).
  revert He1 Hf1 Hd1 He2 Hf2 Hd2.
  generalize ((Z.of_N bits1 / 2 ^ 52) mod 2 ^ 11) (Z.of_N bits1 mod 2 ^ 52)
             ((Z.of_N bits2 / 2 ^ 52) mod 2 ^ 11) (Z.of_N bits2 mod 2 ^ 52).
  intros e1 f1 e2 f2.
  change (2 ^ 63) with 9223372036854775808. change (2 ^ 52) with 4503599627370496.
  intros He1 Hf1 Hd1 He2 Hf2 Hd2 Heq Hnan Hzero.
  apply N2Z.inj.
  destruct (Z.leb_spec 9223372036854775808 (Z.of_N bits1)),
           (Z.leb_spec 9223372036854775808 (Z.of_N bits2)),
           (Z.eqb_spec e1 2047), (Z.eqb_spec e2 2047),
           (Z.eqb_spec f1 0), (Z.eqb_spec f2 0),
           (Z.eqb_spec e1 0), (Z.eqb_spec e2 0);
    try discriminate Heq; try (exfalso; apply Hnan; reflexivity);
    try (exfalso; apply Hzero; subst; reflexivity);
    try lia; injection Heq; intros; try lia;
    exfalso; apply Hzero; subst; f_equal; lia.
Qed.

(** The fields of a pattern, read on [N] as the encoder does or on [Z] as
    the value does. *)
Lemma float_fields_N (b : N) :
  (Z.of_N b / 2 ^ 52) mod 2 ^ 11 = Z.of_N ((b / 2 ^ 52) mod 2 ^ 11) /\
  Z.of_N b mod 2 ^ 52 = Z.of_N (b mod 2 ^ 52).
Proof.
  change (2 ^ 52) with (Z.of_N (2 ^ 52)). change (2 ^ 11) with (Z.of_N (2 ^ 11)).
  now rewrite <- N2Z.inj_div, <- !N2Z.inj_mod.
Qed.

Lemma float_pattern_NaN (bits : N) :
  float_value bits = XNaN -> Cborg.float_pattern bits = 0x7ff8000000000000%N.
Proof.
  unfold float_value, Cborg.float_pattern. cbv zeta.
  set (b := (bits mod 2 ^ 64)%N).
  destruct (float_fields_N b) as [-> ->].
  destruct (N.eqb_spec ((b / 2 ^ 52) mod 2 ^ 11) 2047) as [He | He];
    destruct (N.eqb_spec (b mod 2 ^ 52) 0) as [Hf | Hf]; cbn [andb negb];
    try reflexivity.
  - rewrite He, Hf. cbn [Z.of_N Z.eqb Pos.eqb]. destruct (_ <=? _); discriminate.
  - destruct (Z.eqb_spec (Z.of_N ((b / 2 ^ 52) mod 2 ^ 11)) 2047); [lia | discriminate].
  - destruct (Z.eqb_spec (Z.of_N ((b / 2 ^ 52) mod 2 ^ 11)) 2047); [lia | discriminate].
Qed.

Lemma float_pattern_zero (bits : N) :
  float_value bits = XFin 0 (-1074) -> Cborg.float_pattern bits = 0%N.
Proof.
  intros Hzero.
  assert (Hb : (bits mod 2 ^ 64 = 0 \/ bits mod 2 ^ 64 = 2 ^ 63)%N).
  { pose proof (N.mod_lt bits (2 ^ 64) ltac:(discriminate)) as Hlt.
    unfold float_value in Hzero. cbv zeta in Hzero.
    set (b := (bits mod 2 ^ 64)%N) in *.
    assert (Hz : 0 <= Z.of_N b < 2 ^ 64) by (change (2 ^ 64) with (Z.of_N (2 ^ 64)); lia).
    destruct (float_fields _ Hz) as (He & Hf & Hd).
    revert He Hf Hd Hzero.
    generalize ((Z.of_N b / 2 ^ 52) mod 2 ^ 11) (Z.of_N b mod 2 ^ 52). intros e f.
    change (2 ^ 63) with 9223372036854775808. change (2 ^ 52) with 4503599627370496.
    intros He Hf Hd Hzero.
    assert (Hfields : e = 0 /\ f = 0).
    { destruct (Z.eqb_spec e 2047);
        [destruct (f =? 0), (_ <=? _); discriminate Hzero |].
      destruct (Z.eqb_spec e 0), (9223372036854775808 <=? Z.of_N b);
        injection Hzero; intros; lia. }
    destruct Hfields as [-> ->].
    destruct (Z.leb_spec 9223372036854775808 (Z.of_N b)); [right | left];
      apply N2Z.inj; rewrite Hd; reflexivity. }
  unfold Cborg.float_pattern. cbv zeta. destruct Hb as [-> | ->]; reflexivity.
Qed.

(** The encoder has one pattern for a number: two floats that stand for the
    same number are written with the same 64 bits. *)
Lemma float_pattern_one_per_number (bits1 bits2 : N) :
  float_value bits1 = float_value bits2 <->
  Cborg.float_pattern bits1 = Cborg.float_pattern bits2.
Proof.
  split.
  - intros Heq.
    destruct (xreal_eq_dec (float_value bits1) XNaN) as [Hnan | Hnan].
    { rewrite (float_pattern_NaN bits1 Hnan).
      rewrite Heq in Hnan. now rewrite (float_pattern_NaN bits2 Hnan). }
    destruct (xreal_eq_dec (float_value bits1) (XFin 0 (-1074))) as [Hzero | Hzero].
    { rewrite (float_pattern_zero bits1 Hzero).
      rewrite Heq in Hzero. now rewrite (float_pattern_zero bits2 Hzero). }
    apply float_value_inj; try apply float_pattern_lt;
      rewrite !float_value_pattern; assumption.
  - intros Heq. rewrite <- (float_value_pattern bits1), <- (float_value_pattern bits2).
    now rewrite Heq.
Qed.

(** A sequence of items, each of which decodes to its canonical form. *)
Lemma decode_seq_items (dec : bytes -> option (value * bytes)) (items : list value) :
  Forall (fun x => forall rest, dec (Cborg.encode x ++ rest) = Some (canonical x, rest))
         items ->
  forall rest,
    Cborg.decode_seq dec (length items) (concat (map Cborg.encode items) ++ rest)
    = Some (map canonical items, rest).
Proof.
  induction 1 as [| x l Hx _ IH]; intros rest; simpl; [reflexivity |].
  rewrite <- app_assoc, Hx, IH. reflexivity.
Qed.

Lemma decode_seq_entries (dec : bytes -> option (value * bytes))
  (entries : list (string * value)) :
  (forall s rest, (N.of_nat (length (list_byte_of_string s)) < 2 ^ 64)%N ->
     dec (Cborg.encode_string s ++ rest) = Some (VString s, rest)) ->
  Forall (fun e =>
            (N.of_nat (length (list_byte_of_string e.1)) < 2 ^ 64)%N /\
            forall rest, dec (Cborg.encode e.2 ++ rest) = Some (canonical e.2, rest))
         entries ->
  forall rest,
    Cborg.decode_seq (Cborg.decode_entry dec) (length entries)
      (concat (map (fun e => Cborg.encode_string e.1 ++ e.2)
                 (map (fun e => (e.1, Cborg.encode e.2)) entries)) ++ rest)
    = Some (map (fun e => (e.1, canonical e.2)) entries, rest).
Proof.
  intros Hkey. induction 1 as [| [k x] l [Hk Hx] _ IH]; intros rest; simpl;
    [reflexivity |].
  simpl in Hk, Hx. unfold Cborg.decode_entry at 1.
  rewrite <- !app_assoc, (Hkey k _ Hk), Hx, IH. reflexivity.
Qed.

Lemma list_max_elem (l : list nat) (n : nat) : n ∈ l -> (n <= list_max l)%nat.
Proof.
  intros Hin. pose proof (proj1 (list_max_le l (list_max l)) (Nat.le_refl _)) as Hall.
  rewrite List.Forall_forall in Hall. apply Hall. now apply list_elem_of_In.
Qed.

Lemma decode_item_encode (v : value) :
  structurally_valid v = true ->
  forall (fuel : nat) (rest : bytes),
    (depth v < fuel)%nat ->
    Cborg.decode_item fuel (Cborg.encode v ++ rest) = Some (canonical v, rest).
Proof.
  induction v as [ | | b | n | bits | s | items IH | entries IH ] using value_induction;
    intros Hvalid fuel rest Hfuel; (destruct fuel as [| f]; [lia |]);
    simpl in Hvalid.
  - discriminate.
  - reflexivity.
  - destruct b; reflexivity.
  - apply andb_true_iff in Hvalid as [Hlo Hhi].
    apply Z.leb_le in Hlo, Hhi. cbn [Cborg.encode canonical].
    destruct (Z.leb_spec 0 n).
    + rewrite decode_item_uint by lia. now rewrite Z2N.id.
    + rewrite decode_item_negint by lia. rewrite Z2N.id by lia. repeat f_equal. lia.
  - cbn [Cborg.encode canonical]. apply decode_item_float, float_pattern_lt.
  - apply N.ltb_lt in Hvalid. now apply decode_item_string.
  - apply andb_true_iff in Hvalid as [Hlen Hall]. apply N.ltb_lt in Hlen.
    cbn [Cborg.encode canonical]. rewrite <- app_assoc.
    rewrite decode_item_array, Nat2N.id by assumption.
    rewrite decode_seq_items; [reflexivity |].
    rewrite forallb_forall in Hall. rewrite List.Forall_forall in IH.
    apply List.Forall_forall. intros x Hx rest'.
    apply IH; [assumption | now apply Hall |].
    simpl in Hfuel.
    assert (depth x <= list_max (map depth items))%nat; [| lia].
    apply list_max_elem, list_elem_of_fmap. exists x.
    split; [reflexivity | now apply list_elem_of_In].
  - apply andb_true_iff in Hvalid as [Hlen Hall]. apply N.ltb_lt in Hlen.
    cbn [Cborg.encode canonical]. rewrite <- app_assoc.
    rewrite decode_item_object, Nat2N.id by assumption.
    rewrite !sort_entries_map.
    rewrite <- (Permutation_length (sort_entries_perm entries)).
    simpl in Hfuel. destruct f as [| f]; [lia |].
    rewrite decode_seq_entries; [reflexivity | |].
    + intros s rest' Hs. now apply decode_item_string.
    + rewrite sort_entries_perm.
      rewrite forallb_forall in Hall. rewrite List.Forall_forall in IH.
      apply List.Forall_forall. intros e He.
      specialize (Hall e He). apply andb_true_iff in Hall as [Hk Hv].
      apply N.ltb_lt in Hk. split; [assumption |].
      intros rest'. apply IH; [assumption | assumption |].
      assert (depth e.2 <= list_max (map (fun e => depth e.2) entries))%nat; [| lia].
      apply list_max_elem, list_elem_of_fmap. exists e.
      split; [reflexivity | now apply list_elem_of_In].
Qed.

Lemma length_head_pos (major arg : N) : (1 <= length (Cborg.head major arg))%nat.
Proof.
  unfold Cborg.head.
  repeat match goal with |- context [if ?c then _ else _] => destruct c end;
    simpl; lia.
Qed.

Lemma length_concat_elem {A} (x : list A) (l : list (list A)) :
  x ∈ l -> (length x <= length (concat l))%nat.
Proof.
  induction 1 as [x l | x y l _ IH]; simpl; rewrite length_app; lia.
Qed.

(** The nesting depth of a value is at most the length of its encoding, so
    the fuel [decode] starts with is enough. *)
Lemma depth_le_length (v : value) : (depth v <= length (Cborg.encode v))%nat.
Proof.
  induction v as [ | | b | n | bits | s | items IH | entries IH ] using value_induction;
    try (simpl; lia).
  - cbn [depth Cborg.encode]. rewrite length_app.
    pose proof (length_head_pos 4 (N.of_nat (length items))).
    assert (list_max (map depth items) <= length (concat (map Cborg.encode items)))%nat;
      [| lia].
    apply list_max_le, List.Forall_forall. intros d Hd.
    apply in_map_iff in Hd as (x & <- & Hx).
    rewrite List.Forall_forall in IH. specialize (IH x Hx).
    etransitivity; [exact IH |].
    apply length_concat_elem, list_elem_of_fmap. exists x.
    split; [reflexivity | now apply list_elem_of_In].
  - cbn [depth Cborg.encode]. rewrite length_app, sort_entries_map.
    pose proof (length_head_pos 5 (N.of_nat (length entries))).
    match goal with |- (_ <= _ + length (concat ?l))%nat =>
      assert (list_max (map (fun e => depth e.2) entries) <= length (concat l))%nat;
        [| lia]
    end.
    apply list_max_le, List.Forall_forall. intros d Hd.
    apply in_map_iff in Hd as (e & <- & He).
    rewrite List.Forall_forall in IH. specialize (IH e He).
    transitivity (length (Cborg.encode_string e.1 ++ Cborg.encode e.2));
      [rewrite length_app; lia |].
    apply length_concat_elem.
    apply list_elem_of_fmap. exists (e.1, Cborg.encode e.2). split; [reflexivity |].
    apply list_elem_of_fmap. exists e. split; [reflexivity |].
    rewrite sort_entries_perm. now apply list_elem_of_In.
Qed.

Lemma decode_encode (v : value) :
  structurally_valid v = true -> Cborg.decode (Cborg.encode v) = Some (canonical v).
Proof.
  intros Hvalid. unfold Cborg.decode.
  rewrite <- (app_nil_r (Cborg.encode v)) at 2.
  rewrite (decode_item_encode v Hvalid); [reflexivity |].
  pose proof (depth_le_length v). lia.
Qed.

(** ** Canonical form and deep equality *)

Lemma deep_equal_canonical (v : value) : deep_equal (canonical v) v.
Proof.
  induction v as [ | | b | n | bits | s | items IH | entries IH ] using value_induction;
    try constructor.
  - apply float_value_pattern.
  - induction IH as [| x l Hx _ IHl]; simpl; constructor; assumption.
  - cbn [canonical]. rewrite sort_entries_map.
    apply de_object with (e2' := Cborg.sort_entries entries);
      [symmetry; apply sort_entries_perm |].
    rewrite <- (sort_entries_perm entries) in IH.
    induction IH as [| e l He _ IHl]; simpl; constructor; [| assumption].
    split; [reflexivity | assumption].
Qed.

Lemma structurally_valid_no_undefined (v : value) :
  structurally_valid v = true -> has_undefined v = false.
Proof.
  induction v as [ | | b | n | bits | s | items IH | entries IH ] using value_induction;
    simpl; intros Hvalid; try reflexivity; try discriminate.
  - apply andb_true_iff in Hvalid as [_ Hall].
    induction IH as [| x l Hx _ IHl]; simpl in *; [reflexivity |].
    apply andb_true_iff in Hall as [Hvx Hvl].
    now rewrite Hx, IHl.
  - apply andb_true_iff in Hvalid as [_ Hall].
    induction IH as [| e l He _ IHl]; simpl in *; [reflexivity |].
    apply andb_true_iff in Hall as [Hve Hvl].
    apply andb_true_iff in Hve as [_ Hve].
    now rewrite He, IHl.
Qed.

Lemma encodeCbor_no_undefined (v : value) :
  has_undefined v = false -> encodeCbor v = Ok (Cborg.encode v).
Proof.
  intros Hnone. unfold encodeCbor.
  pose proof (assertNoUndefined_spec v []) as Hspec. unfold absence_checked in Hspec.
  rewrite Hnone in Hspec. now rewrite Hspec.
Qed.

(** C3. For every structurally valid value [v] (no absent marker, integers
    in the safe range), [decodeCbor (encodeCbor v)] succeeds and returns [v]
    in canonical form, that is with the keys of its objects in canonical
    order and its floats in the one pattern of their number: the value [v]
    of the data model, the same mapping whatever the insertion order, with
    the same numbers. *)
Theorem decodeCbor_encodeCbor :
  forall v : value,
    structurally_valid v = true ->
    exists (encoded : bytes) (decoded : value),
      encodeCbor v = Ok encoded /\
      decodeCbor encoded = Ok decoded /\
      decoded = canonical v /\
      deep_equal decoded v.
Proof.
  intros v Hvalid. exists (Cborg.encode v), (canonical v).
  split; [| split; [| split]].
  - now apply encodeCbor_no_undefined, structurally_valid_no_undefined.
  - unfold decodeCbor. now rewrite decode_encode.
  - reflexivity.
  - apply deep_equal_canonical.
Qed.

Lemma decodeCbor_encodeCbor_witness :
  structurally_valid example_value = true /\
  exists (encoded : bytes) (decoded : value),
    encodeCbor example_value = Ok encoded /\
    decodeCbor encoded = Ok decoded /\
    decoded = canonical example_value /\
    deep_equal decoded example_value.
Proof.
  split; [vm_compute; reflexivity |].
  apply (decodeCbor_encodeCbor example_value). vm_compute. reflexivity.
Defined.

(** The encoder on small inputs: [{a: 1, z: 2}] is [a2 61 61 01 61 7a 02]
    whatever the insertion order, and decodes to itself. *)
Example encode_a1_z2 :
  Cborg.encode (VObject [("z", VInt 2); ("a", VInt 1)])
  = map byte_of_N [0xa2; 0x61; 0x61; 0x01; 0x61; 0x7a; 0x02]%N
  /\ Cborg.encode (VObject [("a", VInt 1); ("z", VInt 2)])
     = Cborg.encode (VObject [("z", VInt 2); ("a", VInt 1)])
  /\ decodeCbor (Cborg.encode (VObject [("z", VInt 2); ("a", VInt 1)]))
     = Ok (VObject [("a", VInt 1); ("z", VInt 2)]).
Proof. repeat split. Qed.

(** One pattern for a number: the two zeros have the same bytes, and so
    have two patterns that are not a number; bytes after an item are
    refused. *)
Example encode_floats :
  Cborg.encode (VFloat 0x8000000000000000)
  = map byte_of_N [0xfb; 0; 0; 0; 0; 0; 0; 0; 0]%N /\
  Cborg.encode (VFloat 0) = Cborg.encode (VFloat 0x8000000000000000) /\
  Cborg.encode (VFloat 0x7ff0000000000001) = Cborg.encode (VFloat 0xfff8000000000000) /\
  decodeCbor (Cborg.encode (VFloat 0x8000000000000000)) = Ok (VFloat 0) /\
  decodeCbor (map byte_of_N [0x01; 0x02]%N) = Throw DecodingError.
Proof. repeat split. Qed.

Example encode_shortest_integers :
  Cborg.encode (VInt 23) = map byte_of_N [0x17]%N /\
  Cborg.encode (VInt 24) = map byte_of_N [0x18; 0x18]%N /\
  Cborg.encode (VInt 2000000000) = map byte_of_N [0x1a; 0x77; 0x35; 0x94; 0x00]%N /\
  Cborg.encode (VInt (-25)) = map byte_of_N [0x38; 0x18]%N.
Proof. repeat split. Qed.

(* ===================================================================== *)
(** * Byte utilities: rendering and parsing hex *)
(* ===================================================================== *)

Lemma append_cons (c : ascii) (s t : string) : String c s +:+ t = String c (s +:+ t).
Proof. reflexivity. Qed.

Lemma append_nil_r (s : string) : s +:+ EmptyString = s.
Proof. induction s as [| c s IH]; [reflexivity | now rewrite append_cons, IH]. Qed.

Lemma append_assoc (s1 s2 s3 : string) : (s1 +:+ s2) +:+ s3 = s1 +:+ (s2 +:+ s3).
Proof. induction s1 as [| c s1 IH]; [reflexivity | now rewrite !append_cons, IH]. Qed.

Lemma length_append (s1 s2 : string) :
  String.length (s1 +:+ s2) = (String.length s1 + String.length s2)%nat.
Proof.
  induction s1 as [| c s1 IH]; [reflexivity |].
  rewrite append_cons. cbn [String.length]. now rewrite IH.
Qed.

Lemma concat_empty_cons (x : string) (xs : list string) :
  String.concat EmptyString (x :: xs) = x +:+ String.concat EmptyString xs.
Proof. destruct xs; simpl; [symmetry; apply append_nil_r | reflexivity]. Qed.

Lemma nibble_cases (n : N) (P : N -> Prop) :
  (n < 16)%N ->
  P 0%N -> P 1%N -> P 2%N -> P 3%N -> P 4%N -> P 5%N -> P 6%N -> P 7%N ->
  P 8%N -> P 9%N -> P 10%N -> P 11%N -> P 12%N -> P 13%N -> P 14%N -> P 15%N ->
  P n.
Proof.
  intros Hn. rewrite <- (N2Nat.id n).
  assert (Hk : (N.to_nat n < 16)%nat) by lia.
  revert Hk. generalize (N.to_nat n) as k. intros k Hk.
  do 16 (destruct k as [| k]; [intros; assumption |]). lia.
Qed.

Lemma hex_digit_value_hex_digit (n : N) :
  (n < 16)%N -> hex_digit_value (hex_digit n) = Some n.
Proof. intros Hn. apply (nibble_cases n); [assumption | reflexivity ..]. Qed.

Lemma hex_digit_value_upper (n : N) :
  (n < 16)%N -> hex_digit_value (ascii_toUpperCase (hex_digit n)) = Some n.
Proof. intros Hn. apply (nibble_cases n); [assumption | reflexivity ..]. Qed.

(** [toString(16)] then [padStart(2, "0")] is the two-digit rendering. *)
Lemma padStart_byte_toString16 (b : byte) :
  padStart 2 "0" (byte_toString16 b) = hex_of_byte b.
Proof.
  unfold byte_toString16, hex_of_byte.
  destruct (N.ltb_spec (Byte.to_N b) 16) as [Hlt | Hge].
  - rewrite N.div_small, N.mod_small by assumption. reflexivity.
  - reflexivity.
Qed.

Lemma concat_padStart (bs : bytes) :
  String.concat EmptyString (map (fun b => padStart 2 "0" (byte_toString16 b)) bs) = hex_of_bytes bs.
Proof.
  induction bs as [| b bs IH]; [reflexivity |].
  cbn [map]. rewrite concat_empty_cons, IH, padStart_byte_toString16. reflexivity.
Qed.

Lemma render_hex_lower (bs : bytes) : render_hex hex_digit bs = hex_of_bytes bs.
Proof. induction bs as [| b bs IH]; simpl; [reflexivity | now rewrite IH]. Qed.

Lemma render_hex_upper (bs : bytes) :
  render_hex (fun n => ascii_toUpperCase (hex_digit n)) bs = toUpperCase (hex_of_bytes bs).
Proof. induction bs as [| b bs IH]; simpl; [reflexivity | now rewrite IH]. Qed.

Lemma length_render_hex (digit : N -> ascii) (bs : bytes) :
  String.length (render_hex digit bs) = (2 * length bs)%nat.
Proof. induction bs as [| b bs IH]; simpl; [reflexivity | rewrite IH; lia]. Qed.

Lemma byte_of_nibbles (b : byte) :
  byte_of_N (Byte.to_N b / 16 * 16 + Byte.to_N b mod 16)%N = b.
Proof.
  replace (Byte.to_N b / 16 * 16 + Byte.to_N b mod 16)%N with (Byte.to_N b)
    by (rewrite (N.div_mod (Byte.to_N b) 16) at 1; lia).
  apply byte_to_N_inj. apply to_N_byte_of_N_small, byte_to_N_lt.
Qed.

Section RenderHex.
Variable digit : N -> ascii.
Hypothesis digit_value : forall n, (n < 16)%N -> hex_digit_value (digit n) = Some n.

Lemma parse_render_hex (bs : bytes) : parse_hex_pairs (render_hex digit bs) = bs.
Proof.
  induction bs as [| b bs IH]; [reflexivity |].
  destruct (byte_nibbles b) as [Hhi Hlo].
  cbn [render_hex parse_hex_pairs].
  rewrite (digit_value _ Hhi), (digit_value _ Hlo), IH, byte_of_nibbles. reflexivity.
Qed.

Lemma render_hex_all_hex (bs : bytes) :
  string_forallb is_hex_digit (render_hex digit bs) = true.
Proof.
  induction bs as [| b bs IH]; [reflexivity |].
  destruct (byte_nibbles b) as [Hhi Hlo].
  cbn [render_hex string_forallb]. unfold is_hex_digit at 1 2.
  rewrite (digit_value _ Hhi), (digit_value _ Hlo), IH. reflexivity.
Qed.

End RenderHex.

(** [strip_0x] by comparisons of characters. *)
Lemma strip_0x_cons (c1 c2 : ascii) (rest : string) :
  strip_0x (String c1 (String c2 rest)) =
  if Ascii.eqb c1 "0" && (Ascii.eqb c2 "x" || Ascii.eqb c2 "X")
  then rest else String c1 (String c2 rest).
Proof.
  destruct c1 as [[] [] [] [] [] [] [] []]; try reflexivity;
    destruct c2 as [[] [] [] [] [] [] [] []]; reflexivity.
Qed.

Lemma hex_digit_not_x (c : ascii) :
  is_hex_digit c = true -> Ascii.eqb c "x" = false /\ Ascii.eqb c "X" = false.
Proof.
  intros Hc. split; apply Ascii.eqb_neq; intros ->; discriminate.
Qed.

Lemma strip_0x_render_hex (digit : N -> ascii) (bs : bytes) :
  (forall n, (n < 16)%N -> hex_digit_value (digit n) = Some n) ->
  strip_0x (render_hex digit bs) = render_hex digit bs.
Proof.
  intros Hdigit. destruct bs as [| b bs]; [reflexivity |].
  cbn [render_hex]. rewrite strip_0x_cons.
  destruct (byte_nibbles b) as [_ Hlo].
  destruct (hex_digit_not_x (digit (Byte.to_N b mod 16)%N)) as [-> ->].
  - unfold is_hex_digit. now rewrite (Hdigit _ Hlo).
  - now rewrite andb_false_r.
Qed.

Lemma hexToBytes_render_hex (digit : N -> ascii) (bs : bytes) :
  (forall n, (n < 16)%N -> hex_digit_value (digit n) = Some n) ->
  hexToBytes (render_hex digit bs) =
  match bs with
  | [] => Throw (Error "hex string is empty")
  | _ => Ok bs
  end.
Proof.
  intros Hdigit. unfold hexToBytes.
  rewrite (strip_0x_render_hex digit bs Hdigit), length_render_hex.
  destruct bs as [| b bs]; [reflexivity |].
  replace (2 * length (b :: bs))%nat with (S (S (2 * length bs))) by (simpl; lia).
  cbn [Nat.eqb].
  replace (S (S (2 * length bs)) mod 2)%nat with 0%nat
    by (symmetry; apply Nat.Div0.mod_divides; exists (S (length bs)); lia).
  cbn [Nat.eqb negb].
  rewrite (render_hex_all_hex digit Hdigit), (parse_render_hex digit Hdigit). reflexivity.
Qed.

Lemma hexToBytes_0x (s : string) :
  strip_0x s = s -> hexToBytes ("0x" +:+ s) = hexToBytes s.
Proof. intros Hs. unfold hexToBytes. simpl. now rewrite Hs. Qed.

Lemma hexToBytes_rendered :
  forall (bs : bytes) (opts : option BytesToHexOpts),
    hexToBytes (bytesToHex bs opts) =
    match bs with
    | [] => Throw (Error "hex string is empty")
    | _ => Ok bs
    end.
Proof.
  intros bs opts. unfold bytesToHex. rewrite concat_padStart.
  assert (Hlower := hexToBytes_render_hex hex_digit bs hex_digit_value_hex_digit).
  assert (Hupper := hexToBytes_render_hex _ bs hex_digit_value_upper).
  rewrite render_hex_lower in Hlower. rewrite render_hex_upper in Hupper.
  assert (Hsl := strip_0x_render_hex hex_digit bs hex_digit_value_hex_digit).
  assert (Hsu := strip_0x_render_hex _ bs hex_digit_value_upper).
  rewrite render_hex_lower in Hsl. rewrite render_hex_upper in Hsu.
  destruct (default false (opts ≫= opt_uppercase)),
           (default false (opts ≫= opt_prefix));
    rewrite ?hexToBytes_0x by assumption; assumption.
Qed.

(** X1. Parsing what [bytesToHex] renders gives the bytes back, whatever
    the options (prefix, uppercase), except for the empty array: its
    rendering is refused by [hexToBytes]. *)
Theorem hexToBytes_bytesToHex :
  forall (bs : bytes) (opts : option BytesToHexOpts),
    hexToBytes (bytesToHex bs opts) =
    match bs with
    | [] => Throw (Error "hex string is empty")
    | _ => Ok bs
    end.
Proof. exact hexToBytes_rendered. Qed.

Lemma string_pair_ind (P : string -> Prop) :
  P EmptyString -> (forall c, P (String c EmptyString)) ->
  (forall a b s, P s -> P (String a (String b s))) -> forall s, P s.
Proof.
  intros H0 H1 H2 s. enough (P s /\ forall c, P (String c s)) by tauto.
  induction s as [| c s [IH1 IH2]]; split; auto.
Qed.

(** What is known of a character that is a hex digit. *)
Lemma hex_digit_value_cases (a : ascii) (h : N) :
  hex_digit_value a = Some h ->
  (h < 16)%N /\
  ascii_toUpperCase (hex_digit h) = ascii_toUpperCase a /\
  is_white_space a = false /\ Ascii.eqb a "-" = false /\ Ascii.eqb a "+" = false /\
  (is_lower_hex a = true -> hex_digit h = a).
Proof.
  destruct a as [[] [] [] [] [] [] [] []]; intros H; vm_compute in H;
    first [ discriminate H
          | injection H as <-; vm_compute; repeat split; intros; congruence ].
Qed.

Lemma nibbles_of_byte_of_N (h l : N) :
  (h < 16)%N -> (l < 16)%N ->
  (Byte.to_N (byte_of_N (h * 16 + l)) / 16 = h)%N /\
  (Byte.to_N (byte_of_N (h * 16 + l)) mod 16 = l)%N.
Proof.
  intros Hh Hl. rewrite to_N_byte_of_N_small by lia. split.
  - rewrite N.add_comm, N.div_add by lia. rewrite N.div_small by lia. lia.
  - rewrite N.add_comm, N.Div0.mod_add. now apply N.mod_small.
Qed.

Lemma length_parse_hex_pairs (s : string) :
  string_forallb is_hex_digit s = true ->
  (2 * length (parse_hex_pairs s) + String.length s mod 2 = String.length s)%nat.
Proof.
  induction s as [| c | a b s IH] using string_pair_ind; [reflexivity .. |].
  cbn [string_forallb]. unfold is_hex_digit at 1 2.
  destruct (hex_digit_value a) as [h |] eqn:Ha; [| discriminate].
  destruct (hex_digit_value b) as [l |] eqn:Hb; [| discriminate].
  intros Hs. cbn [andb] in Hs. specialize (IH Hs).
  cbn [parse_hex_pairs]. rewrite Ha, Hb.
  cbn [length String.length].
  replace (S (S (String.length s))) with (String.length s + 1 * 2)%nat by lia.
  rewrite Nat.Div0.mod_add. lia.
Qed.

Lemma render_parse_upper (s : string) :
  string_forallb is_hex_digit s = true ->
  (String.length s mod 2 = 0)%nat ->
  render_hex (fun n => ascii_toUpperCase (hex_digit n)) (parse_hex_pairs s) = toUpperCase s.
Proof.
  induction s as [| c | a b s IH] using string_pair_ind; [reflexivity | discriminate |].
  cbn [string_forallb]. unfold is_hex_digit at 1 2.
  destruct (hex_digit_value a) as [h |] eqn:Ha; [| discriminate].
  destruct (hex_digit_value b) as [l |] eqn:Hb; [| discriminate].
  intros Hs Hlen. cbn [andb] in Hs.
  cbn [String.length] in Hlen.
  replace (S (S (String.length s))) with (String.length s + 1 * 2)%nat in Hlen by lia.
  rewrite Nat.Div0.mod_add in Hlen.
  cbn [parse_hex_pairs]. rewrite Ha, Hb. cbn [render_hex toUpperCase].
  destruct (hex_digit_value_cases a h Ha) as (Hh & Hua & _).
  destruct (hex_digit_value_cases b l Hb) as (Hl & Hub & _).
  destruct (nibbles_of_byte_of_N h l Hh Hl) as [-> ->].
  now rewrite Hua, Hub, IH.
Qed.

Lemma render_parse_lower (s : string) :
  string_forallb is_hex_digit s = true ->
  string_forallb is_lower_hex s = true ->
  (String.length s mod 2 = 0)%nat ->
  render_hex hex_digit (parse_hex_pairs s) = s.
Proof.
  induction s as [| c | a b s IH] using string_pair_ind; [reflexivity | discriminate |].
  cbn [string_forallb]. unfold is_hex_digit at 1 2.
  destruct (hex_digit_value a) as [h |] eqn:Ha; [| discriminate].
  destruct (hex_digit_value b) as [l |] eqn:Hb; [| discriminate].
  intros Hs Hlow Hlen. cbn [andb] in Hs.
  apply andb_true_iff in Hlow as [Hla Hlow]. apply andb_true_iff in Hlow as [Hlb Hlow].
  cbn [String.length] in Hlen.
  replace (S (S (String.length s))) with (String.length s + 1 * 2)%nat in Hlen by lia.
  rewrite Nat.Div0.mod_add in Hlen.
  cbn [parse_hex_pairs]. rewrite Ha, Hb. cbn [render_hex].
  destruct (hex_digit_value_cases a h Ha) as (Hh & _ & _ & _ & _ & Hea).
  destruct (hex_digit_value_cases b l Hb) as (Hl & _ & _ & _ & _ & Heb).
  destruct (nibbles_of_byte_of_N h l Hh Hl) as [-> ->].
  now rewrite (Hea Hla), (Heb Hlb), IH.
Qed.

(** The three tests passed by an accepted input. *)
Lemma hexToBytes_Ok (hex : string) (bs : bytes) :
  hexToBytes hex = Ok bs ->
  String.length (strip_0x hex) <> 0%nat /\
  (String.length (strip_0x hex) mod 2 = 0)%nat /\
  string_forallb is_hex_digit (strip_0x hex) = true /\
  bs = parse_hex_pairs (strip_0x hex).
Proof.
  unfold hexToBytes.
  destruct (Nat.eqb_spec (String.length (strip_0x hex)) 0); [discriminate |].
  destruct (Nat.eqb_spec (String.length (strip_0x hex) mod 2) 0); [| discriminate].
  destruct (string_forallb is_hex_digit (strip_0x hex)); [| discriminate].
  cbn [negb]. intros [= <-]. auto.
Qed.

(** X2. What [hexToBytes] accepts is never empty, has one byte for every
    two characters that follow the optional prefix, and renders back to
    those characters: in upper case with [uppercase], and to the very same
    characters by default when they are lower-case. *)
Theorem bytesToHex_hexToBytes :
  forall (hex : string) (bs : bytes),
    hexToBytes hex = Ok bs ->
    bs <> [] /\
    (2 * length bs = String.length (strip_0x hex))%nat /\
    bytesToHex bs (Some (mkBytesToHexOpts None (Some true))) = toUpperCase (strip_0x hex) /\
    (string_forallb is_lower_hex (strip_0x hex) = true ->
     bytesToHex bs None = strip_0x hex).
Proof.
  intros hex bs Hok.
  destruct (hexToBytes_Ok hex bs Hok) as (Hne & Heven & Hhex & ->).
  pose proof (length_parse_hex_pairs _ Hhex) as Hlen. rewrite Heven in Hlen.
  split; [| split; [lia | split]].
  - intros Hnil. rewrite Hnil in Hlen. simpl in Hlen. lia.
  - unfold bytesToHex. cbn. rewrite concat_padStart, <- render_hex_upper.
    now apply render_parse_upper.
  - intros Hlow. unfold bytesToHex. cbn. rewrite concat_padStart, <- render_hex_lower.
    now apply render_parse_lower.
Qed.

Lemma bytesToHex_hexToBytes_witness :
  hexToBytes "0XdeadBEEF" = Ok [xde; xad; xbe; xef] /\
  bytesToHex [xde; xad; xbe; xef] (Some (mkBytesToHexOpts None (Some true))) = "DEADBEEF" /\
  (2 * length [xde; xad; xbe; xef] = 8)%nat.
Proof.
  assert (Hok : hexToBytes "0XdeadBEEF" = Ok [xde; xad; xbe; xef]) by reflexivity.
  pose proof (bytesToHex_hexToBytes "0XdeadBEEF" [xde; xad; xbe; xef] Hok)
    as (_ & Hlen & Hupper & _).
  split; [exact Hok | split; [exact Hupper | exact Hlen]].
Defined.

(** X3. [bytesToHex] renders two characters per byte, two more with
    [prefix]; by default the characters are lower-case hex digits, and the
    text is the one Node produces for the ['hex'] encoding. *)
Theorem bytesToHex_length :
  forall (bs : bytes) (opts : option BytesToHexOpts),
    String.length (bytesToHex bs opts) =
      (2 * length bs + (if default false (opts ≫= opt_prefix) then 2 else 0))%nat /\
    bytesToHex bs None = hex_of_bytes bs /\
    string_forallb is_lower_hex (bytesToHex bs None) = true.
Proof.
  intros bs opts. split; [| split].
  - unfold bytesToHex. rewrite concat_padStart.
    assert (Hl : String.length (hex_of_bytes bs) = (2 * length bs)%nat)
      by (rewrite <- render_hex_lower; apply length_render_hex).
    assert (Hu : String.length (toUpperCase (hex_of_bytes bs)) = (2 * length bs)%nat)
      by (rewrite <- render_hex_upper; apply length_render_hex).
    destruct (default false (opts ≫= opt_uppercase)),
             (default false (opts ≫= opt_prefix));
      rewrite ?length_append, ?Hl, ?Hu; simpl; lia.
  - unfold bytesToHex. cbn. apply concat_padStart.
  - unfold bytesToHex. cbn. rewrite concat_padStart. apply hex_of_bytes_lower.
Qed.

(* ===================================================================== *)
(** * Ticket identity *)
(* ===================================================================== *)

Lemma encode_object_permutation (entries entries' : list (string * value)) :
  Permutation entries entries' ->
  NoDup (map fst entries) ->
  Cborg.encode (VObject entries) = Cborg.encode (VObject entries').
Proof.
  intros Hperm Hnd. cbn [Cborg.encode].
  rewrite (Permutation_length Hperm). do 3 f_equal.
  apply sort_entries_unique.
  - now apply Permutation_map.
  - rewrite map_map. simpl. exact Hnd.
Qed.

Lemma has_undefined_object_permutation (entries entries' : list (string * value)) :
  Permutation entries entries' ->
  has_undefined (VObject entries) = has_undefined (VObject entries').
Proof.
  intros Hperm. simpl.
  induction Hperm as [| x l l' _ IH | x y l | l l' l'' _ IH1 _ IH2]; simpl.
  - reflexivity.
  - now rewrite IH.
  - destruct (has_undefined x.2), (has_undefined y.2); reflexivity.
  - congruence.
Qed.

Lemma ticket_keys_distinct (t : ResolveTicket) : NoDup (map fst (ticket_entries t)).
Proof.
  apply (bool_decide_unpack _). vm_compute. exact I.
Qed.

Lemma ticket_has_no_undefined (t : ResolveTicket) : has_undefined (ticket_object t) = false.
Proof. destruct t as [? ? ? ? c ? ?]; destruct c; reflexivity. Qed.

Lemma encodeCbor_ticket_object (t : ResolveTicket) (o : value) :
  is_ticket_object o t ->
  encodeCbor o = Ok (Cborg.encode o) /\
  Cborg.encode o = Cborg.encode (ticket_object t).
Proof.
  intros (entries & -> & Hperm). split.
  - apply encodeCbor_no_undefined.
    rewrite (has_undefined_object_permutation _ _ Hperm).
    apply ticket_has_no_undefined.
  - symmetry. apply encode_object_permutation; [now symmetry |].
    apply ticket_keys_distinct.
Qed.

Lemma lower_hex_is_hex_digit (c : ascii) : is_lower_hex c = true -> is_hex_digit c = true.
Proof.
  destruct c as [[] [] [] [] [] [] [] []]; intros Hc; vm_compute in Hc |- *;
    first [reflexivity | discriminate Hc].
Qed.

Lemma lower_hex_all_hex (s : string) :
  string_forallb is_lower_hex s = true -> string_forallb is_hex_digit s = true.
Proof.
  induction s as [| c s IH]; [reflexivity |]. cbn [string_forallb].
  intros Hs. apply andb_true_iff in Hs as [Hc Hs].
  now rewrite (lower_hex_is_hex_digit c Hc), IH.
Qed.

(** The lower-case hex rendering of some bytes is the only text of two
    lower-case hex digits per byte that reads back as these bytes. *)
Lemma hex_of_bytes_unique (bs : bytes) (s : string) :
  String.length s = (2 * length bs)%nat ->
  string_forallb is_lower_hex s = true ->
  parse_hex_pairs s = bs ->
  s = hex_of_bytes bs.
Proof.
  intros Hlen Hlower <-. rewrite <- render_hex_lower. symmetry.
  apply render_parse_lower; [now apply lower_hex_all_hex | assumption |].
  rewrite Hlen. replace (2 * length (parse_hex_pairs s))%nat
    with (0 + length (parse_hex_pairs s) * 2)%nat by lia.
  now rewrite Nat.Div0.mod_add.
Qed.

(** C8. For a ticket [t], held in an object [o] with its properties in any
    insertion order: [getTicketId] returns ["ticket:v1:"] followed by the
    lowercase hexadecimal SHA-256 digest of the canonical bytes of [o],
    that is by the text of two characters per byte of the digest, all of
    them lower-case hex digits, that reads back, pair by pair and high digit
    first, as the bytes of the digest (there is one such text); the canonical
    bytes and the result are the same for every insertion order; and
    [verifyTicketId o id] is true iff [id] is that identity. *)
Theorem ticket_identity `{NodeCrypto} :
  forall (t : ResolveTicket) (o : value),
    is_ticket_object o t ->
    encodeCbor o = Ok (Cborg.encode o) /\
    Cborg.encode o = Cborg.encode (ticket_object t) /\
    (exists hash : string,
       getTicketId o = Ok ("ticket:v1:" +:+ hash) /\
       String.length hash = (2 * length (sha256 (Cborg.encode o)))%nat /\
       string_forallb is_lower_hex hash = true /\
       parse_hex_pairs hash = sha256 (Cborg.encode o) /\
       (forall s : string,
          String.length s = (2 * length (sha256 (Cborg.encode o)))%nat ->
          string_forallb is_lower_hex s = true ->
          parse_hex_pairs s = sha256 (Cborg.encode o) ->
          s = hash)) /\
    getTicketId o = Ok (ticket_id t) /\
    (forall o', is_ticket_object o' t -> getTicketId o' = getTicketId o) /\
    (forall id, verifyTicketId o id = Ok (bool_decide (id = ticket_id t))).
Proof.
  intros t o Ho.
  destruct (encodeCbor_ticket_object t o Ho) as [Henc Hsame].
  assert (Hid : forall o', is_ticket_object o' t -> getTicketId o' = Ok (ticket_id t)).
  { intros o' Ho'. destruct (encodeCbor_ticket_object t o' Ho') as [Henc' Hsame'].
    unfold getTicketId, ticket_id. rewrite Henc', bind_Ok, Hsame'. reflexivity. }
  split; [exact Henc |]. split; [exact Hsame |]. split; [| split; [| split]].
  - exists (hex_of_bytes (sha256 (Cborg.encode o))).
    split; [| split; [| split; [| split]]].
    + unfold getTicketId. rewrite Henc. reflexivity.
    + rewrite <- render_hex_lower. apply length_render_hex.
    + apply hex_of_bytes_lower.
    + rewrite <- render_hex_lower.
      apply (parse_render_hex hex_digit hex_digit_value_hex_digit).
    + intros s Hlen Hlower Hparse. now apply hex_of_bytes_unique.
  - now apply Hid.
  - intros o' Ho'. now rewrite !Hid.
  - intros id. unfold verifyTicketId. rewrite (Hid o Ho), bind_Ok. f_equal.
    destruct (String.eqb_spec (ticket_id t) id) as [-> | Hne]; symmetry.
    + now apply bool_decide_eq_true_2.
    + apply bool_decide_eq_false_2. congruence.
Qed.

Lemma ticket_identity_witness :
  is_ticket_object example_ticket_reversed example_ticket /\
  getTicketId (H:=toy_crypto) example_ticket_reversed
    = getTicketId (H:=toy_crypto) (ticket_object example_ticket) /\
  verifyTicketId (H:=toy_crypto) example_ticket_reversed
    (ticket_id (H:=toy_crypto) example_ticket) = Ok true /\
  exists hash : string,
    getTicketId (H:=toy_crypto) example_ticket_reversed = Ok ("ticket:v1:" +:+ hash) /\
    parse_hex_pairs hash = sha256 (NodeCrypto:=toy_crypto) example_bytes.
Proof.
  assert (Hrev : is_ticket_object example_ticket_reversed example_ticket).
  { exists (rev (ticket_entries example_ticket)). split; [reflexivity |].
    symmetry. apply Permutation_rev. }
  split; [exact Hrev |].
  pose proof (ticket_identity (H:=toy_crypto) example_ticket example_ticket_reversed
                Hrev) as (_ & Hbytes & (hash & Hformat & _ & _ & Hparse & _) & Hid & _ & Hverify).
  pose proof (ticket_identity (H:=toy_crypto) example_ticket (ticket_object example_ticket))
    as Hschema.
  destruct Hschema as (_ & _ & _ & Hid' & _).
  { exists (ticket_entries example_ticket). split; reflexivity. }
  split; [| split].
  - now rewrite Hid, Hid'.
  - rewrite Hverify. now rewrite bool_decide_eq_true_2.
  - exists hash. split; [exact Hformat |]. rewrite Hparse, Hbytes. reflexivity.
Defined.

(* ===================================================================== *)
(** * Identities and collisions *)
(* ===================================================================== *)

Lemma canonical_ticket_object (t : ResolveTicket) :
  canonical (ticket_object t) =
  VObject
    [ ("action", VString (action_name (action t)));
      ("confidence", canonical (number_value (confidence t)));
      ("deal_id", VString (deal_id t));
      ("expires_at", VInt (expires_at t));
      ("nonce", VInt (nonce t));
      ("rationale_cid", VString (rationale_cid t));
      ("schema", VString RESOLVE_TICKET_VERSION);
      ("split_bps", VInt (split_bps t)) ].
Proof. destruct t as [? ? ? ? c ? ?]; destruct c; reflexivity. Qed.

Lemma action_name_inj (a b : ResolveAction) : action_name a = action_name b -> a = b.
Proof. destruct a, b; simpl; intros Heq; try reflexivity; discriminate. Qed.

(** The canonical bytes determine the fields of the ticket, the confidence
    as a number. *)
Lemma encode_ticket_inj (t1 t2 : ResolveTicket) :
  structurally_valid (ticket_object t1) = true ->
  structurally_valid (ticket_object t2) = true ->
  Cborg.encode (ticket_object t1) = Cborg.encode (ticket_object t2) ->
  deal_id t1 = deal_id t2 /\ action t1 = action t2 /\ split_bps t1 = split_bps t2 /\
  rationale_cid t1 = rationale_cid t2 /\ nonce t1 = nonce t2 /\
  expires_at t1 = expires_at t2 /\
  canonical (number_value (confidence t1)) = canonical (number_value (confidence t2)).
Proof.
  intros Hv1 Hv2 Henc. apply (f_equal Cborg.decode) in Henc.
  rewrite !decode_encode, !canonical_ticket_object in Henc by assumption.
  injection Henc as Ha Hc Hd He Hn Hr Hs.
  apply action_name_inj in Ha. tauto.
Qed.

(** The assumption on identities made for sequences of calls is the
    absence of SHA-256 collisions among the submitted tickets. *)
Lemma collision_free_identities `{NodeCrypto} (tickets : list ResolveTicket) :
  Forall (fun t => structurally_valid (ticket_object t) = true) tickets ->
  sha256_collision_free tickets ->
  identities_determine_expiry tickets.
Proof.
  intros Hvalid Hfree t1 t2 H1 H2 Hid.
  rewrite Forall_forall in Hvalid.
  unfold ticket_id in Hid. injection Hid as Hhex.
  apply hex_of_bytes_inj in Hhex.
  apply (encode_ticket_inj t1 t2); auto.
Qed.

(* ===================================================================== *)
(** * ed25519.ts: keys and signatures given as hex *)
(* ===================================================================== *)

Lemma toBytes_toHex (b : bytes) (opts : option BytesToHexOpts) :
  b <> [] -> toBytes (FromHex (toHex b opts)) = toBytes (FromBytes b).
Proof.
  intros Hb. unfold toHex. cbn [toBytes]. rewrite hexToBytes_rendered.
  destruct b; [contradiction | reflexivity].
Qed.

(** X4. A signature, a public key or a secret given as the hex text
    rendered by [toHex] (with any options) is handled as the byte array
    itself, provided the array is not empty; the hex text of an empty array
    is refused by the hex parser before any length check. *)
Theorem ed25519_hex_or_bytes `{Noble} :
  forall (message sig pk secret : bytes) (o1 o2 : option BytesToHexOpts),
    (sig <> [] -> pk <> [] ->
     verify message (FromHex (toHex sig o1)) (FromHex (toHex pk o2))
       = verify message (FromBytes sig) (FromBytes pk)) /\
    (secret <> [] ->
     sign message (FromHex (toHex secret o1)) = sign message (FromBytes secret) /\
     derivePublicKey (FromHex (toHex secret o1)) = derivePublicKey (FromBytes secret)) /\
    verify message (FromHex (toHex [] o1)) (FromBytes pk)
      = Throw (Error "hex string is empty") /\
    verify message (FromBytes []) (FromBytes pk) = Throw InvalidSignatureLength.
Proof.
  intros message sig pk secret o1 o2. split; [| split; [| split]].
  - intros Hsig Hpk. unfold verify, normalizePublicKey.
    now rewrite (toBytes_toHex sig o1 Hsig), (toBytes_toHex pk o2 Hpk).
  - intros Hsecret. unfold sign, derivePublicKey, normalizeSecret.
    now rewrite (toBytes_toHex secret o1 Hsecret).
  - unfold verify, toHex. cbn [toBytes]. now rewrite hexToBytes_rendered.
  - reflexivity.
Qed.

Lemma ed25519_hex_or_bytes_witness :
  let H := toy_noble in
  let sig := toy_signature example_bytes signer_1 in
  verify example_bytes (FromHex (toHex sig None))
         (FromHex (toHex signer_1 (Some (mkBytesToHexOpts (Some true) (Some true)))))
    = Ok true /\
  sign example_bytes (FromHex (toHex signer_1 None)) = Ok sig.
Proof.
  intros H sig. subst H.
  pose proof (ed25519_hex_or_bytes (H:=toy_noble) example_bytes sig signer_1 signer_1 None
                (Some (mkBytesToHexOpts (Some true) (Some true)))) as (Hverify & Hsign & _).
  split.
  - rewrite Hverify; [reflexivity | discriminate | discriminate].
  - destruct Hsign as [Hsign _]; [discriminate |]. rewrite Hsign. reflexivity.
Defined.

(* ===================================================================== *)
(** * resolveTicketTransport.ts: the private hex helpers *)
(* ===================================================================== *)

Lemma fold_left_append (f : byte -> string) (bs : bytes) (acc : string) :
  fold_left (fun out b => out +:+ f b) bs acc = acc +:+ String.concat EmptyString (map f bs).
Proof.
  revert acc. induction bs as [| b bs IH]; intros acc.
  - simpl. symmetry. apply append_nil_r.
  - cbn [fold_left map]. rewrite IH, concat_empty_cons. apply append_assoc.
Qed.

Lemma Transport_bytesToHex_hex_of_bytes (bs : bytes) :
  Transport.bytesToHex bs = hex_of_bytes bs.
Proof.
  unfold Transport.bytesToHex. rewrite fold_left_append. cbn [String.append].
  apply concat_padStart.
Qed.

(** The prefix test of the transport parser, by comparisons of characters. *)
Lemma Transport_hexToBytes_cons (c1 c2 : ascii) (rest : string) :
  Transport.hexToBytes (String c1 (String c2 rest)) =
  let clean := if Ascii.eqb c1 "0" && Ascii.eqb c2 "x"
               then rest else String c1 (String c2 rest) in
  if negb (String.length clean mod 2 =? 0)%nat then
    Throw (Error "hex string must have an even length")
  else Ok (map (fun byte => ToUint8 (parseInt16 byte)) (Transport.slices clean)).
Proof.
  destruct c1 as [[] [] [] [] [] [] [] []]; try reflexivity;
    destruct c2 as [[] [] [] [] [] [] [] []]; reflexivity.
Qed.

Lemma Transport_hexToBytes_no_prefix (s : string) :
  strip_0x s = s ->
  String.prefix "0X" s = false ->
  Transport.hexToBytes s =
  if negb (String.length s mod 2 =? 0)%nat then
    Throw (Error "hex string must have an even length")
  else Ok (map (fun byte => ToUint8 (parseInt16 byte)) (Transport.slices s)).
Proof.
  destruct s as [| c1 [| c2 rest]];
    [reflexivity | destruct c1 as [[] [] [] [] [] [] [] []]; reflexivity |].
  rewrite strip_0x_cons, Transport_hexToBytes_cons. cbv zeta.
  destruct (Ascii.eqb c1 "0") eqn:H1; [| reflexivity].
  destruct (Ascii.eqb c2 "x") eqn:H2.
  - cbn [andb orb]. intros Hrest _.
    apply (f_equal String.length) in Hrest. cbn [String.length] in Hrest. lia.
  - reflexivity.
Qed.

(** [parseInt] of two hex digits. *)
Lemma parseInt16_pair (a b : ascii) (h l : N) :
  hex_digit_value a = Some h -> hex_digit_value b = Some l ->
  ToUint8 (parseInt16 (String a (String b EmptyString))) = byte_of_N (h * 16 + l).
Proof.
  intros Ha Hb.
  destruct (hex_digit_value_cases a h Ha) as (Hh & _ & Hws & Hminus & Hplus & _).
  destruct (hex_digit_value_cases b l Hb) as (Hl & _).
  destruct (hex_digit_not_x b) as [Hx HX]; [unfold is_hex_digit; now rewrite Hb |].
  unfold parseInt16. cbn [trim_start]. rewrite Hws, Hminus, Hplus. cbn [snd fst].
  rewrite strip_0x_cons, Hx, HX, andb_false_r.
  cbn [hex_digits_value]. rewrite Ha, Hb. cbn [default ToUint8].
  unfold id. f_equal. rewrite Z.mod_small by lia. lia.
Qed.

Lemma map_parseInt16_slices (s : string) :
  string_forallb is_hex_digit s = true ->
  map (fun byte => ToUint8 (parseInt16 byte)) (Transport.slices s) = parse_hex_pairs s.
Proof.
  induction s as [| c | a b s IH] using string_pair_ind; [reflexivity .. |].
  cbn [string_forallb]. unfold is_hex_digit at 1 2.
  destruct (hex_digit_value a) as [h |] eqn:Ha; [| discriminate].
  destruct (hex_digit_value b) as [l |] eqn:Hb; [| discriminate].
  intros Hs. cbn [andb] in Hs.
  cbn [Transport.slices map parse_hex_pairs].
  now rewrite Ha, Hb, (parseInt16_pair a b h l Ha Hb), IH.
Qed.

Lemma hex_of_bytes_all_hex (bs : bytes) :
  string_forallb is_hex_digit (hex_of_bytes bs) = true.
Proof.
  rewrite <- render_hex_lower. apply render_hex_all_hex, hex_digit_value_hex_digit.
Qed.

Lemma hex_of_bytes_no_prefix (bs : bytes) :
  strip_0x (hex_of_bytes bs) = hex_of_bytes bs /\
  String.prefix "0X" (hex_of_bytes bs) = false.
Proof.
  split.
  - rewrite <- render_hex_lower. apply strip_0x_render_hex, hex_digit_value_hex_digit.
  - destruct bs as [| b bs]; [reflexivity |].
    rewrite hex_of_bytes_cons.
    destruct (byte_nibbles b) as [_ Hlo].
    destruct (hex_digit_not_x (hex_digit (Byte.to_N b mod 16)%N)) as [_ HX].
    { unfold is_hex_digit. now rewrite (hex_digit_value_hex_digit _ Hlo). }
    cbn [String.prefix]. destruct (ascii_dec _ _); [| reflexivity].
    destruct (ascii_dec _ _) as [Heq |]; [| reflexivity].
    rewrite <- Heq in HX. discriminate HX.
Qed.

Lemma Transport_hex_trip :
  forall bs : bytes,
    Transport.bytesToHex bs = bytesToHex bs None /\
    Transport.hexToBytes (Transport.bytesToHex bs) = Ok bs.
Proof.
  intros bs. rewrite Transport_bytesToHex_hex_of_bytes. split.
  - symmetry. unfold bytesToHex. cbn. apply concat_padStart.
  - destruct (hex_of_bytes_no_prefix bs) as [Hstrip Hprefix].
    rewrite (Transport_hexToBytes_no_prefix _ Hstrip Hprefix).
    assert (Hlen : String.length (hex_of_bytes bs) = (2 * length bs)%nat)
      by (rewrite <- render_hex_lower; apply length_render_hex).
    rewrite Hlen.
    replace (2 * length bs)%nat with (0 + length bs * 2)%nat by lia.
    rewrite Nat.Div0.mod_add. cbn [Nat.modulo Nat.eqb negb].
    rewrite map_parseInt16_slices by apply hex_of_bytes_all_hex.
    rewrite <- render_hex_lower.
    now rewrite (parse_render_hex hex_digit hex_digit_value_hex_digit).
Qed.

(** X5. The transport's own hex rendering is the library's default one
    (lower case, no prefix), and its own parser reads it back: every byte
    array, the empty one included, survives the trip. *)
Theorem Transport_hex_round_trip :
  forall bs : bytes,
    Transport.bytesToHex bs = bytesToHex bs None /\
    Transport.hexToBytes (Transport.bytesToHex bs) = Ok bs.
Proof. exact Transport_hex_trip. Qed.

Lemma Transport_hexToBytes_accepted :
  forall (hex : string) (bs : bytes),
    hexToBytes hex = Ok bs ->
    Transport.hexToBytes hex = Ok (if String.prefix "0X" hex then x00 :: bs else bs).
Proof.
  intros hex bs Hok.
  destruct (hexToBytes_Ok hex bs Hok) as (Hne & Heven & Hhex & ->).
  destruct hex as [| c1 [| c2 rest]];
    [ exfalso; apply Hne; reflexivity
    | destruct c1 as [[] [] [] [] [] [] [] []]; discriminate Heven |].
  rewrite strip_0x_cons in Hne, Heven, Hhex |- *.
  rewrite Transport_hexToBytes_cons. cbv zeta.
  destruct (Ascii.eqb_spec c1 "0") as [-> |]; cbn [andb] in *.
  - destruct (Ascii.eqb_spec c2 "x") as [-> |]; cbn [orb] in *.
    + rewrite Heven. cbn [Nat.eqb negb]. now rewrite map_parseInt16_slices.
    + destruct (Ascii.eqb_spec c2 "X") as [-> |].
      * cbn [String.length].
        replace (S (S (String.length rest))) with (String.length rest + 1 * 2)%nat by lia.
        rewrite Nat.Div0.mod_add, Heven. cbn [Nat.eqb negb Transport.slices map].
        rewrite map_parseInt16_slices by assumption.
        assert (Hp : String.prefix "0X" (String "0" (String "X" rest)) = true)
          by (destruct rest; reflexivity).
        rewrite Hp. reflexivity.
      * rewrite Heven. cbn [Nat.eqb negb]. rewrite map_parseInt16_slices by assumption.
        cbn [String.prefix]. destruct (ascii_dec _ _); [| reflexivity].
        destruct (ascii_dec "X" c2); [congruence | reflexivity].
  - rewrite Heven. cbn [Nat.eqb negb]. rewrite map_parseInt16_slices by assumption.
    cbn [String.prefix]. destruct (ascii_dec "0" c1); [congruence | reflexivity].
Qed.

(** X6. On every text that the library's [hexToBytes] accepts, the
    transport's parser succeeds too, with the same bytes, except under the
    upper-case prefix [0X], which it does not strip: there it returns one
    more byte, a leading zero. *)
Theorem Transport_hexToBytes_agrees :
  forall (hex : string) (bs : bytes),
    hexToBytes hex = Ok bs ->
    Transport.hexToBytes hex = Ok (if String.prefix "0X" hex then x00 :: bs else bs).
Proof.
  exact Transport_hexToBytes_accepted.
Qed.

Lemma Transport_hexToBytes_agrees_witness :
  hexToBytes "0Xab" = Ok [xab] /\ Transport.hexToBytes "0Xab" = Ok [x00; xab] /\
  hexToBytes "0xab" = Ok [xab] /\ Transport.hexToBytes "0xab" = Ok [xab].
Proof.
  assert (H1 : hexToBytes "0Xab" = Ok [xab]) by reflexivity.
  assert (H2 : hexToBytes "0xab" = Ok [xab]) by reflexivity.
  split; [exact H1 | split; [| split; [exact H2 |]]].
  - exact (Transport_hexToBytes_agrees "0Xab" [xab] H1).
  - exact (Transport_hexToBytes_agrees "0xab" [xab] H2).
Defined.

(** [parseInt] of two characters none of which is a hex digit: NaN. *)
Lemma strip_0x_single (c : ascii) : strip_0x (String c EmptyString) = String c EmptyString.
Proof. destruct c as [[] [] [] [] [] [] [] []]; reflexivity. Qed.

Lemma not_hex_digit_not_0 (c : ascii) : is_hex_digit c = false -> Ascii.eqb c "0" = false.
Proof. intros Hc. apply Ascii.eqb_neq. intros ->. discriminate Hc. Qed.

Lemma hex_digits_value_non_hex (c : ascii) (s : string) (acc : option Z) :
  is_hex_digit c = false -> hex_digits_value (String c s) acc = acc.
Proof.
  unfold is_hex_digit. cbn [hex_digits_value].
  destruct (hex_digit_value c); [discriminate | reflexivity].
Qed.

Lemma parseInt16_non_hex (a b : ascii) :
  is_hex_digit a = false -> is_hex_digit b = false ->
  parseInt16 (String a (String b EmptyString)) = None.
Proof.
  intros Ha Hb. unfold parseInt16. cbn [trim_start].
  pose proof (not_hex_digit_not_0 a Ha) as Ha0.
  pose proof (not_hex_digit_not_0 b Hb) as Hb0.
  destruct (is_white_space a), (is_white_space b), (Ascii.eqb a "-"), (Ascii.eqb a "+"),
           (Ascii.eqb b "-"), (Ascii.eqb b "+");
    cbn [snd fst];
    rewrite ?strip_0x_cons, ?strip_0x_single, ?Ha0, ?Hb0; cbn [andb strip_0x];
    rewrite ?hex_digits_value_non_hex by assumption; reflexivity.
Qed.

Lemma map_parseInt16_non_hex (s : string) :
  string_forallb (fun c => negb (is_hex_digit c)) s = true ->
  map (fun byte => ToUint8 (parseInt16 byte)) (Transport.slices s)
  = repeat x00 (String.length s / 2).
Proof.
  induction s as [| c | a b s IH] using string_pair_ind; [reflexivity .. |].
  cbn [string_forallb]. intros Hs.
  apply andb_true_iff in Hs as [Ha Hs]. apply andb_true_iff in Hs as [Hb Hs].
  apply negb_true_iff in Ha, Hb.
  cbn [Transport.slices map String.length].
  rewrite (parseInt16_non_hex a b Ha Hb), (IH Hs).
  replace (S (S (String.length s))) with (1 * 2 + String.length s)%nat by lia.
  rewrite Nat.div_add_l by lia. reflexivity.
Qed.

(** X7. The transport's parser does not check its characters: a text of
    even length without any hex digit is read as that many zero bytes,
    where the library's [hexToBytes] throws. *)
Theorem Transport_hexToBytes_non_hex :
  forall hex : string,
    string_forallb (fun c => negb (is_hex_digit c)) hex = true ->
    (String.length hex mod 2 = 0)%nat ->
    Transport.hexToBytes hex = Ok (repeat x00 (String.length hex / 2)) /\
    hexToBytes hex =
      Throw (Error (if (String.length hex =? 0)%nat then "hex string is empty"
                    else "hex string contains non-hex characters")).
Proof.
  intros hex Hnone Heven.
  assert (Hshape : strip_0x hex = hex /\ String.prefix "0X" hex = false /\
                   (hex = EmptyString \/ string_forallb is_hex_digit hex = false)).
  { destruct hex as [| c1 rest]; [repeat split; auto |].
    cbn [string_forallb] in Hnone. apply andb_true_iff in Hnone as [H1 _].
    apply negb_true_iff in H1. pose proof (not_hex_digit_not_0 c1 H1) as H0.
    split; [| split].
    - destruct rest as [| c2 rest]; [apply strip_0x_single |].
      now rewrite strip_0x_cons, H0.
    - cbn [String.prefix]. destruct (ascii_dec "0" c1) as [<- |]; [discriminate | reflexivity].
    - right. cbn [string_forallb]. now rewrite H1. }
  destruct Hshape as (Hstrip & Hprefix & Hbad). split.
  - rewrite (Transport_hexToBytes_no_prefix hex Hstrip Hprefix), Heven.
    cbn [Nat.eqb negb]. now rewrite map_parseInt16_non_hex.
  - unfold hexToBytes. rewrite Hstrip, Heven.
    destruct Hbad as [-> | Hbad]; [reflexivity |].
    rewrite Hbad. destruct (String.length hex =? 0)%nat; reflexivity.
Qed.

Lemma Transport_hexToBytes_non_hex_witness :
  Transport.hexToBytes "zz!!" = Ok [x00; x00] /\
  hexToBytes "zz!!" = Throw (Error "hex string contains non-hex characters").
Proof.
  exact (Transport_hexToBytes_non_hex "zz!!" eq_refl eq_refl).
Defined.

(* ===================================================================== *)
(** * resolveTicketHelpers.ts: decodeAndVerifyTicket *)
(* ===================================================================== *)

Lemma verify_Ok `{Noble} (m : bytes) (signature publicKey : bytes_or_hex) (b : bool) :
  verify m signature publicKey = Ok b ->
  exists sig pk,
    toBytes signature = Ok sig /\ length sig = 64%nat /\
    toBytes publicKey = Ok pk /\ length pk = 32%nat /\
    b = ed25519_verify sig m pk.
Proof.
  unfold verify, normalizePublicKey.
  destruct (toBytes signature) as [sig | e]; [| discriminate]. rewrite bind_Ok.
  destruct (Nat.eqb_spec (length sig) 64) as [Hsig |]; [| discriminate]. cbn [negb].
  destruct (toBytes publicKey) as [pk | e]; [| discriminate]. rewrite !bind_Ok.
  destruct (Nat.eqb_spec (length pk) 32) as [Hpk |]; [| discriminate]. cbn [negb].
  rewrite bind_Ok. intros [= <-]. exists sig, pk. auto.
Qed.

Lemma decodeAndVerifyTicket_stages `{Noble} `{Zod} (Date_now : Z) (bs : bytes)
  (signature pubkey : bytes_or_hex) (opts : DecodeVerifyOptions) :
  decodeAndVerifyTicket Date_now bs signature pubkey opts =
  match verify bs signature pubkey with
  | Throw e => Throw e
  | Ok false => Ok (rejected "invalid_signature")
  | Ok true =>
      match decodeCbor bs with
      | Throw _ => Ok (rejected "invalid_cbor")
      | Ok raw =>
          match schema_parse raw with
          | Throw _ => Ok (rejected "schema_validation_failed")
          | Ok ticket =>
              Ok (semantic_checks (default (Date_now / 1000) (nowSeconds opts)) opts ticket)
          end
      end
  end.
Proof.
  unfold decodeAndVerifyTicket, semantic_checks.
  destruct (verify bs signature pubkey) as [[] | e]; cbn; [| reflexivity ..].
  destruct (decodeCbor bs) as [raw |]; [| reflexivity].
  destruct (schema_parse raw) as [ticket |]; [| reflexivity].
  destruct (mismatched_deal_id opts ticket); [reflexivity |].
  destruct (mismatched_action opts ticket); [reflexivity |].
  destruct (_ <? _); reflexivity.
Qed.

Lemma decodeAndVerifyTicket_ok `{Noble} `{Zod} :
  forall (Date_now : Z) (bs : bytes) (signature pubkey : bytes_or_hex)
         (opts : DecodeVerifyOptions) (r : DecodeVerifyResult),
    decodeAndVerifyTicket Date_now bs signature pubkey opts = Ok r ->
    dv_ok r = true ->
    exists sig pk raw ticket,
      r = accepted ticket /\
      toBytes signature = Ok sig /\ length sig = 64%nat /\
      toBytes pubkey = Ok pk /\ length pk = 32%nat /\
      ed25519_verify sig bs pk = true /\
      decodeCbor bs = Ok raw /\ schema_parse raw = Ok ticket /\
      (forall d, expectedDealId opts = Some d -> d <> EmptyString -> deal_id ticket = d) /\
      (forall a, expectedAction opts = Some a -> action ticket = a) /\
      default (Date_now / 1000) (nowSeconds opts)
        <= expires_at ticket + default 0 (maxSkewSeconds opts).
Proof.
  intros Date_now bs signature pubkey opts r Hr Hok.
  rewrite decodeAndVerifyTicket_stages in Hr.
  destruct (verify bs signature pubkey) as [[] | e] eqn:Hverify;
    [| injection Hr as <-; discriminate Hok | discriminate Hr].
  destruct (verify_Ok _ _ _ _ Hverify) as (sig & pk & Hsig & Hsiglen & Hpk & Hpklen & Hv).
  destruct (decodeCbor bs) as [raw |] eqn:Hraw; [| injection Hr as <-; discriminate Hok].
  destruct (schema_parse raw) as [ticket |] eqn:Hparse;
    [| injection Hr as <-; discriminate Hok].
  injection Hr as <-. unfold semantic_checks in Hok |- *.
  destruct (mismatched_deal_id opts ticket) eqn:Hdeal; [discriminate Hok |].
  destruct (mismatched_action opts ticket) eqn:Haction; [discriminate Hok |].
  destruct (Z.ltb_spec (expires_at ticket + default 0 (maxSkewSeconds opts))
                       (default (Date_now / 1000) (nowSeconds opts))) as [| Hlive];
    [discriminate Hok |].
  exists sig, pk, raw, ticket. repeat (split; [first [reflexivity | assumption | now symmetry] |]).
  split; [| split; [| assumption]].
  - intros d Hd Hne. unfold mismatched_deal_id in Hdeal. rewrite Hd in Hdeal.
    apply andb_false_iff in Hdeal as [Hempty | Hsame].
    + apply negb_false_iff, String.eqb_eq in Hempty. contradiction.
    + apply negb_false_iff, String.eqb_eq in Hsame. assumption.
  - intros a Ha. unfold mismatched_action in Haction. rewrite Ha in Haction.
    apply negb_false_iff, bool_decide_eq_true in Haction. assumption.
Qed.

(** X8. When [decodeAndVerifyTicket] answers [ok], the signature and the
    key have the lengths 64 and 32, the signature verifies over the very
    bytes received, these bytes decode to a value that the schema accepts
    as the returned ticket, the ticket matches the expected deal (when the
    expectation is a non-empty string) and the expected action, and it has
    not expired by more than the allowed skew. *)
Theorem decodeAndVerifyTicket_sound `{Noble} `{Zod} :
  forall (Date_now : Z) (bs : bytes) (signature pubkey : bytes_or_hex)
         (opts : DecodeVerifyOptions) (r : DecodeVerifyResult),
    decodeAndVerifyTicket Date_now bs signature pubkey opts = Ok r ->
    dv_ok r = true ->
    exists sig pk raw ticket,
      r = accepted ticket /\
      toBytes signature = Ok sig /\ length sig = 64%nat /\
      toBytes pubkey = Ok pk /\ length pk = 32%nat /\
      ed25519_verify sig bs pk = true /\
      decodeCbor bs = Ok raw /\ schema_parse raw = Ok ticket /\
      (forall d, expectedDealId opts = Some d -> d <> EmptyString -> deal_id ticket = d) /\
      (forall a, expectedAction opts = Some a -> action ticket = a) /\
      default (Date_now / 1000) (nowSeconds opts)
        <= expires_at ticket + default 0 (maxSkewSeconds opts).
Proof. exact decodeAndVerifyTicket_ok. Qed.

Lemma decodeAndVerifyTicket_sound_witness :
  let H := toy_noble in
  let Z := toy_zod in
  exists sig pk raw ticket,
    accepted example_ticket = accepted ticket /\
    toBytes (FromBytes (toy_signature example_bytes signer_1)) = Ok sig /\
    length sig = 64%nat /\
    toBytes (FromHex (toHex signer_1 None)) = Ok pk /\ length pk = 32%nat /\
    ed25519_verify sig example_bytes pk = true /\
    decodeCbor example_bytes = Ok raw /\ schema_parse raw = Ok ticket /\
    (forall d, expectedDealId
                 (mkDecodeVerifyOptions (Some "D-1") (Some RELEASE) (Some 2000000000) None)
               = Some d -> d <> EmptyString -> deal_id ticket = d) /\
    (forall a, expectedAction
                 (mkDecodeVerifyOptions (Some "D-1") (Some RELEASE) (Some 2000000000) None)
               = Some a -> action ticket = a) /\
    default (0 / 1000)
      (nowSeconds (mkDecodeVerifyOptions (Some "D-1") (Some RELEASE) (Some 2000000000) None))
      <= expires_at ticket
         + default 0 (maxSkewSeconds
             (mkDecodeVerifyOptions (Some "D-1") (Some RELEASE) (Some 2000000000) None)).
Proof.
  intros H Z.
  apply (decodeAndVerifyTicket_sound (H:=toy_noble) (H0:=toy_zod) 0 example_bytes
           (FromBytes (toy_signature example_bytes signer_1))
           (FromHex (toHex signer_1 None))
           (mkDecodeVerifyOptions (Some "D-1") (Some RELEASE) (Some 2000000000) None)
           (accepted example_ticket)).
  - vm_compute. reflexivity.
  - reflexivity.
Defined.

(** X9. [decodeAndVerifyTicket] throws exactly when [verify] throws (a
    malformed signature or key is not reported as a result): a failure of
    the decoder or of the schema is always caught. An invalid signature is
    reported before the bytes are decoded, and every rejection carries no
    ticket and one of six reasons. *)
Theorem decodeAndVerifyTicket_rejections `{Noble} `{Zod} :
  forall (Date_now : Z) (bs : bytes) (signature pubkey : bytes_or_hex)
         (opts : DecodeVerifyOptions),
    (forall e, decodeAndVerifyTicket Date_now bs signature pubkey opts = Throw e
               <-> verify bs signature pubkey = Throw e) /\
    (verify bs signature pubkey = Ok false ->
     decodeAndVerifyTicket Date_now bs signature pubkey opts
       = Ok (rejected "invalid_signature")) /\
    (forall r, decodeAndVerifyTicket Date_now bs signature pubkey opts = Ok r ->
       dv_ok r = false ->
       dv_ticket r = None /\
       exists reason, dv_reason r = Some reason /\
         In reason ["invalid_signature"; "invalid_cbor"; "schema_validation_failed";
                    "mismatched_deal_id"; "mismatched_action"; "ticket_expired"]).
Proof.
  intros Date_now bs signature pubkey opts.
  rewrite decodeAndVerifyTicket_stages.
  destruct (verify bs signature pubkey) as [[] | e] eqn:Hverify.
  - split; [| split].
    + intros e. destruct (decodeCbor bs) as [raw |]; [| split; discriminate].
      destruct (schema_parse raw); split; discriminate.
    + discriminate.
    + intros r Hr Hok. unfold semantic_checks in Hr.
      destruct (decodeCbor bs) as [raw |];
        [destruct (schema_parse raw) as [ticket |];
         [destruct (mismatched_deal_id opts ticket);
          [| destruct (mismatched_action opts ticket);
             [| destruct (_ <? _)]] |] |];
        injection Hr as <-; try discriminate Hok;
        (split; [reflexivity | eexists; split; [reflexivity | simpl; tauto]]).
  - split; [| split].
    + intros e. split; discriminate.
    + reflexivity.
    + intros r [= <-] _. split; [reflexivity |].
      eexists; split; [reflexivity | simpl; tauto].
  - split; [| split].
    + intros e'. split; intros [= ->]; reflexivity.
    + discriminate.
    + discriminate.
Qed.

Lemma decodeAndVerifyTicket_rejections_witness :
  let H := toy_noble in
  let Z := toy_zod in
  decodeAndVerifyTicket 0 [xff] (FromBytes (toy_signature [x00] signer_1))
    (FromBytes signer_1) no_options = Ok (rejected "invalid_signature") /\
  (decodeAndVerifyTicket 0 example_bytes (FromBytes [x00]) (FromBytes signer_1) no_options
     = Throw InvalidSignatureLength
   <-> verify example_bytes (FromBytes [x00]) (FromBytes signer_1)
     = Throw InvalidSignatureLength).
Proof.
  intros H Z. subst H Z. split.
  - pose proof (decodeAndVerifyTicket_rejections (H:=toy_noble) (H0:=toy_zod) 0 [xff]
                  (FromBytes (toy_signature [x00] signer_1)) (FromBytes signer_1) no_options)
      as (_ & Hinvalid & _).
    apply Hinvalid. vm_compute. reflexivity.
  - pose proof (decodeAndVerifyTicket_rejections (H:=toy_noble) (H0:=toy_zod) 0 example_bytes
                  (FromBytes [x00]) (FromBytes signer_1) no_options) as (Hthrow & _).
    apply Hthrow.
Defined.

Lemma normalizeSecret_length (secret : bytes_or_hex) (seed : bytes) :
  normalizeSecret secret = Ok seed -> length seed = 32%nat.
Proof.
  unfold normalizeSecret. destruct (toBytes secret) as [raw | e]; [| discriminate].
  rewrite bind_Ok.
  destruct (Nat.eqb_spec (length raw) 32) as [H32 |]; [now intros [= <-] |].
  destruct (Nat.eqb_spec (length raw) 64) as [H64 |]; [| discriminate].
  intros [= <-]. rewrite List.length_firstn. lia.
Qed.

(** X10. Signing then verifying: with a sound signature scheme (signatures
    of 64 bytes, public keys of 32 bytes, the signature of a message under
    a seed verifies under the public key of that seed), what
    [encodeAndSignTicket] returns for a secret passes the signature stage
    of [decodeAndVerifyTicket] under the public key derived from the same
    secret: the answer is the outcome of the checks on the decoded ticket. *)
Theorem encodeAndSignTicket_then_decodeAndVerifyTicket `{Noble} `{Zod} :
  forall (Date_now : Z) (t : ResolveTicket) (secret : bytes_or_hex) (signed : SignedTicket)
         (pk : bytes) (raw : value) (t' : ResolveTicket) (opts : DecodeVerifyOptions),
    (forall m seed, length seed = 32%nat ->
       length (ed25519_sign m seed) = 64%nat /\
       length (ed25519_getPublicKey seed) = 32%nat /\
       ed25519_verify (ed25519_sign m seed) m (ed25519_getPublicKey seed) = true) ->
    encodeAndSignTicket t secret = Ok signed ->
    derivePublicKey secret = Ok pk ->
    decodeCbor (signed_bytes signed) = Ok raw ->
    schema_parse raw = Ok t' ->
    signed_ticket signed = t /\
    encodeCbor (ticket_object t) = Ok (signed_bytes signed) /\
    verify (signed_bytes signed) (FromBytes (signed_signature signed)) (FromBytes pk)
      = Ok true /\
    decodeAndVerifyTicket Date_now (signed_bytes signed)
      (FromBytes (signed_signature signed)) (FromBytes pk) opts
      = Ok (semantic_checks (default (Date_now / 1000) (nowSeconds opts)) opts t').
Proof.
  intros Date_now t secret signed pk raw t' opts Hscheme Hsigned Hpk Hraw Hparse.
  unfold encodeAndSignTicket in Hsigned. rewrite encodeCbor_ticket, bind_Ok in Hsigned.
  unfold sign in Hsigned. unfold derivePublicKey in Hpk.
  destruct (normalizeSecret secret) as [seed | e] eqn:Hseed; [| discriminate].
  rewrite !bind_Ok in Hsigned. rewrite bind_Ok in Hpk.
  pose proof (encodeCbor_ticket t) as Hencoded.
  set (encoded := Cborg.encode (ticket_object t)) in *.
  injection Hsigned as <-. injection Hpk as <-.
  change (decodeCbor encoded = Ok raw) in Hraw.
  change (signed_ticket (mkSignedTicket t encoded (ed25519_sign encoded seed))) with t.
  change (signed_bytes (mkSignedTicket t encoded (ed25519_sign encoded seed))) with encoded.
  change (signed_signature (mkSignedTicket t encoded (ed25519_sign encoded seed)))
    with (ed25519_sign encoded seed).
  destruct (Hscheme encoded seed (normalizeSecret_length _ _ Hseed))
    as (Hsiglen & Hpklen & Hverify).
  assert (Hv : verify encoded (FromBytes (ed25519_sign encoded seed))
                 (FromBytes (ed25519_getPublicKey seed)) = Ok true).
  { rewrite (verify_well_formed encoded (FromBytes (ed25519_sign encoded seed))
               (FromBytes (ed25519_getPublicKey seed)) _ _ eq_refl Hsiglen eq_refl Hpklen).
    now rewrite Hverify. }
  split; [reflexivity | split; [exact Hencoded | split; [exact Hv |]]].
  now rewrite decodeAndVerifyTicket_stages, Hv, Hraw, Hparse.
Qed.

Lemma toy_noble_sound (m seed : bytes) :
  length seed = 32%nat ->
  length (ed25519_sign (Noble:=toy_noble) m seed) = 64%nat /\
  length (ed25519_getPublicKey (Noble:=toy_noble) seed) = 32%nat /\
  ed25519_verify (Noble:=toy_noble) (ed25519_sign (Noble:=toy_noble) m seed) m
    (ed25519_getPublicKey (Noble:=toy_noble) seed) = true.
Proof.
  intros Hseed. cbn. split; [| split; [assumption | now apply bool_decide_eq_true]].
  unfold toy_signature. rewrite List.length_firstn, !List.length_app, List.repeat_length. lia.
Qed.

Lemma encodeAndSignTicket_then_decodeAndVerifyTicket_witness :
  let H := toy_noble in
  let Z := toy_zod in
  encodeAndSignTicket example_ticket (FromBytes signer_1) = Ok example_signed /\
  decodeAndVerifyTicket 0 (signed_bytes example_signed)
    (FromBytes (signed_signature example_signed)) (FromBytes signer_1) no_options
    = Ok (accepted example_ticket).
Proof.
  intros H Z. subst H Z.
  assert (Hsigned : encodeAndSignTicket (H:=toy_noble) example_ticket (FromBytes signer_1)
                    = Ok example_signed) by (vm_compute; reflexivity).
  split; [exact Hsigned |].
  pose proof (encodeAndSignTicket_then_decodeAndVerifyTicket (H:=toy_noble) (H0:=toy_zod)
                0 example_ticket (FromBytes signer_1) example_signed signer_1
                (canonical (ticket_object example_ticket)) example_ticket no_options
                toy_noble_sound Hsigned) as Hthen.
  destruct Hthen as (_ & _ & _ & Hdecoded); [vm_compute; reflexivity .. |].
  rewrite Hdecoded. vm_compute. reflexivity.
Defined.

(** X11. Once the signature, the decoding, the schema and the expected
    deal and action are passed, [decodeAndVerifyTicket] accepts exactly when
    [now <= expires_at + maxSkew]. With no skew it still accepts at the
    instant [now = expires_at], at which [isTicketExpired] of the same
    module already says that the ticket has expired. *)
Theorem decodeAndVerifyTicket_expiry_boundary `{Noble} `{Zod} :
  forall (Date_now : Z) (bs : bytes) (signature pubkey : bytes_or_hex)
         (opts : DecodeVerifyOptions) (raw : value) (t : ResolveTicket),
    verify bs signature pubkey = Ok true ->
    decodeCbor bs = Ok raw ->
    schema_parse raw = Ok t ->
    mismatched_deal_id opts t = false ->
    mismatched_action opts t = false ->
    let now := default (Date_now / 1000) (nowSeconds opts) in
    let maxSkew := default 0 (maxSkewSeconds opts) in
    let answer := decodeAndVerifyTicket Date_now bs signature pubkey opts in
    (answer = Ok (accepted t) <-> now <= expires_at t + maxSkew) /\
    (answer = Ok (rejected "ticket_expired") <-> expires_at t + maxSkew < now) /\
    (maxSkew = 0 -> now = expires_at t ->
     answer = Ok (accepted t) /\
     ResolveTicketHelpers.isTicketExpired Date_now t (nowSeconds opts) = true).
Proof.
  intros Date_now bs signature pubkey opts raw t Hverify Hraw Hparse Hdeal Haction
         now maxSkew answer.
  assert (Hanswer : answer = Ok (if expires_at t + maxSkew <? now
                                 then rejected "ticket_expired" else accepted t)).
  { subst answer. rewrite decodeAndVerifyTicket_stages, Hverify, Hraw, Hparse.
    unfold semantic_checks. now rewrite Hdeal, Haction. }
  rewrite Hanswer. clear Hanswer.
  assert (Hexpired : ResolveTicketHelpers.isTicketExpired Date_now t (nowSeconds opts)
                     = (expires_at t <=? now)).
  { unfold ResolveTicketHelpers.isTicketExpired. subst now.
    destruct (nowSeconds opts); reflexivity. }
  destruct (Z.ltb_spec (expires_at t + maxSkew) now) as [Hlt | Hge].
  - split; [| split].
    + split; [discriminate | lia].
    + tauto.
    + lia.
  - split; [| split].
    + tauto.
    + split; [discriminate | lia].
    + intros Hskew Hnow. split; [reflexivity |].
      rewrite Hexpired. apply Z.leb_le. lia.
Qed.

Lemma decodeAndVerifyTicket_expiry_boundary_witness :
  let H := toy_noble in
  let Z := toy_zod in
  let opts := mkDecodeVerifyOptions None None (Some 2000000000) None in
  decodeAndVerifyTicket 0 example_bytes (FromBytes (toy_signature example_bytes signer_1))
    (FromBytes signer_1) opts = Ok (accepted example_ticket) /\
  ResolveTicketHelpers.isTicketExpired 0 example_ticket (nowSeconds opts) = true.
Proof.
  intros H Z opts. subst H Z.
  pose proof (decodeAndVerifyTicket_expiry_boundary (H:=toy_noble) (H0:=toy_zod) 0
                example_bytes (FromBytes (toy_signature example_bytes signer_1))
                (FromBytes signer_1) opts (canonical (ticket_object example_ticket))
                example_ticket) as Hboundary.
  destruct Hboundary as (_ & _ & Hat); [vm_compute; reflexivity .. |].
  apply Hat; reflexivity.
Defined.

(* ===================================================================== *)
(** * resolveTicketTransport.ts: envelopes *)
(* ===================================================================== *)

Lemma prefix_0X_render_hex (digit : N -> ascii) (bs : bytes) :
  (forall n, (n < 16)%N -> hex_digit_value (digit n) = Some n) ->
  String.prefix "0X" (render_hex digit bs) = false.
Proof.
  intros Hdigit. destruct bs as [| b bs]; [reflexivity |].
  cbn [render_hex].
  destruct (byte_nibbles b) as [_ Hlo].
  destruct (hex_digit_not_x (digit (Byte.to_N b mod 16)%N)) as [_ HX].
  { unfold is_hex_digit. now rewrite (Hdigit _ Hlo). }
  cbn [String.prefix]. destruct (ascii_dec _ _); [| reflexivity].
  destruct (ascii_dec _ _) as [Heq |]; [| reflexivity].
  rewrite <- Heq in HX. discriminate HX.
Qed.

Lemma Transport_hexToBytes_0x (s : string) :
  Transport.hexToBytes ("0x" +:+ s) =
  if negb (String.length s mod 2 =? 0)%nat then
    Throw (Error "hex string must have an even length")
  else Ok (map (fun byte => ToUint8 (parseInt16 byte)) (Transport.slices s)).
Proof. reflexivity. Qed.

(** The transport's parser reads every rendering of [bytesToHex]. *)
Lemma Transport_hexToBytes_rendered (bs : bytes) (opts : option BytesToHexOpts) :
  Transport.hexToBytes (bytesToHex bs opts) = Ok bs.
Proof.
  unfold bytesToHex. rewrite concat_padStart.
  assert (Hany : forall digit,
            (forall n, (n < 16)%N -> hex_digit_value (digit n) = Some n) ->
            Transport.hexToBytes (render_hex digit bs) = Ok bs /\
            Transport.hexToBytes ("0x" +:+ render_hex digit bs) = Ok bs).
  { intros digit Hdigit.
    assert (Hbody : (if negb (String.length (render_hex digit bs) mod 2 =? 0)%nat
                     then Throw (Error "hex string must have an even length")
                     else Ok (map (fun byte => ToUint8 (parseInt16 byte))
                                  (Transport.slices (render_hex digit bs)))) = Ok bs).
    { rewrite length_render_hex.
      replace (2 * length bs)%nat with (0 + length bs * 2)%nat by lia.
      rewrite Nat.Div0.mod_add. cbn [Nat.modulo Nat.eqb negb].
      rewrite map_parseInt16_slices by now apply render_hex_all_hex.
      now rewrite parse_render_hex. }
    split.
    - rewrite Transport_hexToBytes_no_prefix; [exact Hbody | |].
      + now apply strip_0x_render_hex.
      + now apply prefix_0X_render_hex.
    - rewrite Transport_hexToBytes_0x. exact Hbody. }
  destruct (Hany hex_digit hex_digit_value_hex_digit) as [Hl Hlp].
  destruct (Hany _ hex_digit_value_upper) as [Hu Hup].
  rewrite render_hex_lower in Hl, Hlp. rewrite render_hex_upper in Hu, Hup.
  destruct (default false (opts ≫= opt_uppercase)),
           (default false (opts ≫= opt_prefix)); assumption.
Qed.

(** X12. Opening the envelope made of a signed ticket and of the hex text
    of a public key (rendered by [bytesToHex], with any options) is
    [decodeAndVerifyTicket] on the signed bytes, the signature and the key:
    nothing is lost in the hex transport. An envelope with another schema
    tag is rejected without its fields being read. *)
Theorem fromEnvelope_toEnvelope `{Noble} `{Zod} :
  forall (Date_now : Z) (signed : SignedTicket) (pk : bytes)
         (hexOpts : option BytesToHexOpts) (opts : DecodeVerifyOptions),
    fromEnvelope Date_now (toEnvelope signed (bytesToHex pk hexOpts)) opts =
      decodeAndVerifyTicket Date_now (signed_bytes signed)
        (FromBytes (signed_signature signed)) (FromBytes pk) opts /\
    (forall env : ResolveTicketEnvelope,
       env_schema env <> "escrow.v1.ResolveTicketEnvelope" ->
       fromEnvelope Date_now env opts = Ok (rejected "invalid_envelope_schema")).
Proof.
  intros Date_now signed pk hexOpts opts. split.
  - unfold fromEnvelope, toEnvelope.
    cbn [env_schema ticket_cbor_hex signature_hex pubkey_hex String.eqb].
    destruct (Transport_hex_trip (signed_bytes signed)) as [_ Hbytes].
    destruct (Transport_hex_trip (signed_signature signed)) as [_ Hsig].
    replace (String.eqb "escrow.v1.ResolveTicketEnvelope" "escrow.v1.ResolveTicketEnvelope")
      with true by (symmetry; apply String.eqb_refl).
    cbn [negb]. rewrite Hbytes, bind_Ok, Hsig, bind_Ok.
    now rewrite Transport_hexToBytes_rendered, bind_Ok.
  - intros env Htag. unfold fromEnvelope.
    destruct (String.eqb_spec (env_schema env) "escrow.v1.ResolveTicketEnvelope");
      [contradiction | reflexivity].
Qed.

Lemma fromEnvelope_toEnvelope_witness :
  let H := toy_noble in
  let Z := toy_zod in
  fromEnvelope 0 (mkResolveTicketEnvelope "escrow.v2" "zz" EmptyString "0") no_options
    = Ok (rejected "invalid_envelope_schema").
Proof.
  intros H Z. subst H Z.
  pose proof (fromEnvelope_toEnvelope (H:=toy_noble) (H0:=toy_zod) 0 example_signed
                signer_1 None no_options) as [_ Htag].
  apply Htag. discriminate.
Defined.

(* ===================================================================== *)
(** * resolveTicketMultisig.ts *)
(* ===================================================================== *)

Lemma keyEquals_eq (a b : bytes_or_hex) : keyEquals a b = true <-> a = b.
Proof.
  destruct a as [a | a], b as [b | b]; cbn [keyEquals].
  - pose proof (key_matches_eq b a) as Hk. unfold key_matches in Hk.
    destruct (length a =? length b)%nat; cbn [negb andb] in *.
    + rewrite Hk. split; [now intros -> | now intros [= ->]].
    + split; [discriminate |]. intros [= ->]. now apply Hk.
  - split; discriminate.
  - split; discriminate.
  - rewrite String.eqb_eq. split; [now intros -> | now intros [= ->]].
Qed.

Lemma same_participant_eq (s1 s2 : ParticipantSignature) :
  same_participant s1 s2 = true <-> role s2 = role s1 /\ pubkey s2 = pubkey s1.
Proof.
  unfold same_participant. now rewrite andb_true_iff, bool_decide_eq_true, keyEquals_eq.
Qed.

Lemma same_participant_sym (s1 s2 : ParticipantSignature) :
  same_participant s1 s2 = same_participant s2 s1.
Proof.
  apply eq_true_iff_eq. rewrite !same_participant_eq. intuition congruence.
Qed.

(** The outcomes of [addParticipantSignature]. *)
Lemma addParticipantSignature_cases `{Noble} (multi : MultiSigTicket)
  (sig : ParticipantSignature) :
  addParticipantSignature multi sig =
  match verify (Cborg.encode (ticket_object (multi_ticket multi)))
               (signature sig) (pubkey sig) with
  | Throw e => Throw e
  | Ok false => Throw (Error "invalid_signature_for_ticket")
  | Ok true =>
      Ok (mkMultiSigTicket (multi_ticket multi)
            (List.filter (fun s => negb (same_participant sig s)) (signatures multi)
             ++ [sig]))
  end.
Proof.
  unfold addParticipantSignature. rewrite encodeCbor_ticket, bind_Ok.
  destruct (verify _ _ _) as [[] | e]; reflexivity.
Qed.

Lemma addParticipantSignature_Ok `{Noble} (multi multi' : MultiSigTicket)
  (sig : ParticipantSignature) :
  addParticipantSignature multi sig = Ok multi' ->
  verify (Cborg.encode (ticket_object (multi_ticket multi))) (signature sig) (pubkey sig)
    = Ok true /\
  multi' = mkMultiSigTicket (multi_ticket multi)
             (List.filter (fun s => negb (same_participant sig s)) (signatures multi)
              ++ [sig]).
Proof.
  rewrite addParticipantSignature_cases.
  destruct (verify _ _ _) as [[] | e]; [| discriminate ..].
  intros [= <-]. auto.
Qed.

(** X13. The signatures collected in a [MultiSigTicket] are checked ones:
    the wrapper made by [createMultiSigTicket] holds none, and
    [addParticipantSignature] keeps the ticket, adds the new signature only
    if it verifies over the canonical bytes of the ticket, and keeps only
    signatures that were there. A signature that does not verify makes it
    throw [invalid_signature_for_ticket]; what [verify] throws on malformed
    lengths is thrown as well. *)
Theorem addParticipantSignature_verified `{Noble} :
  forall (multi : MultiSigTicket) (sig : ParticipantSignature),
    all_verified (createMultiSigTicket (multi_ticket multi)) /\
    (forall multi', all_verified multi ->
       addParticipantSignature multi sig = Ok multi' ->
       multi_ticket multi' = multi_ticket multi /\
       all_verified multi' /\
       In sig (signatures multi') /\
       (forall s, In s (signatures multi') -> s = sig \/ In s (signatures multi))) /\
    (verify (Cborg.encode (ticket_object (multi_ticket multi))) (signature sig) (pubkey sig)
       = Ok false ->
     addParticipantSignature multi sig = Throw (Error "invalid_signature_for_ticket")) /\
    (forall e,
       verify (Cborg.encode (ticket_object (multi_ticket multi))) (signature sig) (pubkey sig)
         = Throw e ->
       addParticipantSignature multi sig = Throw e).
Proof.
  intros multi sig. split; [constructor | split; [| split]].
  - intros multi' Hall Hadd.
    destruct (addParticipantSignature_Ok _ _ _ Hadd) as [Hverify ->].
    cbn [multi_ticket signatures]. split; [reflexivity | split; [| split]].
    + unfold all_verified. cbn [multi_ticket signatures].
      apply List.Forall_app. split.
      * apply List.Forall_forall. intros s Hs. apply List.filter_In in Hs as [Hs _].
        unfold all_verified in Hall. rewrite List.Forall_forall in Hall. now apply Hall.
      * constructor; [assumption | constructor].
    + apply List.in_or_app. right. now left.
    + intros s Hs. apply List.in_app_or in Hs as [Hs | [<- | []]].
      * right. now apply List.filter_In in Hs as [Hs _].
      * now left.
  - intros Hverify. now rewrite addParticipantSignature_cases, Hverify.
  - intros e Hverify. now rewrite addParticipantSignature_cases, Hverify.
Qed.

Lemma addParticipantSignature_verified_witness :
  let H := toy_noble in
  addParticipantSignature (createMultiSigTicket example_ticket) buyer_signature
    = Ok (mkMultiSigTicket example_ticket [buyer_signature]) /\
  all_verified (mkMultiSigTicket example_ticket [buyer_signature]) /\
  addParticipantSignature (createMultiSigTicket example_ticket)
    (mkParticipantSignature SELLER (FromBytes signer_2)
       (FromBytes (toy_signature example_bytes signer_1)))
    = Throw (Error "invalid_signature_for_ticket").
Proof.
  intros H. subst H.
  assert (Hadd : addParticipantSignature (H:=toy_noble) (createMultiSigTicket example_ticket)
                   buyer_signature
                 = Ok (mkMultiSigTicket example_ticket [buyer_signature]))
    by (vm_compute; reflexivity).
  split; [exact Hadd | split].
  - pose proof (addParticipantSignature_verified (H:=toy_noble)
                  (createMultiSigTicket example_ticket) buyer_signature)
      as (Hnew & Hkeep & _).
    apply (Hkeep _ Hnew Hadd).
  - pose proof (addParticipantSignature_verified (H:=toy_noble)
                  (createMultiSigTicket example_ticket)
                  (mkParticipantSignature SELLER (FromBytes signer_2)
                     (FromBytes (toy_signature example_bytes signer_1))))
      as (_ & _ & Hbad & _).
    apply Hbad. vm_compute. reflexivity.
Defined.

Lemma ForallOrdPairs_app {A} (R : A -> A -> Prop) (l1 l2 : list A) :
  ForallOrdPairs R l1 -> ForallOrdPairs R l2 ->
  (forall x y, In x l1 -> In y l2 -> R x y) ->
  ForallOrdPairs R (l1 ++ l2).
Proof.
  intros H1 H2 H12. induction H1 as [| x l Hx Hl IH]; [assumption |].
  cbn [app]. constructor.
  - apply List.Forall_app. split; [assumption |].
    apply List.Forall_forall. intros y Hy. apply H12; [now left | assumption].
  - apply IH. intros a b Ha Hb. apply H12; [now right | assumption].
Qed.

Lemma ForallOrdPairs_filter {A} (R : A -> A -> Prop) (f : A -> bool) (l : list A) :
  ForallOrdPairs R l -> ForallOrdPairs R (List.filter f l).
Proof.
  induction 1 as [| x l Hx Hl IH]; cbn [List.filter]; [constructor |].
  destruct (f x); [| assumption]. constructor; [| assumption].
  apply List.Forall_forall. intros y Hy. apply List.filter_In in Hy as [Hy _].
  rewrite List.Forall_forall in Hx. now apply Hx.
Qed.

(** X14. A new signature replaces the one of the same role and key: after
    [addParticipantSignature] the new signature is the last one, every
    other signature is kept, in order, unless it is for the same role and
    key, the list has grown by one at most, and if no two signatures were
    for the same role and key before, none are after. *)
Theorem addParticipantSignature_replaces `{Noble} :
  forall (multi multi' : MultiSigTicket) (sig : ParticipantSignature),
    addParticipantSignature multi sig = Ok multi' ->
    last (signatures multi') = Some sig /\
    (forall s, In s (signatures multi) ->
       (role s <> role sig \/ pubkey s <> pubkey sig) -> In s (signatures multi')) /\
    (forall s, role s = role sig -> pubkey s = pubkey sig ->
       In s (signatures multi') -> s = sig) /\
    (length (signatures multi') <= length (signatures multi) + 1)%nat /\
    (distinct_participants (signatures multi) ->
     distinct_participants (signatures multi')).
Proof.
  intros multi multi' sig Hadd.
  destruct (addParticipantSignature_Ok _ _ _ Hadd) as [_ ->].
  cbn [signatures]. split; [| split; [| split; [| split]]].
  - apply last_snoc.
  - intros s Hs Hother. apply List.in_or_app. left. apply List.filter_In.
    split; [assumption |]. apply negb_true_iff.
    destruct (same_participant sig s) eqn:Hsame; [| reflexivity].
    apply same_participant_eq in Hsame. tauto.
  - intros s Hrole Hkey Hs. apply List.in_app_or in Hs as [Hs | [<- | []]]; [| reflexivity].
    apply List.filter_In in Hs as [_ Hs]. apply negb_true_iff in Hs.
    assert (Hsame : same_participant sig s = true) by now apply same_participant_eq.
    congruence.
  - rewrite List.length_app. cbn [length].
    pose proof (List.filter_length_le (fun s => negb (same_participant sig s))
                  (signatures multi)). lia.
  - intros Hdistinct. apply ForallOrdPairs_app.
    + now apply ForallOrdPairs_filter.
    + constructor; constructor.
    + intros x y Hx [<- | []]. apply List.filter_In in Hx as [_ Hx].
      apply negb_true_iff in Hx. now rewrite same_participant_sym.
Qed.

Lemma addParticipantSignature_replaces_witness :
  let H := toy_noble in
  exists multi',
    addParticipantSignature example_multi buyer_signature = Ok multi' /\
    signatures multi' = [seller_signature; buyer_signature] /\
    distinct_participants (signatures multi').
Proof.
  intros H. subst H.
  assert (Hadd : addParticipantSignature (H:=toy_noble) example_multi buyer_signature
                 = Ok (mkMultiSigTicket example_ticket [seller_signature; buyer_signature]))
    by (vm_compute; reflexivity).
  eexists. split; [exact Hadd | split; [reflexivity |]].
  pose proof (addParticipantSignature_replaces (H:=toy_noble) _ _ _ Hadd)
    as (_ & _ & _ & _ & Hdistinct).
  apply Hdistinct. repeat constructor.
Defined.

Lemma existsb_role_filter (sig : ParticipantSignature) (l : list ParticipantSignature)
  (r : ParticipantRole) :
  existsb (fun s => bool_decide (role s = r)) l = true ->
  existsb (fun s => bool_decide (role s = r))
    (List.filter (fun s => negb (same_participant sig s)) l ++ [sig]) = true.
Proof.
  intros Hex. apply existsb_exists in Hex as (s & Hs & Hr). apply bool_decide_eq_true in Hr.
  apply existsb_exists.
  destruct (same_participant sig s) eqn:Hsame.
  - exists sig. split; [apply List.in_or_app; right; now left |].
    apply same_participant_eq in Hsame as [Hrole _].
    apply bool_decide_eq_true. congruence.
  - exists s. split; [| now apply bool_decide_eq_true].
    apply List.in_or_app. left. apply List.filter_In. now rewrite Hsame.
Qed.

(** X15. Adding a signature never loses a role: if the required roles were
    covered before [addParticipantSignature] they are covered after, the
    role of the new signature is covered, its key is among the signers of
    its role, and the signers of every other role are the same. *)
Theorem addParticipantSignature_isThresholdMet `{Noble} :
  forall (multi multi' : MultiSigTicket) (sig : ParticipantSignature)
         (requiredRoles : list ParticipantRole),
    addParticipantSignature multi sig = Ok multi' ->
    (isThresholdMet multi requiredRoles = true ->
     isThresholdMet multi' requiredRoles = true) /\
    isThresholdMet multi' [role sig] = true /\
    In (pubkey sig) (getSignersForRole multi' (role sig)) /\
    (forall r, r <> role sig -> getSignersForRole multi' r = getSignersForRole multi r).
Proof.
  intros multi multi' sig requiredRoles Hadd.
  destruct (addParticipantSignature_Ok _ _ _ Hadd) as [_ ->].
  unfold isThresholdMet, getSignersForRole. cbn [signatures].
  split; [| split; [| split]].
  - rewrite !forallb_forall. intros Hmet r Hr. apply existsb_role_filter. now apply Hmet.
  - cbn [forallb]. rewrite andb_true_r. apply existsb_exists. exists sig.
    split; [apply List.in_or_app; right; now left | now apply bool_decide_eq_true].
  - apply List.in_map. apply List.filter_In.
    split; [apply List.in_or_app; right; now left | now apply bool_decide_eq_true].
  - intros r Hr. f_equal. rewrite List.filter_app. cbn [List.filter].
    destruct (bool_decide_reflect (role sig = r)) as [Heq |]; [congruence |].
    rewrite app_nil_r. clear Hadd.
    induction (signatures multi) as [| s l IH]; [reflexivity |].
    cbn [List.filter].
    destruct (same_participant sig s) eqn:Hsame; cbn [negb List.filter].
    + apply same_participant_eq in Hsame as [Hrole _].
      destruct (bool_decide_reflect (role s = r)) as [Heq |]; [congruence | exact IH].
    + destruct (bool_decide (role s = r)); [now rewrite IH | exact IH].
Qed.

Lemma addParticipantSignature_isThresholdMet_witness :
  let H := toy_noble in
  exists multi',
    addParticipantSignature example_multi buyer_signature_hex = Ok multi' /\
    isThresholdMet multi' [BUYER; SELLER] = true /\
    getSignersForRole multi' BUYER = [FromBytes signer_1; FromHex (toHex signer_1 None)].
Proof.
  intros H. subst H.
  assert (Hadd : addParticipantSignature (H:=toy_noble) example_multi buyer_signature_hex
                 = Ok (mkMultiSigTicket example_ticket
                         [buyer_signature; seller_signature; buyer_signature_hex]))
    by (vm_compute; reflexivity).
  eexists. split; [exact Hadd | split; [| reflexivity]].
  pose proof (addParticipantSignature_isThresholdMet (H:=toy_noble) _ _ _ [BUYER; SELLER] Hadd)
    as (Hmet & _).
  apply Hmet. reflexivity.
Defined.

(** X16. [keyEquals] holds exactly for two keys given in the same form
    (both hex texts, or both byte arrays) with the same content. A key given
    as hex text is never equal to the same key given as bytes, so the signer
    is then kept under both forms by [addParticipantSignature]. *)
Theorem keyEquals_same_form `{Noble} :
  forall (a b : bytes_or_hex),
    (keyEquals a b = true <-> a = b) /\
    (forall (k : bytes) (hex : string), keyEquals (FromHex hex) (FromBytes k) = false) /\
    (forall multi multi' sig s,
       addParticipantSignature multi sig = Ok multi' ->
       In s (signatures multi) ->
       keyEquals (pubkey s) (pubkey sig) = false ->
       In s (signatures multi')).
Proof.
  intros a b. split; [apply keyEquals_eq | split; [reflexivity |]].
  intros multi multi' sig s Hadd Hs Hkey.
  destruct (addParticipantSignature_Ok _ _ _ Hadd) as [_ ->].
  cbn [signatures]. apply List.in_or_app. left. apply List.filter_In.
  split; [assumption |]. apply negb_true_iff.
  destruct (same_participant sig s) eqn:Hsame; [| reflexivity].
  apply same_participant_eq in Hsame as [_ Hsame].
  apply keyEquals_eq in Hsame. congruence.
Qed.

Lemma keyEquals_same_form_witness :
  let H := toy_noble in
  exists multi',
    addParticipantSignature example_multi buyer_signature_hex = Ok multi' /\
    In buyer_signature (signatures multi') /\ In buyer_signature_hex (signatures multi').
Proof.
  intros H. subst H.
  assert (Hadd : addParticipantSignature (H:=toy_noble) example_multi buyer_signature_hex
                 = Ok (mkMultiSigTicket example_ticket
                         [buyer_signature; seller_signature; buyer_signature_hex]))
    by (vm_compute; reflexivity).
  eexists. split; [exact Hadd | split].
  - pose proof (keyEquals_same_form (H:=toy_noble) (FromBytes signer_1) (FromBytes signer_1))
      as (_ & _ & Hkept).
    apply (Hkept example_multi _ buyer_signature_hex buyer_signature Hadd).
    + now left.
    + reflexivity.
  - right. right. now left.
Defined.

(* ===================================================================== *)
(** * The order of JavaScript numbers *)
(* ===================================================================== *)

(** The comparison of two dyadic numbers can be made on any exponent below
    theirs. *)
Lemma dyadic_lt_scaled (m1 e1 m2 e2 E : Z) :
  E <= e1 -> E <= e2 ->
  dyadic_lt m1 e1 m2 e2 = (m1 * 2 ^ (e1 - E) <? m2 * 2 ^ (e2 - E)).
Proof.
  intros H1 H2. unfold dyadic_lt.
  set (e := Z.min e1 e2).
  assert (He : E <= e) by (subst e; lia).
  assert (He1 : e <= e1) by (subst e; lia).
  assert (He2 : e <= e2) by (subst e; lia).
  replace (e1 - E) with ((e1 - e) + (e - E)) by lia.
  replace (e2 - E) with ((e2 - e) + (e - E)) by lia.
  rewrite !Z.pow_add_r by lia.
  assert (Hpos : 0 < 2 ^ (e - E)) by (apply Z.pow_pos_nonneg; lia).
  rewrite !Z.mul_assoc.
  destruct (Z.ltb_spec (m1 * 2 ^ (e1 - e)) (m2 * 2 ^ (e2 - e))) as [Hlt | Hge];
    symmetry; [apply Z.ltb_lt | apply Z.ltb_ge].
  - now apply Z.mul_lt_mono_pos_r.
  - now apply Z.mul_le_mono_nonneg_r; [lia |].
Qed.

Lemma xreal_lt_trans (a b c : xreal) :
  xreal_lt a b = true -> xreal_lt b c = true -> xreal_lt a c = true.
Proof.
  destruct a as [| | m1 e1 |], b as [| | m2 e2 |], c as [| | m3 e3 |];
    cbn [xreal_lt]; try discriminate; try reflexivity.
  set (E := Z.min e1 (Z.min e2 e3)).
  rewrite (dyadic_lt_scaled m1 e1 m2 e2 E), (dyadic_lt_scaled m2 e2 m3 e3 E),
    (dyadic_lt_scaled m1 e1 m3 e3 E) by (subst E; lia).
  rewrite !Z.ltb_lt. lia.
Qed.

Lemma xreal_lt_not_NaN (a b : xreal) :
  xreal_lt a b = true -> is_NaN a = false /\ is_NaN b = false.
Proof. destruct a, b; cbn; try discriminate; auto. Qed.

Lemma number_lt_trans (a b c : number) :
  number_lt a b = true -> number_lt b c = true -> number_lt a c = true.
Proof. apply xreal_lt_trans. Qed.

(* ===================================================================== *)
(** * helpers.ts *)
(* ===================================================================== *)

(** X17. For a non-negative integer amount (small enough for the product
    with 10000 to be a safe integer) and basis points from 0 to 10000,
    [calculateSplitAmounts] returns two non-negative amounts that add up to
    the total; the seller's amount is the exact share rounded down, so the
    rounding goes to the buyer; it grows with the basis points; 0 gives all
    to the buyer and 10000 all to the seller. Basis points out of that
    range make it throw. *)
Theorem calculateSplitAmounts_conserves :
  forall totalAmount splitBps : Z,
    0 <= totalAmount -> totalAmount * 10000 <= 9007199254740991 ->
    (0 <= splitBps <= 10000 ->
     exists sellerAmount buyerAmount,
       calculateSplitAmounts totalAmount splitBps = Ok (sellerAmount, buyerAmount) /\
       sellerAmount + buyerAmount = totalAmount /\
       0 <= sellerAmount <= totalAmount /\ 0 <= buyerAmount <= totalAmount /\
       10000 * sellerAmount <= totalAmount * splitBps < 10000 * (sellerAmount + 1) /\
       (splitBps = 0 -> sellerAmount = 0) /\
       (splitBps = 10000 -> buyerAmount = 0) /\
       (forall higherBps, splitBps <= higherBps <= 10000 ->
          exists sellerAmount' buyerAmount',
            calculateSplitAmounts totalAmount higherBps = Ok (sellerAmount', buyerAmount') /\
            sellerAmount <= sellerAmount')) /\
    (splitBps < 0 \/ 10000 < splitBps ->
     exists message, calculateSplitAmounts totalAmount splitBps = Throw (Error message)).
Proof.
  intros totalAmount splitBps Htotal Hsafe. split.
  - intros Hbps.
    assert (Hok : forall bps, 0 <= bps <= 10000 ->
              calculateSplitAmounts totalAmount bps
              = Ok (totalAmount * bps / 10000, totalAmount - totalAmount * bps / 10000)).
    { intros bps Hb. unfold calculateSplitAmounts.
      destruct (Z.ltb_spec bps 0); [lia |]. rewrite Z.gtb_ltb.
      destruct (Z.ltb_spec 10000 bps); [lia | reflexivity]. }
    set (seller := totalAmount * splitBps / 10000).
    assert (Hfloor : 10000 * seller <= totalAmount * splitBps < 10000 * (seller + 1)).
    { subst seller. pose proof (Z.mul_div_le (totalAmount * splitBps) 10000 ltac:(lia)).
      pose proof (Z.mul_succ_div_gt (totalAmount * splitBps) 10000 ltac:(lia)). lia. }
    exists seller, (totalAmount - seller).
    split; [apply Hok; assumption |].
    assert (Hupper : seller <= totalAmount).
    { subst seller. apply Z.div_le_upper_bound; [lia | nia]. }
    assert (Hlower : 0 <= seller).
    { subst seller. apply Z.div_pos; [nia | lia]. }
    split; [lia |]. split; [lia |]. split; [lia |]. split; [| split; [| split]].
    + assumption.
    + intros ->. subst seller. rewrite Z.mul_0_r. reflexivity.
    + intros ->. subst seller. rewrite Z.div_mul by lia. lia.
    + intros higherBps Hhigher. eexists _, _. split; [apply Hok; lia |].
      subst seller. apply Z.div_le_mono; [lia | nia].
  - intros Hout. eexists. unfold calculateSplitAmounts.
    destruct (Z.ltb_spec splitBps 0); [reflexivity |]. rewrite Z.gtb_ltb.
    destruct (Z.ltb_spec 10000 splitBps); [reflexivity | lia].
Qed.

Lemma calculateSplitAmounts_conserves_witness :
  exists sellerAmount buyerAmount,
    calculateSplitAmounts 1001 3333 = Ok (sellerAmount, buyerAmount) /\
    sellerAmount + buyerAmount = 1001 /\
    10000 * sellerAmount <= 1001 * 3333 < 10000 * (sellerAmount + 1).
Proof.
  destruct (calculateSplitAmounts_conserves 1001 3333) as [Hin _]; [lia | lia |].
  destruct Hin as (s & b & Hcall & Hsum & _ & _ & Hfloor & _); [lia |].
  exists s, b. auto.
Defined.

(** X18. [validateNonceSequence] accepts exactly the nonces from
    [lastNonce + 1] to [lastNonce + 100], and gives an error text exactly
    when it refuses. Once a ticket has been accepted and its nonce has
    become the last nonce, that ticket and every ticket with a nonce that
    is not greater are refused. *)
Theorem validateNonceSequence_window :
  forall (t : ResolveTicket) (lastNonce : Z),
    (valid (validateNonceSequence t lastNonce) = true
       <-> lastNonce < nonce t <= lastNonce + 100) /\
    (valid (validateNonceSequence t lastNonce) = true
       <-> error (validateNonceSequence t lastNonce) = None) /\
    (forall t' : ResolveTicket,
       nonce t' <= nonce t -> valid (validateNonceSequence t' (nonce t)) = false).
Proof.
  intros t lastNonce.
  assert (Hwindow : forall (u : ResolveTicket) (n : Z),
            (valid (validateNonceSequence u n) = true <-> n < nonce u <= n + 100) /\
            (valid (validateNonceSequence u n) = true
               <-> error (validateNonceSequence u n) = None)).
  { intros u n. unfold validateNonceSequence.
    destruct (Z.leb_spec (nonce u) n); cbn [valid error].
    - split; split; intros; try discriminate; lia.
    - cbv zeta. rewrite Z.gtb_ltb.
      destruct (Z.ltb_spec 100 (nonce u - n)); cbn [valid error];
        split; split; intros; try discriminate; try reflexivity; lia. }
  split; [apply Hwindow | split; [apply Hwindow |]].
  intros t' Hle. destruct (valid (validateNonceSequence t' (nonce t))) eqn:Hvalid;
    [| reflexivity].
  apply (proj1 (Hwindow t' (nonce t))) in Hvalid. lia.
Qed.

Lemma validateNonceSequence_window_witness :
  valid (validateNonceSequence example_ticket_2 (nonce example_ticket)) = true /\
  valid (validateNonceSequence example_ticket (nonce example_ticket_2)) = false.
Proof.
  pose proof (validateNonceSequence_window example_ticket_2 (nonce example_ticket))
    as ([_ Hin] & _ & Hafter).
  split.
  - apply Hin. vm_compute. split; [reflexivity | discriminate].
  - apply Hafter. vm_compute. discriminate.
Defined.

Lemma Date_toISOString_cases `{JsDate} (ms : Z) :
  (Z.abs ms <= 8640000000000000 /\ Date_toISOString ms = Returned (iso_string ms)) \/
  (8640000000000000 < Z.abs ms /\ Date_toISOString ms = ThrowsRangeError).
Proof.
  unfold Date_toISOString. destruct (Z.leb_spec (Z.abs ms) 8640000000000000); auto.
Qed.

(** X19. [isTicketTimingValid] says [valid] exactly when the ticket expires
    in 60 to 86400 seconds from now (the bounds of [constants.ts]); a valid
    ticket is expired for neither [isTicketExpired], and its time until
    expiry lies within these bounds. On a ticket that has expired, the date
    of the reason cannot be rendered when [expires_at * 1000] is beyond
    8.64e15: the call then throws a [RangeError] instead of returning. *)
Theorem isTicketTimingValid_window `{JsDate} :
  forall (Date_now : Z) (t : ResolveTicket) (currentTime : option Z),
    let now := default (Date_now / 1000) currentTime in
    (isTicketTimingValid Date_now t currentTime = Returned (mkTimingCheck true None)
       <-> MIN_TICKET_LIFETIME_SECONDS <= expires_at t - now <= MAX_TICKET_LIFETIME_SECONDS) /\
    (forall check, isTicketTimingValid Date_now t currentTime = Returned check ->
       timing_valid check = true ->
       Helpers.isTicketExpired Date_now t currentTime = false /\
       ResolveTicketHelpers.isTicketExpired Date_now t currentTime = false /\
       60 <= getTimeUntilExpiry Date_now t currentTime <= 86400) /\
    (isTicketTimingValid Date_now t currentTime = ThrowsRangeError
       <-> expires_at t <= now /\ 8640000000000000 < Z.abs (expires_at t * 1000)).
Proof.
  intros Date_now t currentTime now.
  unfold MIN_TICKET_LIFETIME_SECONDS, MAX_TICKET_LIFETIME_SECONDS.
  assert (Hh : Helpers.isTicketExpired Date_now t currentTime = (expires_at t <? now)).
  { unfold Helpers.isTicketExpired. rewrite Z.gtb_ltb. subst now.
    destruct currentTime; reflexivity. }
  assert (Hr : ResolveTicketHelpers.isTicketExpired Date_now t currentTime
               = (expires_at t <=? now)).
  { unfold ResolveTicketHelpers.isTicketExpired. subst now.
    destruct currentTime; reflexivity. }
  rewrite Hh, Hr. unfold getTimeUntilExpiry, isTicketTimingValid. fold now.
  destruct (Z.leb_spec (expires_at t) now) as [Hexpired | Hlive].
  - destruct (Date_toISOString_cases (expires_at t * 1000)) as [[Hin ->] | [Hout ->]];
      cbn; (split; [| split]).
    + split; [discriminate | lia].
    + intros check [= <-]. discriminate.
    + split; [discriminate | lia].
    + split; [discriminate | lia].
    + discriminate.
    + split; [intros _; split; assumption | reflexivity].
  - cbv zeta. rewrite Z.gtb_ltb.
    change (24 * 60 * 60) with 86400.
    destruct (Z.ltb_spec 86400 (expires_at t - now)) as [Hlong | Hshort].
    + split; [| split].
      * split; [discriminate | lia].
      * intros check [= <-]. discriminate.
      * split; [discriminate | lia].
    + destruct (Z.ltb_spec (expires_at t - now) 60) as [Hsoon | Hok].
      * split; [| split].
        -- split; [discriminate | lia].
        -- intros check [= <-]. discriminate.
        -- split; [discriminate | lia].
      * split; [| split].
        -- split; [intros _; lia | reflexivity].
        -- intros check [= <-] _.
           destruct (Z.ltb_spec (expires_at t) now); [lia |]. repeat split; lia.
        -- split; [discriminate | lia].
Qed.

Lemma isTicketTimingValid_window_witness :
  let D := toy_date in
  isTicketTimingValid 0 example_ticket (Some 1999999000) = Returned (mkTimingCheck true None) /\
  Helpers.isTicketExpired 0 example_ticket (Some 1999999000) = false /\
  isTicketTimingValid 0 example_ticket (Some 2000000000)
    = Returned (mkTimingCheck false (Some "Ticket expired at 2000000000000")).
Proof.
  intros D. subst D.
  pose proof (isTicketTimingValid_window (H:=toy_date) 0 example_ticket (Some 1999999000))
    as (Hvalid & Hlive & _).
  assert (Hcall : isTicketTimingValid (H:=toy_date) 0 example_ticket (Some 1999999000)
                  = Returned (mkTimingCheck true None))
    by (apply Hvalid; vm_compute; split; discriminate).
  split; [exact Hcall | split; [| reflexivity]].
  apply (Hlive _ Hcall). reflexivity.
Defined.

(** X20. [meetsConfidenceThreshold] throws exactly for a threshold below 0
    or above 1; a threshold that is not a number is not refused, and no
    ticket meets it. Meeting a threshold means meeting every lower threshold
    that is not negative. *)
Theorem meetsConfidenceThreshold_monotone `{JsNumberFormat} :
  forall (t : ResolveTicket) (threshold lower : number),
    ((exists e, meetsConfidenceThreshold t threshold = Throw e)
       <-> number_lt threshold (Int 0) = true \/ number_lt (Int 1) threshold = true) /\
    (is_NaN (number_real threshold) = true ->
     meetsConfidenceThreshold t threshold = Ok false) /\
    (meetsConfidenceThreshold t threshold = Ok true ->
     number_lt lower threshold = true ->
     number_lt lower (Int 0) = false ->
     meetsConfidenceThreshold t lower = Ok true).
Proof.
  intros t threshold lower. unfold meetsConfidenceThreshold, number_gt.
  split; [| split].
  - destruct (number_lt threshold (Int 0)), (number_lt (Int 1) threshold); cbn [orb];
      split; try (intros [e He]; discriminate He); intros; eauto; intuition discriminate.
  - intros Hnan. unfold number_lt, number_ge.
    destruct (number_real threshold); try discriminate Hnan.
    cbn. destruct (number_real (confidence t)); cbn; now rewrite ?andb_false_r.
  - intros Hmeets Hlower Hnonneg.
    destruct (number_lt threshold (Int 0) || number_lt (Int 1) threshold) eqn:Hrange;
      [discriminate Hmeets |].
    apply orb_false_iff in Hrange as [_ Hle1].
    injection Hmeets as Hge. unfold number_ge in Hge |- *.
    apply andb_true_iff in Hge as [Hge Hnlt]. apply andb_true_iff in Hge as [Hconf _].
    rewrite Hnonneg. cbn [orb].
    destruct (number_lt (Int 1) lower) eqn:Habove.
    { rewrite (number_lt_trans _ _ _ Habove Hlower) in Hle1. discriminate Hle1. }
    f_equal. rewrite Hconf. cbn [andb].
    destruct (xreal_lt_not_NaN _ _ Hlower) as [-> _]. cbn [negb andb].
    destruct (number_lt (confidence t) lower) eqn:Hbelow; [| reflexivity].
    rewrite (number_lt_trans _ _ _ Hbelow Hlower) in Hnlt. discriminate Hnlt.
Qed.

Lemma meetsConfidenceThreshold_monotone_witness :
  let F := toy_number_format in
  meetsConfidenceThreshold example_ticket SAFE_EXECUTION_MIN_CONFIDENCE = Ok true /\
  meetsConfidenceThreshold example_ticket RECOMMENDED_MIN_CONFIDENCE = Ok true /\
  meetsConfidenceThreshold example_ticket (Float 0x7FF8000000000000) = Ok false.
Proof.
  intros F. subst F.
  assert (Hhigh : meetsConfidenceThreshold (H:=toy_number_format) example_ticket
                    SAFE_EXECUTION_MIN_CONFIDENCE = Ok true) by (vm_compute; reflexivity).
  pose proof (meetsConfidenceThreshold_monotone (H:=toy_number_format) example_ticket
                SAFE_EXECUTION_MIN_CONFIDENCE RECOMMENDED_MIN_CONFIDENCE) as (_ & _ & Hlower).
  pose proof (meetsConfidenceThreshold_monotone (H:=toy_number_format) example_ticket
                (Float 0x7FF8000000000000) (Int 0)) as (_ & Hnan & _).
  split; [exact Hhigh | split].
  - apply Hlower; [exact Hhigh | vm_compute; reflexivity | vm_compute; reflexivity].
  - apply Hnan. vm_compute. reflexivity.
Defined.

(* ===================================================================== *)
(** * validation.ts *)
(* ===================================================================== *)

Lemma outcome_bind_Returned {A B} (f : A -> outcome B) (a : A) : (Returned a ≫= f) = f a.
Proof. reflexivity. Qed.

(** X21. No SPLIT ticket gets a verdict from [validation.ts]: the module
    reads the constant [MIN_SPLIT_BPS], which it does not import, so on a
    SPLIT ticket [validateSplitConsistency], [validateTicketIntegrity] and
    [isSafeForAutomaticExecution] throw a [ReferenceError], and
    [requiresHumanReview] never answers [false]: it answers [true] when the
    confidence is below the minimum or the split is below 1% or above 99%,
    and throws otherwise. *)
Theorem validation_of_SPLIT_never_returns `{JsNumberFormat} :
  forall (Date_now : Z) (t : ResolveTicket) (options : IntegrityOptions)
         (minConfidenceOption : option number),
    action t = SPLIT ->
    validateSplitConsistency t = ThrowsReferenceError "MIN_SPLIT_BPS" /\
    validateTicketIntegrity Date_now t options = ThrowsReferenceError "MIN_SPLIT_BPS" /\
    isSafeForAutomaticExecution Date_now t options = ThrowsReferenceError "MIN_SPLIT_BPS" /\
    requiresHumanReview Date_now t minConfidenceOption =
      (if number_lt (confidence t) (default RECOMMENDED_MIN_CONFIDENCE minConfidenceOption)
          || (split_bps t <? 100) || (split_bps t >? 9900)
       then Returned true
       else ThrowsReferenceError "MIN_SPLIT_BPS") /\
    requiresHumanReview Date_now t minConfidenceOption <> Returned false.
Proof.
  intros Date_now t options minConfidenceOption Hsplit.
  assert (Hconsistency : validateSplitConsistency t = ThrowsReferenceError "MIN_SPLIT_BPS")
    by (unfold validateSplitConsistency; now rewrite Hsplit).
  assert (Hintegrity : forall o,
            validateTicketIntegrity Date_now t o = ThrowsReferenceError "MIN_SPLIT_BPS")
    by (intros o; unfold validateTicketIntegrity; now rewrite Hconsistency).
  assert (Hreview :
    requiresHumanReview Date_now t minConfidenceOption =
      (if number_lt (confidence t) (default RECOMMENDED_MIN_CONFIDENCE minConfidenceOption)
          || (split_bps t <? 100) || (split_bps t >? 9900)
       then Returned true
       else ThrowsReferenceError "MIN_SPLIT_BPS")).
  { unfold requiresHumanReview. rewrite Hsplit, Hintegrity.
    destruct (number_lt _ _); [reflexivity |]. cbn [orb].
    destruct (_ || _); reflexivity. }
  split; [exact Hconsistency | split; [apply Hintegrity | split; [| split]]].
  - unfold isSafeForAutomaticExecution. now rewrite Hintegrity.
  - exact Hreview.
  - rewrite Hreview. destruct (_ || _); discriminate.
Qed.

Lemma validation_of_SPLIT_never_returns_witness :
  let F := toy_number_format in
  validateSplitConsistency example_split = ThrowsReferenceError "MIN_SPLIT_BPS" /\
  isSafeForAutomaticExecution 0 example_split (mkIntegrityOptions None None)
    = ThrowsReferenceError "MIN_SPLIT_BPS" /\
  requiresHumanReview 0 example_split None = ThrowsReferenceError "MIN_SPLIT_BPS".
Proof.
  intros F. subst F.
  pose proof (validation_of_SPLIT_never_returns (H:=toy_number_format) 0 example_split
                (mkIntegrityOptions None None) None eq_refl)
    as (Hconsistency & _ & Hsafe & Hreview & _).
  split; [exact Hconsistency | split; [exact Hsafe | exact Hreview]].
Defined.

(** The result of [validateTicketIntegrity] on a ticket that is not a
    SPLIT. *)
Lemma validateTicketIntegrity_not_SPLIT `{JsNumberFormat} (Date_now : Z)
  (t : ResolveTicket) (options : IntegrityOptions) :
  action t <> SPLIT ->
  validateTicketIntegrity Date_now t options =
  let errors :=
    (if negb (split_bps t =? 0) then [ERROR_MESSAGES.SPLIT_BPS_MUST_BE_ZERO] else [])
    ++ (if expires_at t <=? default (Date_now / 1000) (currentTime options)
        then [ERROR_MESSAGES.TICKET_EXPIRED] else [])
    ++ (if negb (validateCIDFormat (rationale_cid t))
        then [ERROR_MESSAGES.INVALID_CID_FORMAT +:+ ": " +:+ rationale_cid t] else [])
    ++ (if (js_length (deal_id t) <? MIN_DEAL_ID_LENGTH)%nat
           || (MAX_DEAL_ID_LENGTH <? js_length (deal_id t))%nat
        then ["Deal ID length must be between " +:+ pretty MIN_DEAL_ID_LENGTH
              +:+ " and " +:+ pretty MAX_DEAL_ID_LENGTH] else []) in
  let warnings :=
    (if number_lt (confidence t)
          (default RECOMMENDED_MIN_CONFIDENCE (minConfidence options))
     then ["Confidence " +:+ number_toString (confidence t)
           +:+ " is below recommended minimum of "
           +:+ number_toString (default RECOMMENDED_MIN_CONFIDENCE (minConfidence options))
           +:+ ". Consider human review."] else []) ++ [] in
  Returned (mkValidationResult (length errors =? 0)%nat errors warnings).
Proof.
  intros Hnot. unfold validateTicketIntegrity, validateSplitConsistency.
  destruct (action t); [| | contradiction];
    destruct (split_bps t =? 0); reflexivity.
Qed.

Lemma js_length_printable (s : string) :
  string_forallb is_printable s = true -> js_length s = String.length s.
Proof.
  induction s as [| c s IH]; [reflexivity |]. cbn [string_forallb js_length String.length].
  intros Hs. apply andb_true_iff in Hs as [Hc Hs]. rewrite (IH Hs).
  unfold is_printable, in_range in Hc. apply andb_true_iff in Hc as [_ Hhi].
  apply N.leb_le in Hhi. cbv zeta.
  destruct (N.leb_spec 128 (N_of_ascii c)); [lia |].
  destruct (N.leb_spec 240 (N_of_ascii c)); [lia | reflexivity].
Qed.

Lemma js_length_le (s : string) : (js_length s <= 2 * String.length s)%nat.
Proof.
  induction s as [| c s IH]; [cbn; lia |]. cbn [js_length String.length]. cbv zeta.
  destruct (_ && _); [lia |]. destruct (_ <=? _)%N; lia.
Qed.

(** X22. On a RELEASE or REFUND ticket [validateTicketIntegrity] returns,
    and says [valid] exactly when there is no error, that is when the split
    is 0, the ticket expires after the current time, the rationale passes
    [validateCIDFormat] and the [length] of the deal identifier, in UTF-16
    code units, is from 1 to 128. Its characters are not checked:
    [validateDealId] accepts exactly the identifiers of that length made of
    printable ASCII characters, for which the length is the number of
    bytes. The only warning is that of a confidence below the minimum. *)
Theorem validateTicketIntegrity_valid `{JsNumberFormat} :
  forall (Date_now : Z) (t : ResolveTicket) (options : IntegrityOptions),
    action t <> SPLIT ->
    exists result,
      validateTicketIntegrity Date_now t options = Returned result /\
      (vr_valid result = true <-> errors result = []) /\
      (vr_valid result = true <->
         split_bps t = 0 /\
         default (Date_now / 1000) (currentTime options) < expires_at t /\
         validateCIDFormat (rationale_cid t) = true /\
         (1 <= js_length (deal_id t) <= 128)%nat) /\
      (warnings result = [] <->
         number_lt (confidence t)
           (default RECOMMENDED_MIN_CONFIDENCE (minConfidence options)) = false) /\
      (valid (validateDealId (deal_id t)) = true <->
         (1 <= js_length (deal_id t) <= 128)%nat /\
         string_forallb is_printable (deal_id t) = true) /\
      (string_forallb is_printable (deal_id t) = true ->
         js_length (deal_id t) = String.length (deal_id t)).
Proof.
  intros Date_now t options Hnot.
  rewrite (validateTicketIntegrity_not_SPLIT Date_now t options Hnot). cbv zeta.
  eexists. split; [reflexivity |]. cbn [vr_valid errors warnings].
  unfold MIN_DEAL_ID_LENGTH, MAX_DEAL_ID_LENGTH.
  split; [| split; [| split; [| split]]].
  - rewrite Nat.eqb_eq. apply List.length_zero_iff_nil.
  - rewrite Nat.eqb_eq, List.length_zero_iff_nil.
    destruct (Z.eqb_spec (split_bps t) 0) as [Hbps | Hbps];
      destruct (Z.leb_spec (expires_at t) (default (Date_now / 1000) (currentTime options)));
      destruct (validateCIDFormat (rationale_cid t));
      destruct (Nat.ltb_spec (js_length (deal_id t)) 1);
      destruct (Nat.ltb_spec 128 (js_length (deal_id t)));
      cbn [negb orb app]; split; try discriminate; intros; try reflexivity;
        try (exfalso; lia); try (repeat split; first [assumption | reflexivity | lia]);
        intuition (try discriminate; try lia).
  - rewrite app_nil_r. destruct (number_lt _ _); split; intros; try discriminate; reflexivity.
  - unfold validateDealId, MIN_DEAL_ID_LENGTH, MAX_DEAL_ID_LENGTH.
    pose proof (js_length_le (deal_id t)) as Hle.
    destruct (Nat.eqb_spec (String.length (deal_id t)) 0) as [Hempty | Hfull];
      [cbn [valid]; split; [discriminate | lia] |].
    destruct (Nat.ltb_spec (js_length (deal_id t)) 1);
      [cbn [valid]; split; [discriminate | lia] |].
    destruct (Nat.ltb_spec 128 (js_length (deal_id t)));
      [cbn [valid]; split; [discriminate | lia] |].
    cbn [negb andb].
    destruct (string_forallb is_printable (deal_id t)); cbn [negb valid];
      split; try discriminate; intros; try reflexivity; try (split; [lia | reflexivity]);
      intuition discriminate.
  - apply js_length_printable.
Qed.

Lemma validateTicketIntegrity_valid_witness :
  let F := toy_number_format in
  exists result,
    validateTicketIntegrity 0 example_release (mkIntegrityOptions (Some 1999990000) None)
      = Returned result /\
    vr_valid result = true /\ errors result = [] /\ warnings result = [].
Proof.
  intros F. subst F.
  destruct (validateTicketIntegrity_valid (H:=toy_number_format) 0 example_release
              (mkIntegrityOptions (Some 1999990000) None))
    as (result & Hcall & Hnone & Hvalid & Hwarn & _); [discriminate |].
  exists result.
  assert (Hok : vr_valid result = true).
  { apply Hvalid. vm_compute. repeat split; first [reflexivity | discriminate | lia]. }
  split; [exact Hcall | split; [exact Hok | split]].
  - apply Hnone, Hok.
  - apply Hwarn. vm_compute. reflexivity.
Defined.

(** A deal identifier of a hundred accented letters, of two bytes each,
    has the length 100 and passes the integrity check, but is refused by
    [validateDealId] for its characters. *)
Example validateTicketIntegrity_accented_deal_id :
  let F := toy_number_format in
  let dealId := string_of_list_byte (concat (repeat [xc3; xa9] 100)) in
  let t := mkResolveTicket dealId RELEASE 0 example_cid (Float 0x3FECCCCCCCCCCCCD) 1
             2000000000 in
  String.length dealId = 200%nat /\ js_length dealId = 100%nat /\
  (exists result,
     validateTicketIntegrity 0 t (mkIntegrityOptions (Some 1999990000) None) = Returned result /\
     vr_valid result = true) /\
  validateDealId dealId
    = mkValidityCheck false (Some "Deal ID contains invalid characters").
Proof.
  intros F dealId t. subst F.
  split; [vm_compute; reflexivity | split; [vm_compute; reflexivity | split]].
  - eexists. split; vm_compute; reflexivity.
  - vm_compute. reflexivity.
Qed.

(** X23. What [isSafeForAutomaticExecution] declares safe needs no human
    review: if it returns [true], then [requiresHumanReview], given the same
    minimum confidence (or none, with its lower default of 0.7 against 0.8),
    returns [false]; the ticket is then not a SPLIT, its split is 0, and it
    has not expired. *)
Theorem isSafeForAutomaticExecution_no_review `{JsNumberFormat} :
  forall (Date_now : Z) (t : ResolveTicket) (options : IntegrityOptions),
    isSafeForAutomaticExecution Date_now t options = Returned true ->
    requiresHumanReview Date_now t (minConfidence options) = Returned false /\
    action t <> SPLIT /\ split_bps t = 0 /\
    default (Date_now / 1000) (currentTime options) < expires_at t /\
    number_lt (confidence t)
      (default SAFE_EXECUTION_MIN_CONFIDENCE (minConfidence options)) = false.
Proof.
  intros Date_now t options Hsafe.
  assert (Hnot : action t <> SPLIT).
  { intros Hsplit. unfold isSafeForAutomaticExecution, validateTicketIntegrity,
      validateSplitConsistency in Hsafe. rewrite Hsplit in Hsafe. discriminate Hsafe. }
  unfold isSafeForAutomaticExecution in Hsafe.
  rewrite (validateTicketIntegrity_not_SPLIT Date_now t options Hnot) in Hsafe.
  cbv zeta in Hsafe. rewrite outcome_bind_Returned in Hsafe. cbn [vr_valid] in Hsafe.
  destruct (Z.eqb_spec (split_bps t) 0) as [Hbps |];
    [| cbn [negb app length Nat.eqb] in Hsafe; discriminate Hsafe].
  destruct (Z.leb_spec (expires_at t) (default (Date_now / 1000) (currentTime options)))
    as [| Hlive]; [cbn [negb app length Nat.eqb] in Hsafe; discriminate Hsafe |].
  destruct (Nat.eqb _ 0); [| discriminate Hsafe]. cbn [negb] in Hsafe.
  destruct (number_lt (confidence t)
              (default SAFE_EXECUTION_MIN_CONFIDENCE (minConfidence options))) eqn:Hconf;
    [discriminate Hsafe |].
  split; [| auto].
  assert (Hmin : number_lt (confidence t)
                   (default RECOMMENDED_MIN_CONFIDENCE (minConfidence options)) = false).
  { destruct (minConfidence options) as [m |]; [exact Hconf |]. cbn [default] in *.
    destruct (number_lt (confidence t) RECOMMENDED_MIN_CONFIDENCE) eqn:Hlow; [| reflexivity].
    rewrite (number_lt_trans _ _ SAFE_EXECUTION_MIN_CONFIDENCE Hlow) in Hconf;
      [discriminate Hconf | vm_compute; reflexivity]. }
  unfold requiresHumanReview.
  set (m := default RECOMMENDED_MIN_CONFIDENCE (minConfidence options)) in *.
  rewrite Hmin.
  rewrite (validateTicketIntegrity_not_SPLIT Date_now t _ Hnot).
  cbv zeta. rewrite outcome_bind_Returned. cbn [warnings minConfidence default].
  unfold id. rewrite Hmin. destruct (action t); [reflexivity | reflexivity | contradiction].
Qed.

Lemma isSafeForAutomaticExecution_no_review_witness :
  let F := toy_number_format in
  isSafeForAutomaticExecution 0 example_release (mkIntegrityOptions (Some 1999990000) None)
    = Returned true /\
  requiresHumanReview 0 example_release None = Returned false.
Proof.
  intros F. subst F.
  assert (Hsafe : isSafeForAutomaticExecution (H:=toy_number_format) 0 example_release
                    (mkIntegrityOptions (Some 1999990000) None) = Returned true)
    by (vm_compute; reflexivity).
  split; [exact Hsafe |].
  apply (isSafeForAutomaticExecution_no_review (H:=toy_number_format) _ _ _ Hsafe).
Defined.

(* ===================================================================== *)
(** * Replay guard: the table after a call *)
(* ===================================================================== *)

Lemma prune_size (g : ReplayGuard) (now : Z) : (size (seen (prune g now)) <= size (seen g))%nat.
Proof.
  unfold prune. destruct (1000 <? size (seen g))%nat; [| lia].
  cbn [seen]. apply map_subseteq_size, map_filter_subseteq.
Qed.

Lemma prune_all_live (g : ReplayGuard) (now : Z) (id : string) (expiry : Z) :
  (1000 < size (seen g))%nat ->
  seen (prune g now) !! id = Some expiry -> now <= expiry.
Proof.
  intros Hbig. unfold prune. destruct (Nat.ltb_spec 1000 (size (seen g))); [| lia].
  cbn [seen]. intros Hl. apply map_lookup_filter_Some in Hl as [_ Hlive].
  cbn in Hlive. lia.
Qed.

Lemma prune_small (g : ReplayGuard) (now : Z) :
  (size (seen g) <= 1000)%nat -> prune g now = g.
Proof.
  intros Hsmall. unfold prune. destruct (Nat.ltb_spec 1000 (size (seen g))); [lia | reflexivity].
Qed.

(** X24. The table of the replay guard after one call of [accept]: a
    rejection leaves it as it was; an entry of the new table is an entry of
    the old one or the accepted ticket; an entry that has not expired is
    never dropped; the table grows by one entry at most; when the old table
    held 1000 entries or more, no expired entry is left after an accepted
    call, and when it held fewer, nothing is dropped. *)
Theorem accept_table `{NodeCrypto} :
  forall (g g' : ReplayGuard) (Date_now : Z) (t : ResolveTicket) (decision : bool),
    accept g Date_now t = Ok (decision, g') ->
    let now := Date_now / 1000 in
    (decision = false -> g' = g) /\
    (forall id expiry, seen g' !! id = Some expiry ->
       seen g !! id = Some expiry \/
       (decision = true /\ id = ticket_id t /\ expiry = expires_at t)) /\
    (forall id expiry, seen g !! id = Some expiry -> now <= expiry ->
       seen g' !! id = Some expiry) /\
    (size (seen g') <= size (seen g) + 1)%nat /\
    (decision = true -> (1000 <= size (seen g))%nat ->
       forall id expiry, seen g' !! id = Some expiry -> now <= expiry) /\
    (decision = true -> (size (seen g) < 1000)%nat ->
       seen g' = <[ticket_id t := expires_at t]> (seen g)).
Proof.
  intros g g' Date_now t decision Haccept now.
  destruct (call_cases g Date_now t) as [Hexpired | Hlive Hseen | Hlive Hfresh].
  - rewrite (accept_expired g Date_now t Hexpired) in Haccept. injection Haccept as <- <-.
    repeat split; intros; try discriminate; auto; lia.
  - rewrite (accept_replay g Date_now t Hseen) in Haccept. injection Haccept as <- <-.
    repeat split; intros; try discriminate; auto; lia.
  - rewrite (accept_fresh g Date_now t Hlive Hfresh) in Haccept. injection Haccept as <- <-.
    set (g1 := mkReplayGuard (<[ticket_id t := expires_at t]> (seen g))).
    assert (Hsize : size (seen g1) = S (size (seen g)))
      by (cbn [g1 seen]; now apply map_size_insert_None).
    split; [discriminate | split; [| split; [| split; [| split]]]].
    + intros id expiry Hl. apply prune_lookup in Hl. cbn [g1 seen] in Hl.
      destruct (decide (id = ticket_id t)) as [-> | Hne].
      * rewrite lookup_insert_eq in Hl. injection Hl as <-. right. auto.
      * rewrite lookup_insert_ne in Hl by congruence. now left.
    + intros id expiry Hl Hnow. apply prune_keeps_live; [| exact Hnow].
      cbn [g1 seen]. rewrite lookup_insert_ne; [assumption | congruence].
    + pose proof (prune_size g1 (Date_now / 1000)). lia.
    + intros _ Hbig id expiry Hl. apply (prune_all_live g1 _ id); [lia | exact Hl].
    + intros _ Hsmall. rewrite prune_small by lia. reflexivity.
Qed.

Lemma accept_table_witness :
  let H := toy_crypto in
  exists g',
    accept new_ReplayGuard 1000 example_ticket = Ok (true, g') /\
    seen g' = <[ticket_id (H:=toy_crypto) example_ticket := expires_at example_ticket]> ∅ /\
    (size (seen g') <= 1)%nat.
Proof.
  intros H. subst H.
  assert (Haccept : accept (H:=toy_crypto) new_ReplayGuard 1000 example_ticket
                    = Ok (true, prune (mkReplayGuard
                            (<[ticket_id (H:=toy_crypto) example_ticket
                               := expires_at example_ticket]> ∅))
                            (1000 / 1000))).
  { apply accept_fresh; [vm_compute; discriminate | reflexivity]. }
  eexists. split; [exact Haccept |].
  pose proof (accept_table (H:=toy_crypto) _ _ _ _ _ Haccept) as (_ & _ & _ & Hsize & _ & Hsmall).
  split; [| exact Hsize].
  apply Hsmall; [reflexivity |].
  unfold new_ReplayGuard. cbn [seen]. rewrite map_size_empty. lia.
Defined.

(** X25. The replay guard uses the expiry convention of [helpers.ts]: a
    call is rejected for expiry exactly when [isTicketExpired] of
    [helpers.ts] holds at the time the call observes. A ticket that is not
    recorded is thus accepted at the instant [now = expires_at], at which
    [isTicketExpired] of [resolveTicketHelpers.ts] says that it has
    expired. *)
Theorem accept_expiry_convention `{NodeCrypto} :
  forall (g : ReplayGuard) (Date_now : Z) (t : ResolveTicket),
    (Helpers.isTicketExpired Date_now t None = true ->
     accept g Date_now t = Ok (false, g)) /\
    (Helpers.isTicketExpired Date_now t None = false ->
     seen g !! ticket_id t = None ->
     exists g', accept g Date_now t = Ok (true, g')) /\
    (expires_at t = Date_now / 1000 ->
     seen g !! ticket_id t = None ->
     ResolveTicketHelpers.isTicketExpired Date_now t None = true /\
     exists g', accept g Date_now t = Ok (true, g')).
Proof.
  intros g Date_now t. unfold Helpers.isTicketExpired, ResolveTicketHelpers.isTicketExpired.
  rewrite Z.gtb_ltb. split; [| split].
  - intros Hexpired. apply accept_expired. now apply Z.ltb_lt.
  - intros Hlive Hfresh. eexists. apply accept_fresh; [| assumption]. now apply Z.ltb_ge.
  - intros Hnow Hfresh. split; [apply Z.leb_le; lia |].
    eexists. apply accept_fresh; [lia | assumption].
Qed.

Lemma accept_expiry_convention_witness :
  let H := toy_crypto in
  ResolveTicketHelpers.isTicketExpired 2000000000999 example_ticket None = true /\
  exists g', accept new_ReplayGuard 2000000000999 example_ticket = Ok (true, g').
Proof.
  intros H. subst H.
  pose proof (accept_expiry_convention (H:=toy_crypto) new_ReplayGuard 2000000000999
                example_ticket) as (_ & _ & Hboundary).
  apply Hboundary; reflexivity.
Defined.

(* ===================================================================== *)
(** * Quorum: order and number of the submissions *)
(* ===================================================================== *)

Lemma verifyQuorum_count `{Noble} (ticket : ResolveTicket) (signatures : list (bytes * bytes))
  (authorizedPubKeys : list bytes) (threshold : Z) :
  quorum_well_formed authorizedPubKeys signatures ->
  verifyQuorum ticket signatures authorizedPubKeys threshold =
  Ok (threshold <=? Z.of_nat (quorum_count (Cborg.encode (ticket_object ticket))
                                authorizedPubKeys [] signatures)).
Proof.
  intros Hwf. unfold verifyQuorum. rewrite encodeCbor_ticket, bind_Ok.
  rewrite (quorum_loop_count _ _ signatures 0 ∅ []), bind_Ok; [| | assumption].
  - now rewrite Z.add_0_l.
  - intros k. split; intros Hk; [now apply elem_of_empty in Hk | inversion Hk].
Qed.

Lemma quorum_count_incl `{Noble} (ticketBytes : bytes) (authorizedPubKeys : list bytes)
  (signatures signatures' : list (bytes * bytes)) :
  (forall p, p ∈ signatures -> p ∈ signatures') ->
  (quorum_count ticketBytes authorizedPubKeys [] signatures
   <= quorum_count ticketBytes authorizedPubKeys [] signatures')%nat.
Proof.
  intros Hincl.
  destruct (quorum_count_distinct_signers ticketBytes authorizedPubKeys signatures [])
    as (keys & Hnd & <- & Hkeys).
  destruct (quorum_count_distinct_signers ticketBytes authorizedPubKeys signatures' [])
    as (keys' & Hnd' & <- & Hkeys').
  apply submseteq_length, NoDup_submseteq; [assumption |].
  intros pk Hpk. apply Hkeys in Hpk as (Hnew & Hauth & sig & Hin & Hverify).
  apply Hkeys'. split; [assumption | split; [assumption |]].
  exists sig. split; [now apply Hincl | assumption].
Qed.

(** X26. The verdict of [verifyQuorum] does not depend on the order of the
    submissions, nor on repetitions: two lists with the same members give
    the same answer. More submissions never turn a reached quorum into a
    missed one. (Every submission under an authorized key has a signature
    of 64 bytes and a key of 32 bytes.) *)
Theorem verifyQuorum_order_independent `{Noble} :
  forall (ticket : ResolveTicket) (signatures signatures' : list (bytes * bytes))
         (authorizedPubKeys : list bytes) (threshold : Z),
    quorum_well_formed authorizedPubKeys signatures ->
    quorum_well_formed authorizedPubKeys signatures' ->
    (forall p, p ∈ signatures -> p ∈ signatures') ->
    (verifyQuorum ticket signatures authorizedPubKeys threshold = Ok true ->
     verifyQuorum ticket signatures' authorizedPubKeys threshold = Ok true) /\
    ((forall p, p ∈ signatures' -> p ∈ signatures) ->
     verifyQuorum ticket signatures authorizedPubKeys threshold
     = verifyQuorum ticket signatures' authorizedPubKeys threshold).
Proof.
  intros ticket signatures signatures' authorizedPubKeys threshold Hwf Hwf' Hincl.
  rewrite !verifyQuorum_count by assumption.
  pose proof (quorum_count_incl (Cborg.encode (ticket_object ticket)) authorizedPubKeys
                signatures signatures' Hincl) as Hle.
  set (count := quorum_count _ _ _ signatures) in *.
  set (count' := quorum_count _ _ _ signatures') in *.
  split.
  - intros [= Hreached]. f_equal. apply Z.leb_le in Hreached. apply Z.leb_le. lia.
  - intros Hincl'.
    pose proof (quorum_count_incl (Cborg.encode (ticket_object ticket)) authorizedPubKeys
                  signatures' signatures Hincl') as Hge.
    fold count in Hge. fold count' in Hge. do 3 f_equal. lia.
Qed.

Lemma verifyQuorum_order_independent_witness :
  let H := toy_noble in
  verifyQuorum example_ticket example_signatures [signer_1; signer_2; signer_3] 2
  = verifyQuorum example_ticket (rev example_signatures) [signer_1; signer_2; signer_3] 2.
Proof.
  intros H. subst H.
  assert (Hwf : forall l, (forall p, p ∈ l -> p ∈ example_signatures) ->
                  quorum_well_formed [signer_1; signer_2; signer_3] l).
  { intros l Hl. apply Forall_forall. intros p Hp _. apply Hl in Hp.
    unfold example_signatures in Hp.
    repeat (apply elem_of_cons in Hp as [-> | Hp]; [split; reflexivity |]).
    inversion Hp. }
  apply (verifyQuorum_order_independent (H:=toy_noble)).
  - apply Hwf. auto.
  - apply Hwf. intros p Hp. now apply elem_of_reverse in Hp.
  - intros p Hp. now apply elem_of_reverse.
  - intros p Hp. now apply elem_of_reverse in Hp.
Defined.

(* ===================================================================== *)
(** * Multi-signature tickets: roles and keys *)
(* ===================================================================== *)

(** X27. [isThresholdMet] counts roles, not signers: it holds exactly when
    every required role has a signer in [getSignersForRole], and one key
    whose signature verifies can be added under two roles, after which the
    threshold of these two roles is met with that key as the only signer. *)
Theorem isThresholdMet_counts_roles `{Noble} :
  forall (multi : MultiSigTicket) (requiredRoles : list ParticipantRole),
    (isThresholdMet multi requiredRoles = true
       <-> forall r, In r requiredRoles -> getSignersForRole multi r <> []) /\
    (forall (key sig : bytes_or_hex) (r1 r2 : ParticipantRole),
       verify (Cborg.encode (ticket_object (multi_ticket multi))) sig key = Ok true ->
       exists multi1 multi2,
         addParticipantSignature (createMultiSigTicket (multi_ticket multi))
           (mkParticipantSignature r1 key sig) = Ok multi1 /\
         addParticipantSignature multi1 (mkParticipantSignature r2 key sig) = Ok multi2 /\
         isThresholdMet multi2 [r1; r2] = true /\
         forall r, In r [r1; r2] -> forall k, In k (getSignersForRole multi2 r) -> k = key).
Proof.
  intros multi requiredRoles. split.
  - unfold isThresholdMet, getSignersForRole. rewrite forallb_forall.
    split; intros Hmet r Hr; specialize (Hmet r Hr).
    + apply existsb_exists in Hmet as (s & Hs & Hrole).
      intros Hnil. apply List.map_eq_nil in Hnil.
      assert (Hin : In s (List.filter (fun s => bool_decide (role s = r)) (signatures multi)))
        by (apply List.filter_In; auto).
      rewrite Hnil in Hin. exact Hin.
    + apply existsb_exists.
      destruct (List.filter (fun s => bool_decide (role s = r)) (signatures multi))
        as [| s l] eqn:Hfilter; [contradiction |].
      assert (Hin : In s (List.filter (fun s => bool_decide (role s = r)) (signatures multi)))
        by (rewrite Hfilter; now left).
      apply List.filter_In in Hin. exists s. exact Hin.
  - intros key sig r1 r2 Hverify.
    set (s1 := mkParticipantSignature r1 key sig).
    set (s2 := mkParticipantSignature r2 key sig).
    exists (mkMultiSigTicket (multi_ticket multi) [s1]),
           (mkMultiSigTicket (multi_ticket multi)
              (List.filter (fun s => negb (same_participant s2 s)) [s1] ++ [s2])).
    split; [| split; [| split]].
    + rewrite addParticipantSignature_cases. cbn [multi_ticket createMultiSigTicket signature pubkey s1].
      now rewrite Hverify.
    + rewrite addParticipantSignature_cases. cbn [multi_ticket signature pubkey s2 signatures].
      now rewrite Hverify.
    + unfold isThresholdMet. cbn [signatures forallb List.filter].
      unfold same_participant. cbn [role pubkey s1 s2].
      destruct (bool_decide_reflect (r1 = r2)) as [<- | Hne]; cbn [andb negb app existsb role].
      * destruct (keyEquals key key); cbn [negb app existsb role s1 s2];
          rewrite !bool_decide_eq_true_2 by reflexivity; reflexivity.
      * rewrite !bool_decide_eq_true_2 by reflexivity. cbn [orb andb].
        subst s1 s2. cbn [role]. rewrite (bool_decide_eq_true_2 (r2 = r2)) by reflexivity.
        cbn [orb]. now rewrite orb_true_r.
    + intros r _ k Hk. unfold getSignersForRole in Hk. cbn [signatures] in Hk.
      apply List.in_map_iff in Hk as (s & <- & Hs).
      apply List.filter_In in Hs as [Hs _]. apply List.in_app_or in Hs as [Hs | [<- | []]].
      * apply List.filter_In in Hs as [[<- | []] _]. reflexivity.
      * reflexivity.
Qed.

Lemma isThresholdMet_counts_roles_witness :
  let H := toy_noble in
  exists multi1 multi2,
    addParticipantSignature (createMultiSigTicket example_ticket)
      (mkParticipantSignature BUYER (FromBytes signer_1)
         (FromBytes (toy_signature example_bytes signer_1))) = Ok multi1 /\
    addParticipantSignature multi1
      (mkParticipantSignature SELLER (FromBytes signer_1)
         (FromBytes (toy_signature example_bytes signer_1))) = Ok multi2 /\
    isThresholdMet multi2 [BUYER; SELLER] = true.
Proof.
  intros H. subst H.
  pose proof (isThresholdMet_counts_roles (H:=toy_noble) (createMultiSigTicket example_ticket)
                [BUYER; SELLER]) as [_ Hone].
  destruct (Hone (FromBytes signer_1) (FromBytes (toy_signature example_bytes signer_1))
              BUYER SELLER) as (multi1 & multi2 & H1 & H2 & Hmet & _).
  { vm_compute. reflexivity. }
  exists multi1, multi2. auto.
Defined.

(* ===================================================================== *)
(** * schema.ts: the refinement, and the amounts of a split *)
(* ===================================================================== *)

(** X28. The refinement of the schema adds one issue at most, and none
    exactly when the split agrees with the action: 1 to 9999 basis points
    for a SPLIT, 0 otherwise. On a ticket without issue
    [calculateSplitAmounts] never throws; for a SPLIT of an amount of 10000
    or more both parties receive something, and for a RELEASE or a REFUND
    it gives the whole amount to the buyer. *)
Theorem superRefine_split_amounts :
  forall (t : ResolveTicket) (totalAmount : Z),
    0 <= totalAmount -> totalAmount * 10000 <= 9007199254740991 ->
    (length (superRefine t) <= 1)%nat /\
    (superRefine t = [] <->
       (action t = SPLIT /\ 1 <= split_bps t <= 9999) \/
       (action t <> SPLIT /\ split_bps t = 0)) /\
    (superRefine t = [] ->
     exists sellerAmount buyerAmount,
       calculateSplitAmounts totalAmount (split_bps t) = Ok (sellerAmount, buyerAmount) /\
       (action t = SPLIT -> 10000 <= totalAmount -> 0 < sellerAmount /\ 0 < buyerAmount) /\
       (action t <> SPLIT -> sellerAmount = 0 /\ buyerAmount = totalAmount)).
Proof.
  intros t totalAmount Htotal Hsafe.
  assert (Hissues : (length (superRefine t) <= 1)%nat /\
                    (superRefine t = [] <->
                       (action t = SPLIT /\ 1 <= split_bps t <= 9999) \/
                       (action t <> SPLIT /\ split_bps t = 0))).
  { unfold superRefine. rewrite Z.geb_leb.
    destruct (action t);
      [ destruct (Z.eqb_spec (split_bps t) 0) | destruct (Z.eqb_spec (split_bps t) 0)
      | destruct (Z.leb_spec (split_bps t) 0), (Z.leb_spec 10000 (split_bps t)) ];
      cbn [negb orb length]; (split; [lia |]);
      split; intros Hx; try discriminate Hx; try reflexivity;
      try (right; split; [discriminate | assumption]);
      try (left; split; [reflexivity | lia]);
      destruct Hx as [[Ha Hb] | [Ha Hb]]; try discriminate Ha; try contradiction; lia. }
  destruct Hissues as [Hlen Hnone]. split; [exact Hlen | split; [exact Hnone |]].
  intros Hrefined. apply Hnone in Hrefined.
  assert (Hrange : 0 <= split_bps t <= 10000) by (destruct Hrefined as [[_ ?] | [_ ?]]; lia).
  exists (totalAmount * split_bps t / 10000),
         (totalAmount - totalAmount * split_bps t / 10000).
  split; [| split].
  - unfold calculateSplitAmounts.
    destruct (Z.ltb_spec (split_bps t) 0); [lia |]. rewrite Z.gtb_ltb.
    destruct (Z.ltb_spec 10000 (split_bps t)); [lia | reflexivity].
  - intros Hsplit Hamount.
    destruct Hrefined as [[_ Hbps] | [Hnot _]]; [| contradiction].
    assert (Hlow : 1 <= totalAmount * split_bps t / 10000)
      by (apply Z.div_le_lower_bound; nia).
    assert (Hhigh : totalAmount * split_bps t / 10000 < totalAmount)
      by (apply Z.div_lt_upper_bound; nia).
    lia.
  - intros Hnot. destruct Hrefined as [[Hsplit _] | [_ Hbps]]; [contradiction |].
    rewrite Hbps, Z.mul_0_r. change (0 / 10000) with 0. lia.
Qed.

Lemma superRefine_split_amounts_witness :
  superRefine example_split = [] /\
  exists sellerAmount buyerAmount,
    calculateSplitAmounts 20001 (split_bps example_split) = Ok (sellerAmount, buyerAmount) /\
    0 < sellerAmount /\ 0 < buyerAmount.
Proof.
  destruct (superRefine_split_amounts example_split 20001) as (_ & _ & Hamounts);
    [lia | lia |].
  split; [reflexivity |].
  destruct (Hamounts eq_refl) as (s & b & Hcall & Hsplit & _).
  exists s, b. split; [exact Hcall | apply Hsplit; [reflexivity | lia]].
Defined.

(* ===================================================================== *)
(** * Envelopes: what is thrown *)
(* ===================================================================== *)

Lemma length_slices (s : string) :
  (2 * length (Transport.slices s) + String.length s mod 2 = String.length s)%nat.
Proof.
  induction s as [| c | a b s IH] using string_pair_ind; [reflexivity .. |].
  cbn [Transport.slices length String.length].
  replace (S (S (String.length s))) with (String.length s + 1 * 2)%nat by lia.
  rewrite Nat.Div0.mod_add. lia.
Qed.

(** The transport's parser returns one byte for every two characters that
    follow the prefix [0x]. *)
Lemma Transport_hexToBytes_length (hex : string) (bs : bytes) :
  Transport.hexToBytes hex = Ok bs ->
  String.length hex = (2 * length bs + (if String.prefix "0x" hex then 2 else 0))%nat.
Proof.
  assert (Hbody : forall clean,
            (if negb (String.length clean mod 2 =? 0)%nat
             then Throw (Error "hex string must have an even length")
             else Ok (map (fun byte => ToUint8 (parseInt16 byte)) (Transport.slices clean)))
            = Ok bs ->
            String.length clean = (2 * length bs)%nat).
  { intros clean. destruct (Nat.eqb_spec (String.length clean mod 2) 0) as [Heven |];
      [| discriminate].
    cbn [negb]. intros [= <-]. rewrite length_map.
    pose proof (length_slices clean). lia. }
  destruct hex as [| c1 [| c2 rest]].
  - intros Hok. apply (Hbody EmptyString) in Hok. cbn [String.prefix]. lia.
  - intros Hok. exfalso.
    assert (Hone : Transport.hexToBytes (String c1 EmptyString)
                   = Throw (Error "hex string must have an even length"))
      by (destruct c1 as [[] [] [] [] [] [] [] []]; reflexivity).
    rewrite Hone in Hok. discriminate Hok.
  - rewrite Transport_hexToBytes_cons. cbv zeta. cbn [String.prefix].
    destruct (Ascii.eqb_spec c1 "0") as [-> | Hc1]; cbn [andb].
    + destruct (Ascii.eqb_spec c2 "x") as [-> | Hc2].
      * intros Hok. apply Hbody in Hok. cbn [String.length].
        assert (Hp : String.prefix EmptyString rest = true) by (destruct rest; reflexivity).
        destruct (ascii_dec "0" "0"); [| congruence].
        destruct (ascii_dec "x" "x"); [| congruence].
        rewrite Hp. lia.
      * intros Hok. apply Hbody in Hok.
        destruct (ascii_dec "0" "0"); [| congruence].
        destruct (ascii_dec "x" c2); [congruence |]. lia.
    + intros Hok. apply Hbody in Hok.
      destruct (ascii_dec "0" c1); [congruence |]. lia.
Qed.

(** X29. [fromEnvelope] reports only a wrong schema tag or the rejections
    of [decodeAndVerifyTicket] as a result; with the right tag, a hex field
    that cannot be read, a signature that is not of 64 bytes and a key
    that is not of 32 bytes are thrown. So when it returns under the right
    tag, the signature field holds 128 characters and the key field 64,
    not counting a prefix [0x]. *)
Theorem fromEnvelope_throws `{Noble} `{Zod} :
  forall (Date_now : Z) (env : ResolveTicketEnvelope) (opts : DecodeVerifyOptions),
    env_schema env = "escrow.v1.ResolveTicketEnvelope" ->
    (forall e, Transport.hexToBytes (ticket_cbor_hex env) = Throw e ->
       fromEnvelope Date_now env opts = Throw e) /\
    (forall bs sig pk,
       Transport.hexToBytes (ticket_cbor_hex env) = Ok bs ->
       Transport.hexToBytes (signature_hex env) = Ok sig ->
       Transport.hexToBytes (pubkey_hex env) = Ok pk ->
       (length sig <> 64%nat ->
        fromEnvelope Date_now env opts = Throw InvalidSignatureLength) /\
       (length sig = 64%nat -> length pk <> 32%nat ->
        fromEnvelope Date_now env opts = Throw InvalidKeyLength_publicKey)) /\
    (forall r, fromEnvelope Date_now env opts = Ok r ->
       String.length (signature_hex env)
         = (128 + (if String.prefix "0x" (signature_hex env) then 2 else 0))%nat /\
       String.length (pubkey_hex env)
         = (64 + (if String.prefix "0x" (pubkey_hex env) then 2 else 0))%nat).
Proof.
  intros Date_now env opts Htag. unfold fromEnvelope. rewrite Htag.
  replace (String.eqb "escrow.v1.ResolveTicketEnvelope" "escrow.v1.ResolveTicketEnvelope")
    with true by (symmetry; apply String.eqb_refl).
  cbn [negb]. split; [| split].
  - intros e ->. reflexivity.
  - intros bs sig pk -> -> ->. rewrite !bind_Ok. split.
    + intros Hsig. rewrite decodeAndVerifyTicket_stages.
      now rewrite (verify_bad_signature_length bs (FromBytes sig) (FromBytes pk) sig eq_refl Hsig).
    + intros Hsig Hpk. rewrite decodeAndVerifyTicket_stages.
      now rewrite (verify_bad_key_length bs (FromBytes sig) (FromBytes pk) sig pk
                     eq_refl Hsig eq_refl Hpk).
  - intros r.
    destruct (Transport.hexToBytes (ticket_cbor_hex env)) as [bs | e]; [| discriminate].
    destruct (Transport.hexToBytes (signature_hex env)) as [sig | e] eqn:Hsig; [| discriminate].
    destruct (Transport.hexToBytes (pubkey_hex env)) as [pk | e] eqn:Hpk; [| discriminate].
    rewrite !bind_Ok, decodeAndVerifyTicket_stages.
    destruct (verify bs (FromBytes sig) (FromBytes pk)) as [ok | e] eqn:Hverify;
      [| discriminate].
    intros _.
    destruct (verify_Ok _ _ _ _ Hverify) as (sig' & pk' & [= <-] & Hsiglen & [= <-] & Hpklen & _).
    rewrite (Transport_hexToBytes_length _ _ Hsig), (Transport_hexToBytes_length _ _ Hpk).
    lia.
Qed.

Lemma fromEnvelope_throws_witness :
  let H := toy_noble in
  let Z := toy_zod in
  fromEnvelope 0
    (mkResolveTicketEnvelope "escrow.v1.ResolveTicketEnvelope" "a0" "zz" "00") no_options
  = Throw InvalidSignatureLength.
Proof.
  intros H Z. subst H Z.
  pose proof (fromEnvelope_throws (H:=toy_noble) (H0:=toy_zod) 0
                (mkResolveTicketEnvelope "escrow.v1.ResolveTicketEnvelope" "a0" "zz" "00")
                no_options eq_refl) as (_ & Hlengths & _).
  destruct (Hlengths [xa0] [x00] [x00]) as [Hsig _]; [reflexivity .. |].
  apply Hsig. discriminate.
Defined.

(* ===================================================================== *)
(** * From verification to the replay guard *)
(* ===================================================================== *)

(** X30. A ticket that [decodeAndVerifyTicket] has accepted on the current
    clock and without skew is not rejected for expiry by the replay guard
    on the same clock: [accept] returns [true] if its identity is not
    recorded, and [false] only as a replay. *)
Theorem decodeAndVerifyTicket_then_accept `{Noble} `{Zod} `{NodeCrypto} :
  forall (Date_now : Z) (bs : bytes) (signature pubkey : bytes_or_hex)
         (opts : DecodeVerifyOptions) (r : DecodeVerifyResult) (t : ResolveTicket)
         (g : ReplayGuard),
    decodeAndVerifyTicket Date_now bs signature pubkey opts = Ok r ->
    dv_ok r = true ->
    dv_ticket r = Some t ->
    nowSeconds opts = None ->
    default 0 (maxSkewSeconds opts) <= 0 ->
    (seen g !! ticket_id t = None -> exists g', accept g Date_now t = Ok (true, g')) /\
    (is_Some (seen g !! ticket_id t) -> accept g Date_now t = Ok (false, g)) /\
    Helpers.isTicketExpired Date_now t None = false.
Proof.
  intros Date_now bs signature pubkey opts r t g Hr Hok Hticket Hnow Hskew.
  destruct (decodeAndVerifyTicket_ok Date_now bs signature pubkey opts r Hr Hok)
    as (sig & pk & raw & t' & -> & _ & _ & _ & _ & _ & _ & _ & _ & _ & Hlive).
  cbn [dv_ticket accepted] in Hticket. injection Hticket as ->.
  rewrite Hnow in Hlive. cbn [default] in Hlive.
  assert (Hfresh : Date_now / 1000 <= expires_at t) by lia.
  split; [| split].
  - intros Hnone. eexists. now apply accept_fresh.
  - apply accept_replay.
  - unfold Helpers.isTicketExpired. rewrite Z.gtb_ltb. apply Z.ltb_ge. exact Hfresh.
Qed.

Lemma decodeAndVerifyTicket_then_accept_witness :
  let H := toy_noble in
  let Z := toy_zod in
  let C := toy_crypto in
  exists g', accept new_ReplayGuard 1000 example_ticket = Ok (true, g').
Proof.
  intros H Z C. subst H Z C.
  pose proof (decodeAndVerifyTicket_then_accept (H:=toy_noble) (H0:=toy_zod) (H1:=toy_crypto)
                1000 example_bytes (FromBytes (toy_signature example_bytes signer_1))
                (FromBytes signer_1) no_options (accepted example_ticket) example_ticket
                new_ReplayGuard) as Hthen.
  destruct Hthen as (Haccept & _);
    [vm_compute; reflexivity | reflexivity | reflexivity | reflexivity | cbn; lia |].
  apply Haccept. reflexivity.
Defined.
